(** * Beam calculator: the static-analysis engine of [utils/solver.ts]

    A shallow embedding of the solver ([computeChartInference], [solveBeam],
    [getTotalLoads], [solveReactions]) and of the data model and display
    helpers of [utils/types.ts], followed by the properties proved of them.

    Numbers.  A JavaScript number is embedded as an exact rational ([Q]):
    the development is about the arithmetic the solver performs, not about
    binary64 rounding.  Two things have no rational counterpart and are
    written out instead of being hidden:
    - the initial values [-Infinity] and [Infinity] of the running extremes
      of [computeChartInference] are the constructors of [xnum];
    - a division whose divisor the source does not test ([sumM / L],
      [T / GJ], [position / beam.length], [... / (posB - posA)], [... / EI],
      [... / beam.I]) and an array read at a computed index yield
      [Infinity], [NaN] or [undefined] when the divisor is zero or the index
      is outside the array.  Those sites go through [jsdiv] and [nth_error]
      and the enclosing stage returns [None]: it has left finite
      arithmetic.  [solveBeam] keeps its stages apart: a field of its
      result is [None] only when such a site lies on the data flow to that
      field.  A division under a guard of the source
      ([L_load > 0], [denom > 1e-12], a strictly signed [prev]) is the plain
      [Qdiv].
    Equality of computed numbers is [Qeq] ([==]). *)

From Stdlib Require Import QArith Qabs Qround ZArith List String Bool Lia Lqa
  Permutation Sorted.
Import ListNotations.
Local Open Scope Q_scope.

(** ** Numbers *)

Definition Qltb (a b : Q) : bool := negb (Qle_bool b a).
Definition Qgtb (a b : Q) : bool := Qltb b a.
Definition Qleb (a b : Q) : bool := Qle_bool a b.
Definition Qgeb (a b : Q) : bool := Qle_bool b a.

(** [Math.min], [Math.abs], [Math.round] (half-way cases go up). *)
Definition Math_min (a b : Q) : Q := if Qleb a b then a else b.
Definition Math_abs (a : Q) : Q := Qabs a.
Definition Math_round (a : Q) : Z := Qfloor (a + (1 # 2)).

(** An unguarded division: [None] when the divisor is zero. *)
Definition jsdiv (a b : Q) : option Q :=
  if Qeq_bool b 0 then None else Some (a / b).

(** The literals [1e-12] and [1e-10]. *)
Definition tol_denom : Q := 1 # 1000000000000.
Definition tol_reaction : Q := 1 # 10000000000.

(** A number that may still be one of the two infinities. *)
Inductive xnum : Type :=
| MinusInfinity
| Finite (q : Q)
| PlusInfinity.

(** [v > m] and [v < m] for a finite [v]. *)
Definition gt_x (v : Q) (m : xnum) : bool :=
  match m with
  | MinusInfinity => true
  | Finite q => Qgtb v q
  | PlusInfinity => false
  end.

Definition lt_x (v : Q) (m : xnum) : bool :=
  match m with
  | MinusInfinity => false
  | Finite q => Qltb v q
  | PlusInfinity => true
  end.

(** [m * k] for a constant [k > 0], as the display helpers scale values. *)
Definition xscale (m : xnum) (k : Q) : xnum :=
  match m with
  | Finite q => Finite (q * k)
  | other => other
  end.

(** ** Data model ([types.ts]) *)

Inductive SupportType : Type := pin | roller | fixed.
Inductive LoadType : Type := point | udl | uvl | moment | torque.
Inductive UnitSystem : Type := SI | kNm | Imperial.

Record Support : Type := {
  sid : string;
  stype : SupportType;
  sposition : Q
}.

Record Load : Type := {
  id : string;
  type : LoadType;
  position : Q;
  magnitude : Q;
  endMagnitude : option Q;
  endPosition : option Q
}.

Record BeamConfig : Type := {
  length : Q;
  E : Q;
  G : Q;
  I : Q;
  J : Q;
  depth : Q;
  supports : list Support;
  loads : list Load;
  units : UnitSystem;
  gravity : Q
}.

Record SolverStep : Type := {
  title : string;
  description : string;
  equations : option (list string);
  result : option string
}.

Record Sample : Type := { x : Q; value : Q }.

Record ChartInference : Type := {
  maxValue : xnum;
  maxPosition : Q;
  minValue : xnum;
  minPosition : Q;
  zeroCrossings : list Q;
  summary : string
}.

Record Reaction : Type := { Fy : Q; Mz : option Q }.

(** The [reactions] object: property keys in insertion order.  (The
    engine reorders integer-like keys; support ids are not of that form and
    the order only fixes the order of summation.) *)
Definition Reactions : Type := list (string * Reaction).

Definition SupportType_eqb (a b : SupportType) : bool :=
  match a, b with
  | pin, pin | roller, roller | fixed, fixed => true
  | _, _ => false
  end.

Definition isFixed (s : Support) : bool := SupportType_eqb (stype s) fixed.

(** Sequencing of steps that may leave finite arithmetic. *)
Definition obind {A B : Type} (a : option A) (k : A -> option B) : option B :=
  match a with
  | Some v => k v
  | None => None
  end.

Notation "v <- a ;; k" := (obind a (fun v => k))
  (at level 61, a at next level, right associativity).
Notation "' p <- a ;; k" := (obind a (fun p => k))
  (at level 61, p pattern, a at next level, right associativity).

(** A [for] loop over the indices [idx] whose body may fail. *)
Fixpoint forM {S : Type} (body : S -> nat -> option S) (idx : list nat) (s : S)
    : option S :=
  match idx with
  | [] => Some s
  | i :: rest => s' <- body s i ;; forM body rest s'
  end.

(** [arr[k]] at a computed index: [None] for [undefined]. *)
Definition arrayAt (arr : list Q) (k : Z) : option Q :=
  if (k <? 0)%Z then None else nth_error arr (Z.to_nat k).

(** [arr.push(a)] *)
Definition push {A : Type} (arr : list A) (a : A) : list A := List.app arr [a].

(** [a ?? d] *)
Definition orElse (a : option Q) (d : Q) : Q :=
  match a with
  | Some v => v
  | None => d
  end.

(** [obj[k] = v] on an object kept as its list of entries. *)
Fixpoint setProp (k : string) (v : Reaction) (o : Reactions) : Reactions :=
  match o with
  | [] => [(k, v)]
  | (k', v') :: rest =>
      if String.eqb k' k then (k', v) :: rest else (k', v') :: setProp k v rest
  end.

Section Solver.

(** [Number.prototype.toFixed] is the runtime's: a parameter here.  So are
    [Number.prototype.toExponential] and the conversion of a number to a
    string inside a template literal. *)
Variable toFixed : xnum -> nat -> string.
Variable toExponential : Q -> nat -> string.
Variable numberToString : Q -> string.

Local Open Scope string_scope.

Definition displayForce (val : xnum) (u : UnitSystem) : string :=
  match u with
  | kNm => toFixed (xscale val (1 / 1000)) 3 ++ " kN"
  | Imperial => toFixed (xscale val (2248 # 10000)) 3 ++ " lbf"
  | SI => toFixed val 2 ++ " N"
  end.

Definition displayMoment (val : xnum) (u : UnitSystem) : string :=
  match u with
  | kNm => toFixed (xscale val (1 / 1000)) 3 ++ " kN·m"
  | Imperial => toFixed (xscale val (7376 # 10000)) 3 ++ " lbf·ft"
  | SI => toFixed val 2 ++ " N·m"
  end.

Definition displayDeflection (val : xnum) (u : UnitSystem) : string :=
  match u with
  | Imperial => toFixed (xscale val (393701 # 10000)) 4 ++ " in"
  | _ => toFixed (xscale val 1000) 3 ++ " mm"
  end.

Definition displayStress (val : xnum) (u : UnitSystem) : string :=
  match u with
  | kNm => toFixed (xscale val (1 / 1000000)) 3 ++ " MPa"
  | Imperial => toFixed (xscale val (145 # 1000000)) 3 ++ " psi"
  | SI => toFixed val 2 ++ " Pa"
  end.

Definition displayLength (val : xnum) (u : UnitSystem) : string :=
  match u with
  | Imperial => toFixed (xscale val (328084 # 100000)) 3 ++ " ft"
  | _ => toFixed val 3 ++ " m"
  end.

(** [displayStressRaw(val, system)] of the solver, called with
    [beam.units.system]. *)
Definition displayStressRaw (val : xnum) (system : UnitSystem) : string :=
  match system with
  | kNm => toFixed (xscale val (1 / 1000000)) 3 ++ " MPa"
  | Imperial => toFixed (xscale val (145 # 1000000)) 3 ++ " psi"
  | SI => toFixed val 2 ++ " Pa"
  end.

(** ** [computeChartInference] *)

(** The loop variables [maxVal], [maxPos], [minVal], [minPos],
    [zeroCrossings]. *)
Record Scan : Type := {
  maxVal : xnum;
  maxPos : Q;
  minVal : xnum;
  minPos : Q;
  crossings : list Q
}.

Definition scan0 : Scan :=
  {| maxVal := MinusInfinity; maxPos := 0; minVal := PlusInfinity; minPos := 0;
     crossings := [] |}.

(** The test of line 23 and the position pushed at line 25. *)
Definition crosses (prev v : Q) : bool :=
  (Qltb prev 0 && Qgeb v 0) || (Qgtb prev 0 && Qleb v 0).

Definition crossingAt (p d : Sample) : Q :=
  let frac := Math_abs (value p) / (Math_abs (value p) + Math_abs (value d)) in
  x p + frac * (x d - x p).

Definition dummy : Sample := {| x := 0; value := 0 |}.

(** One iteration of the loop, at index [i < data.length]. *)
Definition scanStep (data : list Sample) (st : Scan) (i : nat) : Scan :=
  let d := nth i data dummy in
  let st1 :=
    if gt_x (value d) (maxVal st)
    then {| maxVal := Finite (value d); maxPos := x d; minVal := minVal st;
            minPos := minPos st; crossings := crossings st |}
    else st in
  let st2 :=
    if lt_x (value d) (minVal st1)
    then {| maxVal := maxVal st1; maxPos := maxPos st1;
            minVal := Finite (value d); minPos := x d;
            crossings := crossings st1 |}
    else st1 in
  if (0 <? i)%nat then
    let p := nth (i - 1) data dummy in
    if crosses (value p) (value d)
    then {| maxVal := maxVal st2; maxPos := maxPos st2; minVal := minVal st2;
            minPos := minPos st2;
            crossings := push (crossings st2) (crossingAt p d) |}
    else st2
  else st2.

Definition scan (data : list Sample) : Scan :=
  fold_left (scanStep data) (seq 0 (List.length data)) scan0.

(** [zs.map(z => z.toFixed(2)).join(', ')] *)
Definition joinFixed (zs : list Q) : string :=
  String.concat ", " (map (fun z => toFixed (Finite z) 2) zs).

Definition computeChartInference (data : list Sample) (label : string)
    (formatFn : xnum -> string) : ChartInference :=
  let st := scan data in
  let summary :=
    "Maximum " ++ label ++ ": " ++ formatFn (maxVal st) ++ " at x = "
      ++ toFixed (Finite (maxPos st)) 2 ++ " m. "
      ++ "Minimum: " ++ formatFn (minVal st) ++ " at x = "
      ++ toFixed (Finite (minPos st)) 2 ++ " m. "
      ++ (if (0 <? List.length (crossings st))%nat
          then "Zero crossings at x = " ++ joinFixed (crossings st) ++ " m."
          else "No zero crossings.") in
  {| maxValue := maxVal st; maxPosition := maxPos st;
     minValue := minVal st; minPosition := minPos st;
     zeroCrossings := crossings st; summary := summary |}.

(** ** Reaction solver *)

Definition nl : string := String (Ascii.ascii_of_nat 10) EmptyString.
Definition fix2 (q : Q) : string := toFixed (Finite q) 2.

(** [lines.join('\n')] *)
Definition joinLines (lines : list string) : string := String.concat nl lines.

(** The accumulators [sumFy], [sumM], [eqLines] of [getTotalLoads]. *)
Record Totals : Type := { sumFy : Q; sumM : Q; eqLines : list string }.

(** The centroid offset of a UVL of span [L] and end intensities [w1], [w2]
    (lines 387-388). *)
Definition xcLocal (L w1 w2 : Q) : Q :=
  let denom := w1 + w2 in
  if Qgtb denom tol_denom then (L / 3) * ((w1 + 2 * w2) / denom) else L / 2.

(** The body of [loads.forEach] in [getTotalLoads]. *)
Definition addLoad (fixedPos : Q) (t : Totals) (load : Load) : Totals :=
  match type load with
  | point =>
      {| sumFy := sumFy t + magnitude load;
         sumM := sumM t + magnitude load * (position load - fixedPos);
         eqLines := push (eqLines t)
           ("Point: F=" ++ fix2 (magnitude load) ++ "N @ x="
              ++ fix2 (position load) ++ "m → M about A = "
              ++ fix2 (magnitude load * (position load - fixedPos))
              ++ " N·m") |}
  | udl =>
      let L := orElse (endPosition load) (position load) - position load in
      let P := magnitude load * L in
      let cen := position load + L / 2 in
      {| sumFy := sumFy t + P;
         sumM := sumM t + P * (cen - fixedPos);
         eqLines := push (eqLines t)
           ("UDL: P=" ++ fix2 P ++ "N (centroid @ " ++ fix2 cen ++ "m) → M = "
              ++ fix2 (P * (cen - fixedPos)) ++ " N·m") |}
  | uvl =>
      let L := orElse (endPosition load) (position load) - position load in
      let w1 := magnitude load in
      let w2 := orElse (endMagnitude load) 0 in
      if Qgtb L 0 then
        let P := ((w1 + w2) / 2) * L in
        let cen := position load + xcLocal L w1 w2 in
        {| sumFy := sumFy t + P;
           sumM := sumM t + P * (cen - fixedPos);
           eqLines := push (eqLines t)
           ("UVL: P=" ++ fix2 P ++ "N (centroid @ " ++ fix2 cen
                ++ "m) → M = " ++ fix2 (P * (cen - fixedPos)) ++ " N·m") |}
      else t
  | moment =>
      {| sumFy := sumFy t;
         sumM := sumM t + magnitude load;
         eqLines := push (eqLines t)
           ("Moment: M=" ++ fix2 (magnitude load) ++ " N·m applied") |}
  | torque => t
  end.

Definition totals0 : Totals := {| sumFy := 0; sumM := 0; eqLines := [] |}.

(** [getTotalLoads(loads, fixedPos, steps)]: the two sums, and [steps] after
    the push of the note "2a". *)
Definition getTotalLoads (loads : list Load) (fixedPos : Q)
    (steps : list SolverStep) : (Q * Q) * list SolverStep :=
  let t := fold_left (addLoad fixedPos) loads totals0 in
  ((sumFy t, sumM t),
   push steps
     {| title := "2a. Load Resultants";
         description :=
           "Converting distributed loads to equivalent point loads:" ++ nl
             ++ joinLines (eqLines t);
         equations := Some (eqLines t);
         result := None |}).

(** [[...supports].sort((a, b) => a.position - b.position)]: the sort is
    stable, so a support goes before the later ones of equal position. *)
Fixpoint insertByPosition (s : Support) (l : list Support) : list Support :=
  match l with
  | [] => [s]
  | s' :: rest =>
      if Qleb (sposition s) (sposition s') then s :: s' :: rest
      else s' :: insertByPosition s rest
  end.

Definition sortByPosition (l : list Support) : list Support :=
  fold_right insertByPosition [] l.

Definition cantileverStep (fixedPosition Ry Mz_ : Q) : SolverStep :=
  {| title := "2b. Reactions — Cantilever";
     description :=
       "For a cantilever fixed at x = " ++ fix2 fixedPosition ++ " m:" ++ nl
         ++ nl
         ++ "  ΣFᵧ = 0  →  R_y = ΣF_loads = " ++ fix2 Ry ++ " N (upward)" ++ nl
         ++ "  ΣM_A = 0 →  M_z = ΣM_loads = " ++ fix2 Mz_
         ++ " N·m (at fixed end)";
     equations := Some
       ["ΣFᵧ = 0: R_A = " ++ fix2 Ry ++ " N";
        "ΣM_A = 0: M_A = " ++ fix2 Mz_ ++ " N·m"];
     result := Some
       ("R_A = " ++ fix2 Ry ++ " N ↑,  M_A = " ++ fix2 Mz_ ++ " N·m") |}.

Definition simplySupportedStep (p1 p2 L sFy sM R_s1 R_s2 : Q) : SolverStep :=
  {| title := "2b. Reactions — Simply Supported";
     description :=
       "Supports at A (x=" ++ fix2 p1 ++ " m) and B (x=" ++ fix2 p2
         ++ " m), span L = " ++ fix2 L ++ " m." ++ nl ++ nl
         ++ "  ΣM_A = 0:" ++ nl
         ++ "    R_B × L = ΣM_about_A" ++ nl
         ++ "    R_B = " ++ fix2 sM ++ " / " ++ fix2 L ++ " = " ++ fix2 R_s2
         ++ " N" ++ nl ++ nl
         ++ "  ΣFᵧ = 0:" ++ nl
         ++ "    R_A = ΣF − R_B = " ++ fix2 sFy ++ " − " ++ fix2 R_s2 ++ " = "
         ++ fix2 R_s1 ++ " N";
     equations := Some
       ["ΣM_A = 0: R_B = " ++ fix2 sM ++ " / " ++ fix2 L ++ " = "
          ++ fix2 R_s2 ++ " N";
        "ΣFᵧ = 0: R_A = " ++ fix2 R_s1 ++ " N"];
     result := Some
       ("R_A = " ++ fix2 R_s1 ++ " N ↑,  R_B = " ++ fix2 R_s2 ++ " N ↑") |}.

Definition unableToSolveStep : SolverStep :=
  {| title := "2b. Reactions — Unable to Solve";
     description :=
       "Need at least 2 supports (or 1 fixed) to solve reactions. Check configuration.";
     equations := None;
     result := None |}.

(** [solveReactions(beam, steps)]: the reactions and [steps] after the
    pushes; [None] when [sumM / L] divides by zero. *)
Definition solveReactions (beam : BeamConfig) (steps : list SolverStep)
    : option (Reactions * list SolverStep) :=
  let sorted := sortByPosition (supports beam) in
  match find isFixed sorted with
  | Some fixedSup =>
      let '((sFy, sM), steps1) :=
        getTotalLoads (loads beam) (sposition fixedSup) steps in
      let Ry := sFy in
      let Mz_ := sM in
      Some (setProp (sid fixedSup) {| Fy := Ry; Mz := Some Mz_ |} [],
            push steps1 (cantileverStep (sposition fixedSup) Ry Mz_))
  | None =>
      match sorted with
      | [s1; s2] =>
          let L := sposition s2 - sposition s1 in
          let '((sFy, sM), steps1) :=
            getTotalLoads (loads beam) (sposition s1) steps in
          match jsdiv sM L with
          | Some R_s2 =>
              let R_s1 := sFy - R_s2 in
              Some (setProp (sid s2) {| Fy := R_s2; Mz := None |}
                      (setProp (sid s1) {| Fy := R_s1; Mz := None |} []),
                    push steps1
                      (simplySupportedStep (sposition s1) (sposition s2) L
                         sFy sM R_s1 R_s2))
          | None => None
          end
      | _ => Some ([], push steps unableToSolveStep)
      end
  end.

(** ** [solveBeam] *)

Definition classifyBeam (beam : BeamConfig) : string :=
  match find isFixed (supports beam) with
  | Some _ => "Cantilever Beam"
  | None =>
      if (List.length (supports beam) =? 2)%nat then "Simply Supported Beam"
      else "Beam (unsupported / indeterminate)"
  end.

(** The callback of [Object.entries(reactions).forEach] (lines 88-97). *)
Definition addReaction (beam : BeamConfig) (allLoads : list Load)
    (entry : string * Reaction) : list Load :=
  let '(supId, reac) := entry in
  match find (fun s => String.eqb (sid s) supId) (supports beam) with
  | None => allLoads
  | Some sup =>
      let l1 :=
        if Qgtb (Math_abs (Fy reac)) tol_reaction
        then push allLoads
               {| id := "reac-" ++ supId ++ "-y"; type := point;
                  position := sposition sup; magnitude := - Fy reac;
                  endMagnitude := None; endPosition := None |}
        else allLoads in
      match Mz reac with
      | Some m =>
          if Qgtb (Math_abs m) tol_reaction
          then push l1
                 {| id := "reac-" ++ supId ++ "-m"; type := moment;
                    position := sposition sup; magnitude := - m;
                    endMagnitude := None; endPosition := None |}
          else l1
      | None => l1
      end
  end.

Definition effectiveLoads (beam : BeamConfig) (reactions : Reactions)
    : list Load :=
  fold_left (addReaction beam) reactions (loads beam).

Definition points : nat := 500.
Definition Qpoints : Q := inject_Z (Z.of_nat points).
Definition stepLength (beam : BeamConfig) : Q := length beam / Qpoints.

(** [i * dx] *)
Definition station (dx : Q) (i : nat) : Q := inject_Z (Z.of_nat i) * dx.

(** The callback of [allLoads.forEach] at the cut [xs] (lines 110-145); the
    accumulator is [(V, M_val)]. *)
Definition cutEffect (beamLength xs : Q) (acc : Q * Q) (load : Load) : Q * Q :=
  let '(V, M_val) := acc in
  match type load with
  | point =>
      if Qgeb xs (position load) then
        let F := - magnitude load in
        (V + F, M_val + F * (xs - position load))
      else acc
  | moment =>
      if Qgeb xs (position load) then (V, M_val + - magnitude load) else acc
  | udl =>
      let a := position load in
      let b := orElse (endPosition load) beamLength in
      if Qgeb xs a then
        let x_eff := Math_min xs b in
        let eff_len := x_eff - a in
        let P := magnitude load * eff_len in
        (V + - P, M_val + - P * (xs - (a + eff_len / 2)))
      else acc
  | uvl =>
      let a := position load in
      let b := orElse (endPosition load) beamLength in
      let w1 := magnitude load in
      let w2 := orElse (endMagnitude load) 0 in
      let L_load := b - a in
      if Qgeb xs a && Qgtb L_load 0 then
        let x_eff := Math_min xs b in
        let u_loc := x_eff - a in
        let w_x := w1 + (w2 - w1) * (u_loc / L_load) in
        let P := ((w1 + w_x) / 2) * u_loc in
        let x_c_from_a := xcLocal u_loc w1 w_x in
        (V + - P, M_val + - P * (xs - (a + x_c_from_a)))
      else acc
  | torque => acc
  end.

Definition cutForces (beamLength : Q) (allLoads : list Load) (xs : Q) : Q * Q :=
  fold_left (cutEffect beamLength xs) allLoads (0, 0).

(** The arrays [shearForce], [bendingMoment] and the scalars [maxSF],
    [maxBM] of the loop of lines 106-151. *)
Record Forces : Type := {
  shearArr : list Sample;
  momentArr : list Sample;
  maxSF : Q;
  maxBM : Q
}.

Definition forces0 : Forces :=
  {| shearArr := []; momentArr := []; maxSF := 0; maxBM := 0 |}.

Definition forcesStep (beamLength dx : Q) (allLoads : list Load) (f : Forces)
    (i : nat) : Forces :=
  let xs := station dx i in
  let '(V, M_val) := cutForces beamLength allLoads xs in
  {| shearArr := push (shearArr f) {| x := xs; value := V |};
     momentArr := push (momentArr f) {| x := xs; value := M_val |};
     maxSF := if Qgtb (Math_abs V) (maxSF f) then Math_abs V else maxSF f;
     maxBM := if Qgtb (Math_abs M_val) (maxBM f) then Math_abs M_val
              else maxBM f |}.

Definition internalForces (beam : BeamConfig) (allLoads : list Load) : Forces :=
  fold_left (forcesStep (length beam) (stepLength beam) allLoads)
    (seq 0 (points + 1)) forces0.

(** Line 186. *)
Definition bendingStress (beam : BeamConfig) (maxBM_ : Q) : option Q :=
  jsdiv (maxBM_ * (depth beam / 2)) (I beam).

(** *** Torsion (lines 205-241) *)

Definition isTorque (l : Load) : bool :=
  match type l with
  | torque => true
  | _ => false
  end.

Definition torqueLoadsOf (beam : BeamConfig) : list Load :=
  filter isTorque (loads beam).

Definition reactionTorque (beam : BeamConfig) (torqueLoads : list Load) : Q :=
  match find (fun s => isFixed s && Qeq_bool (sposition s) 0) (supports beam) with
  | Some _ => - fold_left (fun acc l => acc + magnitude l) torqueLoads 0
  | None => 0
  end.

(** [T] after line 234. *)
Definition internalTorque (Tx_react : Q) (torqueLoads : list Load) (xs : Q) : Q :=
  fold_left (fun T l => if Qgeb xs (position l) then T + magnitude l else T)
    torqueLoads Tx_react.

Record Twist : Type := {
  phi : Q;
  twistArr : list Sample;
  maxTwist : Q
}.

Definition twist0 : Twist := {| phi := 0; twistArr := []; maxTwist := 0 |}.

Definition twistStep (Tx_react GJ dx : Q) (torqueLoads : list Load) (t : Twist)
    (i : nat) : option Twist :=
  let xs := station dx i in
  let T := internalTorque Tx_react torqueLoads xs in
  phi' <- (if (0 <? i)%nat
           then q <- jsdiv T GJ ;; Some (phi t + q * dx)
           else Some (phi t)) ;;
  Some {| phi := phi';
          twistArr := push (twistArr t) {| x := xs; value := phi' |};
          maxTwist := if Qgtb (Math_abs phi') (maxTwist t) then Math_abs phi'
                      else maxTwist t |}.

Definition zeroSeries (dx : Q) : list Sample :=
  fold_left (fun arr i => push arr {| x := station dx i; value := 0 |})
    (seq 0 (points + 1)) [].

(** The pair is [(angleOfTwist, maxAngleOfTwist)]. *)
Definition torsion (beam : BeamConfig) : option (list Sample * Q) :=
  let torqueLoads := torqueLoadsOf beam in
  let dx := stepLength beam in
  if (0 <? List.length torqueLoads)%nat then
    let Tx_react := reactionTorque beam torqueLoads in
    let GJ := G beam * J beam in
    t <- forM (twistStep Tx_react GJ dx torqueLoads) (seq 0 (points + 1)) twist0 ;;
    Some (twistArr t, maxTwist t)
  else Some (zeroSeries dx, 0).

(** *** Slope and deflection (lines 261-315) *)

(** The loop of lines 262-266, 279-283 and 293-297: [arr = [0]], then
    [arr.push(arr[i] + ((f i + f (i+1)) / 2) * dx)] for [i < points]. *)
Definition runningIntegral (f : nat -> Q) (dx : Q) : list Q :=
  fold_left
    (fun arr i => push arr (nth i arr 0 + ((f i + f (i + 1)%nat) / 2) * dx))
    (seq 0 points) [0].

Definition slopeIntegral (bendingMoment : list Sample) (dx : Q) : list Q :=
  runningIntegral (fun i => value (nth i bendingMoment dummy)) dx.

Definition deflectionIntegral (slopeEI : list Q) (dx : Q) : list Q :=
  runningIntegral (fun i => nth i slopeEI 0) dx.

(** [Math.round((position / beam.length) * points)] *)
Definition stationIndex (beam : BeamConfig) (pos : Q) : option Z :=
  r <- jsdiv pos (length beam) ;;
  Some (Math_round (r * Qpoints)).

(** [C1], [C2] of the branch of a fixed support (lines 277-284). *)
Definition fixedConstants (beam : BeamConfig) (fixedSupport : Support)
    (slopeEI D_partial : list Q) : option (Q * Q) :=
  fixedIndex <- stationIndex beam (sposition fixedSupport) ;;
  s_k <- arrayAt slopeEI fixedIndex ;;
  let C1 := - s_k in
  d_k <- arrayAt D_partial fixedIndex ;;
  let C2 := - d_k - C1 * sposition fixedSupport in
  Some (C1, C2).

(** [C1], [C2] of the branch of two supports (lines 298-302). *)
Definition simpleConstants (beam : BeamConfig) (sA sB : Support)
    (D_partial : list Q) : option (Q * Q) :=
  idxA <- stationIndex beam (sposition sA) ;;
  idxB <- stationIndex beam (sposition sB) ;;
  let posA := sposition sA in
  let posB := sposition sB in
  d_b <- arrayAt D_partial idxB ;;
  d_a <- arrayAt D_partial idxA ;;
  C1 <- jsdiv (- (d_b - d_a)) (posB - posA) ;;
  let C2 := - d_a - C1 * posA in
  Some (C1, C2).

Record Defl : Type := {
  slopeArr : list Sample;
  deflArr : list Sample;
  maxDef : Q
}.

Definition defl0 : Defl := {| slopeArr := []; deflArr := []; maxDef := 0 |}.

(** The body of the loops of lines 285-291 and 303-309. *)
Definition fillStep (slopeEI D_partial : list Q) (C1 C2 EI dx : Q) (d : Defl)
    (i : nat) : option Defl :=
  let xs := station dx i in
  sv <- jsdiv (nth i slopeEI 0 + C1) EI ;;
  defVal <- jsdiv (nth i D_partial 0 + C1 * xs + C2) EI ;;
  Some {| slopeArr := push (slopeArr d) {| x := xs; value := sv |};
          deflArr := push (deflArr d) {| x := xs; value := defVal |};
          maxDef := if Qgtb (Math_abs defVal) (maxDef d) then Math_abs defVal
                    else maxDef d |}.

Definition deflectionOf (beam : BeamConfig) (bendingMoment : list Sample)
    : option Defl :=
  let dx := stepLength beam in
  let slopeEI := slopeIntegral bendingMoment dx in
  let fixedSupport := find isFixed (supports beam) in
  let sortedSupports := sortByPosition (supports beam) in
  let EI := E beam * I beam in
  match fixedSupport with
  | Some fs =>
      let D_partial := deflectionIntegral slopeEI dx in
      ' (C1, C2) <- fixedConstants beam fs slopeEI D_partial ;;
      forM (fillStep slopeEI D_partial C1 C2 EI dx) (seq 0 (points + 1)) defl0
  | None =>
      match sortedSupports with
      | sA :: sB :: _ =>
          let D_partial := deflectionIntegral slopeEI dx in
          ' (C1, C2) <- simpleConstants beam sA sB D_partial ;;
          forM (fillStep slopeEI D_partial C1 C2 EI dx) (seq 0 (points + 1))
            defl0
      | _ =>
          Some {| slopeArr := zeroSeries dx; deflArr := zeroSeries dx;
                  maxDef := 0 |}
      end
  end.

(** *** The narrative steps of [solveBeam] *)

(** The literal [1e9]. *)
Definition giga : Q := 1000000000.

(** Step 0 (lines 45-58). *)
Definition setupStep (beam : BeamConfig) : SolverStep :=
  {| title := "0. Problem Setup";
     description :=
       "Beam length L = " ++ numberToString (length beam) ++ " m." ++ nl
       ++ "Material: E = " ++ toFixed (Finite (E beam / giga)) 0
       ++ " GPa, G = " ++ toFixed (Finite (G beam / giga)) 0 ++ " GPa." ++ nl
       ++ "Section: I = " ++ toExponential (I beam) 2 ++ " m⁴, J = "
       ++ toExponential (J beam) 2 ++ " m⁴, depth = "
       ++ numberToString (depth beam) ++ " m." ++ nl ++ "Gravity: g = "
       ++ numberToString (gravity beam) ++ " m/s².";
     equations :=
       Some ["L = " ++ numberToString (length beam) ++ " m";
        "E = " ++ toExponential (E beam) 2 ++ " Pa";
        "I = " ++ toExponential (I beam) 2 ++ " m⁴"];
     result := Some ("Beam classified as: " ++ classifyBeam beam) |}.

(** The callback of [beam.loads.map] of lines 61-68. *)
Definition loadLine (beam : BeamConfig) (l : Load) : string :=
  match type l with
  | point =>
       "  • Point Load: P = "
       ++ displayForce (Finite (magnitude l)) (units beam) ++ " at x = "
       ++ displayLength (Finite (position l)) (units beam)
  | udl =>
       "  • UDL: w = " ++ numberToString (magnitude l) ++ " N/m from x = "
       ++ displayLength (Finite (position l)) (units beam) ++ " to "
       ++ displayLength (Finite (orElse (endPosition l) (length beam))) (units beam)
  | uvl =>
       "  • UVL: w₁ = " ++ numberToString (magnitude l) ++ " N/m → w₂ = "
       ++ numberToString (orElse (endMagnitude l) 0) ++ " N/m from x = "
       ++ displayLength (Finite (position l)) (units beam) ++ " to "
       ++ displayLength (Finite (orElse (endPosition l) (length beam))) (units beam)
  | moment =>
       "  • Applied Moment: M = "
       ++ displayMoment (Finite (magnitude l)) (units beam) ++ " at x = "
       ++ displayLength (Finite (position l)) (units beam)
  | torque =>
       "  • Torque: T = " ++ displayMoment (Finite (magnitude l)) (units beam)
       ++ " at x = " ++ displayLength (Finite (position l)) (units beam)
  end.

(** The callback of the second [beam.loads.map] (lines 72-79). *)
Definition loadEquation (beam : BeamConfig) (l : Load) : string :=
  match type l with
  | point =>
       "P = " ++ fix2 (magnitude l) ++ " N @ x=" ++ fix2 (position l) ++ " m"
  | udl =>
       "w = " ++ fix2 (magnitude l) ++ " N/m [" ++ fix2 (position l) ++ " → "
       ++ fix2 (orElse (endPosition l) (length beam)) ++ " m]"
  | uvl =>
       "w(x) = " ++ fix2 (magnitude l) ++ " + "
       ++ fix2 (orElse (endMagnitude l) 0 - magnitude l) ++ "·(x−"
       ++ fix2 (position l) ++ ")/"
       ++ fix2 (orElse (endPosition l) (length beam) - position l) ++ " N/m"
  | _ =>
       "M = " ++ fix2 (magnitude l) ++ " N·m @ x=" ++ fix2 (position l)
       ++ " m"
  end.

(** Step 1 (lines 69-80). *)
Definition loadsStep (beam : BeamConfig) : SolverStep :=
  {| title := "1. Applied Loads";
     description :=
       numberToString (inject_Z (Z.of_nat (List.length (loads beam))))
       ++ " load(s) applied:" ++ nl
       ++ joinLines (map (loadLine beam) (loads beam));
     equations := Some (map (loadEquation beam) (loads beam));
     result := None |}.

(** Step 3 (lines 153-168). *)
Definition shearStep (beam : BeamConfig) (maxSF_ : Q) : SolverStep :=
  {| title := "3. Shear Force Diagram (SFD)";
     description :=
       "The Shear Force V(x) is computed by summing all vertical forces to the LEFT of a section cut at position x:"
       ++ nl ++ nl
       ++ "  V(x) = Σ [Reaction forces to left of x] − Σ [Applied loads to left of x]"
       ++ nl ++ nl ++ "For each load type:" ++ nl
       ++ "  • Point Load P at a: V jumps by +P (upward) or −P (downward)"
       ++ nl ++ "  • UDL w [a,b]: V decreases linearly at rate w N/m" ++ nl
       ++ "  • UVL w₁→w₂ [a,b]: V decreases parabolically" ++ nl ++ nl
       ++ "Maximum |V| = " ++ displayForce (Finite maxSF_) (units beam);
     equations :=
       Some ["V(x) = ΣFᵧ(left of x)";
        "For UDL: V(x) = V₀ − w·(x−a)";
        "|V|_max = " ++ fix2 maxSF_ ++ " N"];
     result :=
       Some ("SFD computed over "
       ++ numberToString (inject_Z (Z.of_nat (points + 1)))
       ++ " points, dx = " ++ toFixed (Finite (stepLength beam)) 4 ++ " m") |}.

(** Step 4 (lines 170-183). *)
Definition momentStep (beam : BeamConfig) (maxBM_ : Q) : SolverStep :=
  {| title := "4. Bending Moment Diagram (BMD)";
     description :=
       "The Bending Moment M(x) is computed by taking moments of all forces to the LEFT of section cut x:"
       ++ nl ++ nl ++ "  M(x) = Σ [Reaction moments] + Σ [Force × lever arm]"
       ++ nl ++ nl
       ++ "Convention: Sagging moment (bottom tension) = Positive." ++ nl
       ++ nl ++ "Maximum |M| = " ++ displayMoment (Finite maxBM_) (units beam)
       ++ nl
       ++ "Location of max moment is at x where V = 0 (shear changes sign).";
     equations :=
       Some ["M(x) = Σ Fᵢ·(x − xᵢ)  [for all forces left of x]";
        "dM/dx = V(x)  ←→  M = ∫V dx";
        "|M|_max = " ++ fix2 maxBM_ ++ " N·m"];
     result := Some "BMD computed simultaneously with SFD" |}.

(** Step 5 (lines 188-202). *)
Definition stressStep (beam : BeamConfig) (maxBM_ maxStress_ : Q)
    : SolverStep :=
  {| title := "5. Bending Stress";
     description :=
       "Using the flexure formula σ = M·y / I:" ++ nl ++ nl
       ++ "  y (distance from neutral axis) = depth/2 = "
       ++ toFixed (Finite (depth beam / 2)) 3 ++ " m" ++ nl ++ "  M_max = "
       ++ displayMoment (Finite maxBM_) (units beam) ++ nl ++ "  I = "
       ++ toExponential (I beam) 3 ++ " m⁴" ++ nl ++ nl
       ++ "  σ_max = M_max × y / I" ++ nl ++ "  σ_max = " ++ fix2 maxBM_
       ++ " × " ++ toFixed (Finite (depth beam / 2)) 3 ++ " / "
       ++ toExponential (I beam) 3;
     equations :=
       Some ["σ = M·y / I  (Flexure Formula)";
        "σ_max = " ++ fix2 maxBM_ ++ " × "
          ++ toFixed (Finite (depth beam / 2)) 3 ++ " / "
          ++ toExponential (I beam) 2;
        "σ_max = " ++ displayStressRaw (Finite maxStress_) (units beam)];
     result :=
       Some ("Maximum bending stress = "
       ++ displayStressRaw (Finite maxStress_) (units beam)) |}.

(** Step 6 (lines 218-229), pushed when there are torque loads. *)
Definition torsionStep (beam : BeamConfig) : SolverStep :=
  {| title := "6. Torsion & Angle of Twist";
     description :=
       "Torque loads detected. Angle of twist φ(x) computed by integrating T(x)/(GJ):"
       ++ nl ++ nl ++ "  G = " ++ toFixed (Finite (G beam / giga)) 0
       ++ " GPa, J = " ++ toExponential (J beam) 3 ++ " m⁴" ++ nl ++ "  GJ = "
       ++ toExponential (G beam * J beam) 3 ++ " N·m²" ++ nl ++ nl
       ++ "  φ(x) = ∫₀ˣ T(ξ)/(GJ) dξ";
     equations :=
       Some ["φ(x) = ∫₀ˣ T/(GJ) dξ";
        "GJ = " ++ toExponential (G beam * J beam) 3 ++ " N·m²"];
     result := None |}.

(** Step 7 (lines 243-259). *)
Definition deflectionStep (beam : BeamConfig) : SolverStep :=
  {| title := "7. Slope & Deflection";
     description :=
       "Deflection y(x) is computed by double integration of the curvature equation:"
       ++ nl ++ nl
       ++ "  EI·d²y/dx² = M(x)   → First integration → Slope θ(x) = dy/dx"
       ++ nl
       ++ "                       → Second integration → Deflection y(x)"
       ++ nl ++ nl ++ "Boundary conditions applied:" ++ nl
       ++ match find isFixed (supports beam) with
          | Some _ => "  • Fixed support: y = 0, θ = 0 at fixed end"
          | None => "  • Simply supported: y = 0 at both support positions"
          end;
     equations :=
       Some ["EI·d²y/dx² = M(x)";
        "EI·θ(x) = ∫M(x)dx + C₁";
        "EI·y(x) = ∫∫M(x)dx² + C₁·x + C₂";
        "BCs determine C₁ and C₂"];
     result := None |}.

(** Step 8 (lines 318-325). *)
Definition maxDeflectionStep (beam : BeamConfig) (maxDef_ : Q) : SolverStep :=
  {| title := "8. Maximum Deflection";
     description :=
       "The maximum deflection occurs where slope θ(x) = 0 (or at beam end for cantilever)."
       ++ nl ++ nl ++ "  δ_max = "
       ++ displayDeflection (Finite maxDef_) (units beam) ++ nl ++ nl
       ++ "This is the greatest transverse displacement of the beam's neutral axis.";
     equations := Some ["δ_max = " ++ toFixed (Finite (maxDef_ * 1000)) 4 ++ " mm"];
     result :=
       Some ("Maximum deflection = "
       ++ displayDeflection (Finite maxDef_) (units beam)) |}.

(** *** The result *)

(** A field is [None] when the model does not determine it: an unguarded
    quotient by zero or an array read outside its bounds lies on the data
    flow to the field, and the code holds [NaN] or an infinity in it or in
    a number it is computed from.  Every other field is what the code
    computes, whatever happens in the stages the field does not depend
    on. *)
Record AnalysisResult : Type := {
  reactions : option Reactions;
  shearForce : option (list Sample);
  bendingMoment : option (list Sample);
  slope : option (list Sample);
  deflection : option (list Sample);
  angleOfTwist : option (list Sample);
  maxShearForce : option Q;
  maxBendingMoment : option Q;
  maxDeflection : option Q;
  maxStress : option Q;
  maxAngleOfTwist : option Q;
  hasTorsion : bool;
  steps : option (list SolverStep);
  sfInference : option ChartInference;
  bmInference : option ChartInference;
  deflectionInference : option ChartInference
}.

(** [solveBeam(beam)].  The stages are the reactions [rs] (with the log
    after the notes of the reaction solver), the shear and moment loop
    [fs], the stress, the torsion loop [tw] and the double integration
    [d].  The log prints the reactions, [maxSF], [maxBM], the stress and
    [maxDef], and is determined when these are. *)
Definition solveBeam (beam : BeamConfig) : AnalysisResult :=
  let rs := solveReactions beam [setupStep beam; loadsStep beam] in
  let fs :=
    option_map (fun p => internalForces beam (effectiveLoads beam (fst p)))
      rs in
  let stress := f <- fs ;; bendingStress beam (maxBM f) in
  let tw := torsion beam in
  let hasTorsion_ := (0 <? List.length (torqueLoadsOf beam))%nat in
  let d := f <- fs ;; deflectionOf beam (momentArr f) in
  {| reactions := option_map fst rs;
     shearForce := option_map shearArr fs;
     bendingMoment := option_map momentArr fs;
     slope := option_map slopeArr d;
     deflection := option_map deflArr d;
     angleOfTwist := option_map fst tw;
     maxShearForce := option_map maxSF fs;
     maxBendingMoment := option_map maxBM fs;
     maxDeflection := option_map maxDef d;
     maxStress := stress;
     maxAngleOfTwist := option_map snd tw;
     hasTorsion := hasTorsion_;
     steps :=
       p <- rs ;;
       f <- fs ;;
       s <- stress ;;
       d' <- d ;;
       Some
         (List.app (snd p)
            (List.app
               [shearStep beam (maxSF f); momentStep beam (maxBM f);
                stressStep beam (maxBM f) s]
               (List.app
                  (if hasTorsion_ then [torsionStep beam] else [])
                  [deflectionStep beam;
                   maxDeflectionStep beam (maxDef d')])));
     sfInference :=
       option_map
         (fun f =>
            computeChartInference (shearArr f) "Shear Force"
              (fun v => displayForce v (units beam))) fs;
     bmInference :=
       option_map
         (fun f =>
            computeChartInference (momentArr f) "Bending Moment"
              (fun v => displayMoment v (units beam))) fs;
     deflectionInference :=
       option_map
         (fun d' =>
            computeChartInference (deflArr d') "Deflection"
              (fun v => displayDeflection v (units beam))) d |}.

End Solver.

(** ** The unit table ([types.ts]) *)

Module UnitConfig.
Record t : Type := {
  system : UnitSystem;
  length : string;
  force : string;
  moment : string;
  stress : string;
  deflection : string;
  distributed : string
}.
End UnitConfig.

Local Open Scope string_scope.

Definition UNIT_SYSTEMS (s : UnitSystem) : UnitConfig.t :=
  match s with
  | SI =>
      {| UnitConfig.system := SI; UnitConfig.length := "m";
         UnitConfig.force := "N"; UnitConfig.moment := "N·m";
         UnitConfig.stress := "Pa"; UnitConfig.deflection := "mm";
         UnitConfig.distributed := "N/m" |}
  | kNm =>
      {| UnitConfig.system := kNm; UnitConfig.length := "m";
         UnitConfig.force := "kN"; UnitConfig.moment := "kN·m";
         UnitConfig.stress := "MPa"; UnitConfig.deflection := "mm";
         UnitConfig.distributed := "kN/m" |}
  | Imperial =>
      {| UnitConfig.system := Imperial; UnitConfig.length := "ft";
         UnitConfig.force := "lbf"; UnitConfig.moment := "lbf·ft";
         UnitConfig.stress := "psi"; UnitConfig.deflection := "in";
         UnitConfig.distributed := "lbf/ft" |}
  end.

Local Close Scope string_scope.

(** [Math.max] *)
Definition Math_max (a b : Q) : Q := if Qleb a b then b else a.

(** ** The editor ([BeamDesigner.tsx]) *)

Module BeamDesigner.

Definition PAD_L : Q := 60.
Definition PAD_R : Q := 60.
Definition SNAP : Q := 5 # 100.

(** [posToX(pos, len, W)]; [None] when [len] is zero. *)
Definition posToX (pos len W : Q) : option Q :=
  r <- jsdiv pos len ;;
  Some (PAD_L + r * (W - PAD_L - PAD_R)).

(** [xToPos(x, len, W)]; [None] when [W - PAD_L - PAD_R] is zero. *)
Definition xToPos (xpix len W : Q) : option Q :=
  r <- jsdiv (xpix - PAD_L) (W - PAD_L - PAD_R) ;;
  Some (Math_max 0
          (Math_min len (inject_Z (Math_round ((r * len) / SNAP)) * SNAP))).

Inductive DragMode : Type :=
| DragSupport (dragId : string)
| DragLoadMove (dragId : string)
| DragLoadResizeStart (dragId : string)
| DragLoadResizeEnd (dragId : string).

(** [{ ...beam, supports }] and [{ ...beam, loads }] *)
Definition withSupports (beam : BeamConfig) (ss : list Support) : BeamConfig :=
  {| length := length beam; E := E beam; G := G beam; I := I beam;
     J := J beam; depth := depth beam; supports := ss; loads := loads beam;
     units := units beam; gravity := gravity beam |}.

Definition withLoads (beam : BeamConfig) (ls : list Load) : BeamConfig :=
  {| length := length beam; E := E beam; G := G beam; I := I beam;
     J := J beam; depth := depth beam; supports := supports beam; loads := ls;
     units := units beam; gravity := gravity beam |}.

(** The beam that [onMouseMove] hands to [setBeam] for the drag in progress
    and the snapped position [pos] (lines 369-386). *)
Definition dragUpdate (drag : DragMode) (beam : BeamConfig) (pos : Q)
    : BeamConfig :=
  match drag with
  | DragSupport dragId =>
      withSupports beam
        (map (fun s =>
                if String.eqb (sid s) dragId
                then {| sid := sid s; stype := stype s; sposition := pos |}
                else s)
           (supports beam))
  | DragLoadMove dragId =>
      withLoads beam
        (map (fun l =>
                if negb (String.eqb (id l) dragId) then l
                else
                  let span := orElse (endPosition l) (position l) - position l in
                  {| id := id l; type := type l; position := pos;
                     magnitude := magnitude l; endMagnitude := endMagnitude l;
                     endPosition :=
                       match endPosition l with
                       | Some _ => Some (pos + span)
                       | None => None
                       end |})
           (loads beam))
  | DragLoadResizeStart dragId =>
      withLoads beam
        (map (fun l =>
                if negb (String.eqb (id l) dragId) then l
                else
                  {| id := id l; type := type l;
                     position :=
                       Math_min pos
                         (orElse (endPosition l) (position l + 2) - (1 # 10));
                     magnitude := magnitude l; endMagnitude := endMagnitude l;
                     endPosition := endPosition l |})
           (loads beam))
  | DragLoadResizeEnd dragId =>
      withLoads beam
        (map (fun l =>
                if negb (String.eqb (id l) dragId) then l
                else
                  {| id := id l; type := type l; position := position l;
                     magnitude := magnitude l; endMagnitude := endMagnitude l;
                     endPosition :=
                       Some (Math_max pos (position l + (1 # 10))) |})
           (loads beam))
  end.

(** The beam set by the Delete / Backspace key for the selected id (lines
    392-396). *)
Definition deleteSelected (beam : BeamConfig) (selected : string) : BeamConfig :=
  let isSupp := existsb (fun s => String.eqb (sid s) selected) (supports beam) in
  if isSupp
  then withSupports beam
         (filter (fun s => negb (String.eqb (sid s) selected)) (supports beam))
  else withLoads beam
         (filter (fun l => negb (String.eqb (id l) selected)) (loads beam)).

(** [addSupport(type)] and [addLoad(type)]; [now] is the text of
    [Date.now()]. *)
Definition addSupport (beam : BeamConfig) (t : SupportType) (now : string)
    : BeamConfig :=
  withSupports beam
    (supports beam ++
       [{| sid := String.append "s" now; stype := t;
           sposition := length beam / 2 |}]).

Definition addLoad (beam : BeamConfig) (t : LoadType) (now : string)
    : BeamConfig :=
  withLoads beam
    (loads beam ++
       [{| id := String.append "l" now; type := t;
           position := length beam / 3; magnitude := 5000;
           endMagnitude := match t with uvl => Some 0 | _ => None end;
           endPosition :=
             match t with
             | udl | uvl => Some (length beam * 2 / 3)
             | _ => None
             end |}]).

(** The position committed by the inline editor of a support (line 620). *)
Definition commitSupportPosition (beam : BeamConfig) (supId : string) (v : Q)
    : BeamConfig :=
  withSupports beam
    (map (fun s =>
            if String.eqb (sid s) supId
            then {| sid := sid s; stype := stype s;
                    sposition := Math_max 0 (Math_min (length beam) v) |}
            else s)
       (supports beam)).

(** A load whose end position, when present, lies at least [0.1] past its
    start. *)
Definition spanOk (l : Load) : Prop :=
  forall e, endPosition l = Some e -> position l + (1 # 10) <= e.

(** The id that a drag acts on. *)
Definition dragged (drag : DragMode) : string :=
  match drag with
  | DragSupport i | DragLoadMove i | DragLoadResizeStart i
  | DragLoadResizeEnd i => i
  end.

(** The actions of the editor canvas, toolbar and keyboard. *)
Inductive EditorAction : Type :=
| ActDrag (drag : DragMode) (pos : Q)
| ActDelete (selected : string)
| ActAddSupport (t : SupportType) (now : string)
| ActAddLoad (t : LoadType) (now : string)
| ActCommitSupport (supId : string) (v : Q).

Definition applyAction (beam : BeamConfig) (a : EditorAction) : BeamConfig :=
  match a with
  | ActDrag drag pos => dragUpdate drag beam pos
  | ActDelete selected => deleteSelected beam selected
  | ActAddSupport t now => addSupport beam t now
  | ActAddLoad t now => addLoad beam t now
  | ActCommitSupport supId v => commitSupportPosition beam supId v
  end.

(** Every end position that is present lies strictly past the start. *)
Definition spansPositive (ls : list Load) : Prop :=
  forall l e, In l ls -> endPosition l = Some e -> position l < e.

End BeamDesigner.

(** * Vocabulary of the statements *)

(** The state of the scan of [computeChartInference] after [n] iterations. *)
Definition scanTo (data : list Sample) (n : nat) : Scan :=
  fold_left (scanStep data) (seq 0 n) scan0.

(** The station [k] holds the first maximum among the first [n] stations. *)
Definition firstMax (data : list Sample) (n k : nat) : Prop :=
  (k < n)%nat /\
  (forall j, (j < n)%nat ->
     value (nth j data dummy) <= value (nth k data dummy)) /\
  (forall j, (j < k)%nat ->
     value (nth j data dummy) < value (nth k data dummy)).

Definition firstMin (data : list Sample) (n k : nat) : Prop :=
  (k < n)%nat /\
  (forall j, (j < n)%nat ->
     value (nth k data dummy) <= value (nth j data dummy)) /\
  (forall j, (j < k)%nat ->
     value (nth k data dummy) < value (nth j data dummy)).

(** The pair [(a, b)] of consecutive values starts strictly off zero and
    reaches zero or the opposite sign. *)
Definition signChange (a b : Q) : Prop :=
  ~ a == 0 /\ (b == 0 \/ (a < 0 /\ 0 < b) \/ (0 < a /\ b < 0)).

(** The pair leaves an exact zero. *)
Definition leavesZero (a b : Q) : Prop := a == 0 /\ ~ b == 0.

(** What the scan pushes for the pair of stations [i], [i+1]. *)
Definition recordedAt (data : list Sample) (i : nat) : list Q :=
  let p := nth i data dummy in
  let d := nth (S i) data dummy in
  if crosses (value p) (value d) then [crossingAt p d] else [].

(** The magnitude-weighted interpolation of the crossing position. *)
Definition interpolated (data : list Sample) (i : nat) : Q :=
  let p := nth i data dummy in
  let d := nth (S i) data dummy in
  x p + (Qabs (value p) / (Qabs (value p) + Qabs (value d))) * (x d - x p).

(** The sum of the vertical forces of a reaction set (upward positive). *)
Definition reactionForce (r : Reactions) : Q :=
  fold_right (fun e acc => Fy (snd e) + acc) 0 r.

(** The vertical resultant of an applied load (downward positive): [P] for a
    point load, [w * l] for a UDL of span [l], [((w1 + w2) / 2) * l] for a
    UVL of span [l > 0]; [dflt] stands for an absent end position. *)
Definition resultant (dflt : Q) (l : Load) : Q :=
  match type l with
  | point => magnitude l
  | udl => magnitude l * (orElse (endPosition l) dflt - position l)
  | uvl =>
      let span := orElse (endPosition l) dflt - position l in
      if Qgtb span 0
      then ((magnitude l + orElse (endMagnitude l) 0) / 2) * span
      else 0
  | moment | torque => 0
  end.

Definition appliedForce (dflt : Q) (ls : list Load) : Q :=
  fold_right (fun l acc => resultant dflt l + acc) 0 ls.

(** Every UDL and UVL carries an end position. *)
Definition spansGiven (ls : list Load) : Prop :=
  forall l, In l ls -> type l = udl \/ type l = uvl -> endPosition l <> None.

Definition noFixed (ss : list Support) : Prop :=
  forall s, In s ss -> isFixed s = false.

Definition someFixed (ss : list Support) : Prop :=
  exists s, In s ss /\ isFixed s = true.

(** Exactly two supports, neither fixed, told apart by identifier and by
    position. *)
Definition twoSimple (ss : list Support) : Prop :=
  exists a b, ss = [a; b] /\ isFixed a = false /\ isFixed b = false /\
    sid a <> sid b /\ ~ sposition a == sposition b.

Definition byPosition (a b : Support) : Prop := sposition a <= sposition b.

(** A concrete [toFixed] for the closed examples: the text is not what they
    are about. *)
Definition noText : xnum -> nat -> string := fun _ _ => EmptyString.
Definition noExponential : Q -> nat -> string := fun _ _ => EmptyString.
Definition noNumber : Q -> string := fun _ => EmptyString.

Definition mkSupport (i : string) (t : SupportType) (p : Q) : Support :=
  {| sid := i; stype := t; sposition := p |}.

Definition mkLoad (i : string) (t : LoadType) (p m : Q) (em ep : option Q)
    : Load :=
  {| id := i; type := t; position := p; magnitude := m; endMagnitude := em;
     endPosition := ep |}.

(** A beam of length [L] with unit section and material constants. *)
Definition mkBeam (L : Q) (ss : list Support) (ls : list Load) : BeamConfig :=
  {| length := L; E := 1; G := 1; I := 1; J := 1; depth := 1; supports := ss;
     loads := ls; units := SI; gravity := 981 # 100 |}.

(** The sum of the magnitudes of all torque loads, and of those at a
    position up to [xs]. *)
Definition totalTorque (ls : list Load) : Q :=
  fold_right (fun l acc => if isTorque l then magnitude l + acc else acc) 0 ls.

Definition torqueUpTo (ls : list Load) (xs : Q) : Q :=
  fold_right
    (fun l acc =>
       if isTorque l && Qleb (position l) xs then magnitude l + acc else acc)
    0 ls.

(** A fixed support sits exactly at position 0. *)
Definition fixedAtOrigin (beam : BeamConfig) : Prop :=
  exists s, In s (supports beam) /\ stype s = fixed /\ sposition s == 0.

(** The internal torque [T(x)]: reaction torque plus the torque loads up to
    [xs]. *)
Definition torqueAt (beam : BeamConfig) (xs : Q) : Q :=
  reactionTorque beam (torqueLoadsOf beam) + torqueUpTo (loads beam) xs.

(** The value of [phi] after the iteration [i] of the torsion loop. *)
Fixpoint twistAt (Tx_react GJ dx : Q) (torqueLoads : list Load) (i : nat) : Q :=
  match i with
  | O => 0
  | S j =>
      twistAt Tx_react GJ dx torqueLoads j
        + (internalTorque Tx_react torqueLoads (station dx i) / GJ) * dx
  end.

Definition noTorque (beam : BeamConfig) : Prop :=
  forall l, In l (loads beam) -> type l <> torque.

Definition someTorque (beam : BeamConfig) : Prop :=
  exists l, In l (loads beam) /\ type l = torque.

(** The state of the loop of lines 106-151 after [n] stations, and the
    moment and shear it samples at station [i]. *)
Definition forcesTo (beamLength dx : Q) (allLoads : list Load) (n : nat)
    : Forces :=
  fold_left (forcesStep beamLength dx allLoads) (seq 0 n) forces0.

Definition momentAt (beamLength dx : Q) (allLoads : list Load) (i : nat) : Q :=
  snd (cutForces beamLength allLoads (station dx i)).

Definition shearAt (beamLength dx : Q) (allLoads : list Load) (i : nat) : Q :=
  fst (cutForces beamLength allLoads (station dx i)).

(** The loads that the callback of lines 88-97 appends for one entry of the
    reactions object. *)
Definition reactionLoads (beam : BeamConfig) (entry : string * Reaction)
    : list Load :=
  let '(supId, reac) := entry in
  match find (fun s => String.eqb (sid s) supId) (supports beam) with
  | None => []
  | Some sup =>
      ((if Qgtb (Math_abs (Fy reac)) tol_reaction
        then [{| id := "reac-" ++ supId ++ "-y"; type := point;
                 position := sposition sup; magnitude := - Fy reac;
                 endMagnitude := None; endPosition := None |}]
        else []) ++
       match Mz reac with
       | Some m =>
           if Qgtb (Math_abs m) tol_reaction
           then [{| id := "reac-" ++ supId ++ "-m"; type := moment;
                    position := sposition sup; magnitude := - m;
                    endMagnitude := None; endPosition := None |}]
           else []
       | None => []
       end)%list
  end.

(** The load lies to the left of the cut [xs], ends included. *)
Definition leftOf (beamLength xs : Q) (l : Load) : Prop :=
  position l <= xs /\
  (type l = udl \/ type l = uvl -> orElse (endPosition l) beamLength <= xs).

(** The part of a reaction force that enters the effective loads: nothing
    when no support carries the id or the force is within the threshold. *)
Definition keptForce (beam : BeamConfig) (entry : string * Reaction) : Q :=
  match find (fun s => String.eqb (sid s) (fst entry)) (supports beam) with
  | None => 0
  | Some _ =>
      if Qgtb (Math_abs (Fy (snd entry))) tol_reaction then Fy (snd entry)
      else 0
  end.

(** The slope and deflection values that the fill loop pushes at station
    [i]. *)
Definition slopeValue (slopeEI : list Q) (C1 EI : Q) (i : nat) : Q :=
  (nth i slopeEI 0 + C1) / EI.

Definition deflValue (D_partial : list Q) (C1 C2 EI dx : Q) (i : nat) : Q :=
  (nth i D_partial 0 + C1 * station dx i + C2) / EI.

(** [maxDef] after the stations [0 .. n-1]. *)
Fixpoint maxDefTo (D_partial : list Q) (C1 C2 EI dx : Q) (n : nat) : Q :=
  match n with
  | O => 0
  | S m =>
      let prev := maxDefTo D_partial C1 C2 EI dx m in
      let v := Math_abs (deflValue D_partial C1 C2 EI dx m) in
      if Qgtb v prev then v else prev
  end.

(** When no support is fixed, the two supports of lowest position are at
    distinct positions. *)
Definition lowestTwoApart (ss : list Support) : Prop :=
  forall sA sB rest,
    sortByPosition ss = sA :: sB :: rest -> ~ sposition sA == sposition sB.

(** The inputs on which every quotient and every array read of [solveBeam]
    is defined. *)
Definition wellFormed (beam : BeamConfig) : Prop :=
  0 < length beam /\
  ~ E beam * I beam == 0 /\
  (~ G beam * J beam == 0 \/ noTorque beam) /\
  (forall s, In s (supports beam) ->
     0 <= sposition s /\ sposition s <= length beam) /\
  (someFixed (supports beam) \/ lowestTwoApart (supports beam)).

(** The array of [runningIntegral] after [n] pushes. *)
Definition integralTo (f : nat -> Q) (dx : Q) (n : nat) : list Q :=
  fold_left
    (fun arr i => push arr (nth i arr 0 + ((f i + f (i + 1)%nat) / 2) * dx))
    (seq 0 n) [0].

(** Every field of the result is determined. *)
Definition finiteResult (r : AnalysisResult) : Prop :=
  reactions r <> None /\ shearForce r <> None /\ bendingMoment r <> None /\
  slope r <> None /\ deflection r <> None /\ angleOfTwist r <> None /\
  maxShearForce r <> None /\ maxBendingMoment r <> None /\
  maxDeflection r <> None /\ maxStress r <> None /\
  maxAngleOfTwist r <> None /\ steps r <> None /\
  sfInference r <> None /\ bmInference r <> None /\
  deflectionInference r <> None.

(** * Properties *)

(** ** Comparisons *)

Lemma Qltb_lt (a b : Q) : Qltb a b = true <-> a < b.
Proof.
  unfold Qltb. rewrite negb_true_iff, <- not_true_iff_false, Qle_bool_iff.
  split; [apply Qnot_le_lt | apply Qlt_not_le].
Qed.

Lemma Qltb_ge (a b : Q) : Qltb a b = false <-> b <= a.
Proof.
  unfold Qltb. rewrite negb_false_iff, Qle_bool_iff. reflexivity.
Qed.

Lemma Qleb_le (a b : Q) : Qleb a b = true <-> a <= b.
Proof. unfold Qleb. apply Qle_bool_iff. Qed.

Lemma Qleb_gt (a b : Q) : Qleb a b = false <-> b < a.
Proof.
  unfold Qleb. rewrite <- not_true_iff_false, Qle_bool_iff.
  split; [apply Qnot_le_lt | apply Qlt_not_le].
Qed.

Lemma Qgtb_gt (a b : Q) : Qgtb a b = true <-> b < a.
Proof. apply Qltb_lt. Qed.

Lemma Qgtb_le (a b : Q) : Qgtb a b = false <-> a <= b.
Proof. apply Qltb_ge. Qed.

Lemma Qgeb_ge (a b : Q) : Qgeb a b = true <-> b <= a.
Proof. unfold Qgeb. apply Qle_bool_iff. Qed.

Lemma Qgeb_lt (a b : Q) : Qgeb a b = false <-> a < b.
Proof. apply Qleb_gt. Qed.

(** Case analysis on a comparison of the source, with the order fact in
    the context. *)
Ltac cmp_cases :=
  match goal with
  | |- context [Qgtb ?a ?b] =>
      let H := fresh "Hc" in
      destruct (Qgtb a b) eqn:H;
      [apply Qgtb_gt in H | apply Qgtb_le in H]
  | |- context [Qltb ?a ?b] =>
      let H := fresh "Hc" in
      destruct (Qltb a b) eqn:H;
      [apply Qltb_lt in H | apply Qltb_ge in H]
  | |- context [Qgeb ?a ?b] =>
      let H := fresh "Hc" in
      destruct (Qgeb a b) eqn:H;
      [apply Qgeb_ge in H | apply Qgeb_lt in H]
  | |- context [Qleb ?a ?b] =>
      let H := fresh "Hc" in
      destruct (Qleb a b) eqn:H;
      [apply Qleb_le in H | apply Qleb_gt in H]
  end.

(** ** Loops over [0 .. n-1] *)

Lemma fold_left_seq_S {S : Type} (f : S -> nat -> S) (n : nat) (s : S) :
  fold_left f (seq 0 (Datatypes.S n)) s = f (fold_left f (seq 0 n) s) n.
Proof. rewrite seq_S, fold_left_app. reflexivity. Qed.

(** ** [computeChartInference]: the scan *)

Lemma scanTo_S data n : scanTo data (S n) = scanStep data (scanTo data n) n.
Proof. apply fold_left_seq_S. Qed.

Lemma scan_scanTo data : scan data = scanTo data (List.length data).
Proof. reflexivity. Qed.

Lemma scanStep_maxVal data st i :
  maxVal (scanStep data st i) =
    if gt_x (value (nth i data dummy)) (maxVal st)
    then Finite (value (nth i data dummy)) else maxVal st.
Proof.
  unfold scanStep.
  destruct (gt_x _ (maxVal st)); cbn [maxVal minVal];
    destruct (lt_x _ _); cbn [maxVal];
    destruct (0 <? i)%nat; try destruct (crosses _ _); reflexivity.
Qed.

Lemma scanStep_maxPos data st i :
  maxPos (scanStep data st i) =
    if gt_x (value (nth i data dummy)) (maxVal st)
    then x (nth i data dummy) else maxPos st.
Proof.
  unfold scanStep.
  destruct (gt_x _ (maxVal st)); cbn [maxVal minVal];
    destruct (lt_x _ _); cbn [maxPos];
    destruct (0 <? i)%nat; try destruct (crosses _ _); reflexivity.
Qed.

Lemma scanStep_minVal data st i :
  minVal (scanStep data st i) =
    if lt_x (value (nth i data dummy)) (minVal st)
    then Finite (value (nth i data dummy)) else minVal st.
Proof.
  unfold scanStep.
  destruct (gt_x _ (maxVal st)); cbn [maxVal minVal];
    destruct (lt_x _ _); cbn [minVal];
    destruct (0 <? i)%nat; try destruct (crosses _ _); reflexivity.
Qed.

Lemma scanStep_minPos data st i :
  minPos (scanStep data st i) =
    if lt_x (value (nth i data dummy)) (minVal st)
    then x (nth i data dummy) else minPos st.
Proof.
  unfold scanStep.
  destruct (gt_x _ (maxVal st)); cbn [maxVal minVal];
    destruct (lt_x _ _); cbn [minPos];
    destruct (0 <? i)%nat; try destruct (crosses _ _); reflexivity.
Qed.

Lemma scanStep_crossings data st i :
  crossings (scanStep data st i) =
    if (0 <? i)%nat && crosses (value (nth (i - 1) data dummy))
                         (value (nth i data dummy))
    then push (crossings st)
           (crossingAt (nth (i - 1) data dummy) (nth i data dummy))
    else crossings st.
Proof.
  unfold scanStep.
  destruct (gt_x _ (maxVal st)); cbn [maxVal minVal];
    destruct (lt_x _ _); cbn [crossings];
    destruct (0 <? i)%nat; cbn [andb]; try destruct (crosses _ _); reflexivity.
Qed.

Lemma scanTo_max data n :
  exists k, firstMax data (S n) k /\
    maxVal (scanTo data (S n)) = Finite (value (nth k data dummy)) /\
    maxPos (scanTo data (S n)) = x (nth k data dummy).
Proof.
  induction n as [|n [k [[Hk [Hle Hlt]] [Hv Hp]]]].
  - exists 0%nat. rewrite scanTo_S, scanStep_maxVal, scanStep_maxPos.
    cbn. repeat split; try lia.
    intros j Hj. assert (j = 0)%nat by lia. subst. apply Qle_refl.
  - rewrite scanTo_S, scanStep_maxVal, scanStep_maxPos, Hv, Hp.
    cbn [gt_x]. cmp_cases.
    + exists (S n). repeat split; try lia.
      * intros j Hj. destruct (Nat.eq_dec j (S n)) as [->|Hne].
        -- apply Qle_refl.
        -- apply Qlt_le_weak, Qle_lt_trans with (2 := Hc). apply Hle. lia.
      * intros j Hj. apply Qle_lt_trans with (2 := Hc). apply Hle. lia.
    + exists k. repeat split; try lia; auto.
      intros j Hj. destruct (Nat.eq_dec j (S n)) as [->|Hne]; auto.
      apply Hle. lia.
Qed.

Lemma scanTo_min data n :
  exists k, firstMin data (S n) k /\
    minVal (scanTo data (S n)) = Finite (value (nth k data dummy)) /\
    minPos (scanTo data (S n)) = x (nth k data dummy).
Proof.
  induction n as [|n [k [[Hk [Hle Hlt]] [Hv Hp]]]].
  - exists 0%nat. rewrite scanTo_S, scanStep_minVal, scanStep_minPos.
    cbn. repeat split; try lia.
    intros j Hj. assert (j = 0)%nat by lia. subst. apply Qle_refl.
  - rewrite scanTo_S, scanStep_minVal, scanStep_minPos, Hv, Hp.
    cbn [lt_x]. cmp_cases.
    + exists (S n). repeat split; try lia.
      * intros j Hj. destruct (Nat.eq_dec j (S n)) as [->|Hne].
        -- apply Qle_refl.
        -- apply Qlt_le_weak, Qlt_le_trans with (1 := Hc). apply Hle. lia.
      * intros j Hj. apply Qlt_le_trans with (1 := Hc). apply Hle. lia.
    + exists k. repeat split; try lia; auto.
      intros j Hj. destruct (Nat.eq_dec j (S n)) as [->|Hne]; auto.
      apply Hle. lia.
Qed.

Lemma crosses_signChange (a b : Q) : crosses a b = true <-> signChange a b.
Proof.
  unfold crosses, signChange.
  rewrite orb_true_iff, !andb_true_iff, Qltb_lt, Qgtb_gt, Qgeb_ge, Qleb_le.
  split.
  - intros [[Ha Hb]|[Ha Hb]].
    + split; [lra|]. destruct (Qlt_le_dec 0 b); [right; left; lra | left; lra].
    + split; [lra|]. destruct (Qlt_le_dec b 0); [right; right; lra | left; lra].
  - intros [Ha [Hb|[[H1 H2]|[H1 H2]]]].
    + destruct (Qlt_le_dec a 0); [left; lra | right; lra].
    + left; lra.
    + right; lra.
Qed.

Lemma scanTo_crossings data n :
  crossings (scanTo data n) = flat_map (recordedAt data) (seq 0 (n - 1)).
Proof.
  induction n as [|[|n] IH].
  - reflexivity.
  - rewrite scanTo_S, scanStep_crossings. reflexivity.
  - rewrite scanTo_S, scanStep_crossings, IH.
    replace (S (S n) - 1)%nat with (S n) by lia.
    replace (S n - 1)%nat with n by lia.
    rewrite seq_S, flat_map_app. cbn [Nat.ltb Nat.leb andb flat_map Nat.add].
    rewrite app_nil_r. unfold push.
    set (F := flat_map (recordedAt data) (seq 0 n)).
    unfold recordedAt. cbv zeta.
    destruct (crosses _ _).
    + reflexivity.
    + rewrite app_nil_r. reflexivity.
Qed.

(** C8.  For a series with at least one station, the reported maximum
    (resp. minimum) is the value of a station [k] that no station exceeds
    (resp. undercuts) and that every earlier station is strictly below
    (resp. above): the first station attaining the extreme; the reported
    position is that station's.  A later station of equal value therefore
    never replaces it. *)
Theorem extremes_keep_first_occurrence :
  forall toFixed (data : list Sample) label formatFn,
    data <> [] ->
    let r := computeChartInference toFixed data label formatFn in
    (exists k, firstMax data (List.length data) k /\
       maxValue r = Finite (value (nth k data dummy)) /\
       maxPosition r = x (nth k data dummy)) /\
    (exists k, firstMin data (List.length data) k /\
       minValue r = Finite (value (nth k data dummy)) /\
       minPosition r = x (nth k data dummy)).
Proof.
  intros toFixed data label formatFn Hne r.
  destruct data as [|d0 rest]; [congruence|].
  subst r. unfold computeChartInference.
  cbn [maxValue maxPosition minValue minPosition]. rewrite scan_scanTo.
  cbn [List.length]. split; [apply scanTo_max | apply scanTo_min].
Qed.

Lemma extremes_keep_first_occurrence_witness :
  let data := [ {| x := 0; value := 1 |}; {| x := 1; value := 3 |};
                {| x := 2; value := 3 |}; {| x := 3; value := -2 |};
                {| x := 4; value := -2 |} ] in
  let r := computeChartInference (fun _ _ => EmptyString) data EmptyString
             (fun _ => EmptyString) in
  (exists k, firstMax data 5 k /\
     maxValue r = Finite (value (nth k data dummy)) /\
     maxPosition r = x (nth k data dummy)) /\
  (exists k, firstMin data 5 k /\
     minValue r = Finite (value (nth k data dummy)) /\
     minPosition r = x (nth k data dummy)).
Proof.
  intros data r.
  apply (extremes_keep_first_occurrence (fun _ _ => EmptyString) data
           EmptyString (fun _ => EmptyString)).
  discriminate.
Defined.

(** On that series the maximum 3 is reported at the first of its two
    stations and the minimum -2 at the first of its two stations. *)
Example extremes_on_ties :
  let r := computeChartInference (fun _ _ => EmptyString)
             [ {| x := 0; value := 1 |}; {| x := 1; value := 3 |};
               {| x := 2; value := 3 |}; {| x := 3; value := -2 |};
               {| x := 4; value := -2 |} ] EmptyString (fun _ => EmptyString) in
  maxValue r = Finite 3 /\ maxPosition r = 1 /\
  minValue r = Finite (-2) /\ minPosition r = 3.
Proof. cbv. repeat split. Qed.

(** C4, as the scan implements it.  The recorded crossings are, in station
    order, what [recordedAt] yields for each pair of consecutive stations;
    a pair yields a crossing exactly when its first value is strictly off
    zero and its second value is zero or of the opposite sign, and the
    position is [x_i + (|v_i| / (|v_i| + |v_i+1|)) * (x_i+1 - x_i)].  A pair
    that leaves an exact zero yields nothing. *)
Theorem zero_crossings_characterised :
  forall toFixed (data : list Sample) label formatFn,
    zeroCrossings (computeChartInference toFixed data label formatFn) =
      flat_map (recordedAt data) (seq 0 (List.length data - 1)) /\
    forall i,
      let a := value (nth i data dummy) in
      let b := value (nth (S i) data dummy) in
      (signChange a b -> recordedAt data i = [interpolated data i]) /\
      (~ signChange a b -> recordedAt data i = []) /\
      (leavesZero a b -> recordedAt data i = []).
Proof.
  intros toFixed data label formatFn. split.
  - unfold computeChartInference. cbn [zeroCrossings].
    rewrite scan_scanTo. apply scanTo_crossings.
  - intros i a b. subst a b. unfold recordedAt.
    destruct (crosses _ _) eqn:Hc.
    + apply crosses_signChange in Hc. split; [|split].
      * intros _. reflexivity.
      * intros Hn. contradiction.
      * intros [Hz _]. destruct Hc as [Hnz _]. contradiction.
    + split; [|split]; try reflexivity.
      intros Hs. apply crosses_signChange in Hs. congruence.
Qed.

(** C4, the claim as written fails: between a station at exactly zero and
    the next station at a non-zero value no crossing is recorded. *)
Lemma leaving_zero_is_not_recorded :
  let data := [ {| x := 0; value := 0 |}; {| x := 1; value := 1 |} ] in
  leavesZero (value (nth 0 data dummy)) (value (nth 1 data dummy)) /\
  zeroCrossings (computeChartInference (fun _ _ => EmptyString) data
                   EmptyString (fun _ => EmptyString)) = [].
Proof.
  cbv zeta. split.
  - unfold leavesZero. cbn. split; [reflexivity | intros H; discriminate H].
  - reflexivity.
Qed.

(** ** The sort of the supports *)

Lemma insertByPosition_perm s l : Permutation (s :: l) (insertByPosition s l).
Proof.
  induction l as [|s' rest IH]; cbn.
  - apply Permutation_refl.
  - destruct (Qleb _ _).
    + apply Permutation_refl.
    + apply perm_trans with (s' :: s :: rest); [apply perm_swap|].
      apply perm_skip, IH.
Qed.

Lemma sortByPosition_perm l : Permutation l (sortByPosition l).
Proof.
  induction l as [|s rest IH]; cbn.
  - apply perm_nil.
  - apply perm_trans with (s :: sortByPosition rest).
    + apply perm_skip, IH.
    + apply insertByPosition_perm.
Qed.

Lemma sortByPosition_length l :
  List.length (sortByPosition l) = List.length l.
Proof. symmetry. apply Permutation_length, sortByPosition_perm. Qed.

Lemma sortByPosition_In l s : In s (sortByPosition l) <-> In s l.
Proof.
  split; apply Permutation_in;
    [apply Permutation_sym|]; apply sortByPosition_perm.
Qed.

Lemma insertByPosition_sorted s l :
  StronglySorted byPosition l -> StronglySorted byPosition (insertByPosition s l).
Proof.
  induction 1 as [|s' rest Hs IH Hall]; cbn.
  - constructor; constructor.
  - cmp_cases.
    + constructor; [constructor; assumption|].
      constructor; [exact Hc|].
      rewrite Forall_forall in *. intros y Hy.
      unfold byPosition in *. specialize (Hall y Hy). lra.
    + constructor; [exact IH|].
      rewrite Forall_forall in *. intros y Hy.
      apply (Permutation_in _ (Permutation_sym (insertByPosition_perm s rest)))
        in Hy.
      destruct Hy as [<-|Hy]; [unfold byPosition; lra | auto].
Qed.

Lemma sortByPosition_sorted l : StronglySorted byPosition (sortByPosition l).
Proof.
  induction l as [|s rest IH]; cbn.
  - constructor.
  - apply insertByPosition_sorted, IH.
Qed.

Lemma find_none_noFixed ss : find isFixed ss = None <-> noFixed ss.
Proof.
  unfold noFixed. split.
  - intros H s Hs. apply (find_none _ _ H s Hs).
  - intros H. induction ss as [|s rest IH]; [reflexivity|]. cbn.
    rewrite (H s (or_introl eq_refl)). apply IH.
    intros s' Hs'. apply H. right. exact Hs'.
Qed.

Lemma find_sorted_none ss :
  noFixed ss -> find isFixed (sortByPosition ss) = None.
Proof.
  intros H. apply find_none_noFixed. intros s Hs.
  apply H, sortByPosition_In, Hs.
Qed.

Lemma find_sorted_some ss :
  someFixed ss ->
  exists f, find isFixed (sortByPosition ss) = Some f /\ In f ss /\
            isFixed f = true.
Proof.
  intros [s [Hs Hf]].
  destruct (find isFixed (sortByPosition ss)) as [f|] eqn:Hfind.
  - exists f. split; [reflexivity|].
    apply find_some in Hfind. destruct Hfind as [Hin Hfx].
    split; [apply sortByPosition_In, Hin | exact Hfx].
  - apply find_none_noFixed in Hfind.
    rewrite (Hfind s) in Hf; [discriminate|]. apply sortByPosition_In, Hs.
Qed.

Lemma find_sorted_lowest l f :
  StronglySorted byPosition l -> find isFixed l = Some f ->
  forall f', In f' l -> isFixed f' = true -> sposition f <= sposition f'.
Proof.
  induction 1 as [|s rest Hs IH Hall]; cbn; [discriminate|].
  destruct (isFixed s) eqn:Hfx.
  - intros [= <-] f' [<-|Hin] _; [apply Qle_refl|].
    rewrite Forall_forall in Hall. apply (Hall f' Hin).
  - intros Hfind f' [<-|Hin] Hf'; [congruence|]. apply IH; assumption.
Qed.

Lemma setProp_not_nil k v o : setProp k v o <> [].
Proof.
  destruct o as [|[k' v'] rest]; cbn; [discriminate|].
  destruct (String.eqb k' k); discriminate.
Qed.

(** ** [solveReactions]: the three branches *)

Lemma solveReactions_fixed toFixed beam steps f :
  find isFixed (sortByPosition (supports beam)) = Some f ->
  solveReactions toFixed beam steps =
    Some ([(sid f,
            {| Fy := fst (fst (getTotalLoads toFixed (loads beam) (sposition f)
                                 steps));
               Mz := Some (snd (fst (getTotalLoads toFixed (loads beam)
                                       (sposition f) steps))) |})],
          push (snd (getTotalLoads toFixed (loads beam) (sposition f) steps))
            (cantileverStep toFixed (sposition f)
               (fst (fst (getTotalLoads toFixed (loads beam) (sposition f)
                            steps)))
               (snd (fst (getTotalLoads toFixed (loads beam) (sposition f)
                            steps))))).
Proof.
  intros Hf. unfold solveReactions. rewrite Hf. reflexivity.
Qed.

Lemma solveReactions_unable toFixed beam steps :
  noFixed (supports beam) -> List.length (supports beam) <> 2%nat ->
  solveReactions toFixed beam steps = Some ([], push steps unableToSolveStep).
Proof.
  intros Hno Hlen. unfold solveReactions.
  rewrite (find_sorted_none _ Hno).
  rewrite <- sortByPosition_length in Hlen.
  destruct (sortByPosition (supports beam)) as [|s1 [|s2 [|s3 rest]]];
    try reflexivity.
  cbn in Hlen. congruence.
Qed.

Lemma solveReactions_two toFixed beam steps s1 s2 :
  noFixed (supports beam) -> sortByPosition (supports beam) = [s1; s2] ->
  solveReactions toFixed beam steps =
    (R_s2 <- jsdiv (snd (fst (getTotalLoads toFixed (loads beam) (sposition s1)
                                steps)))
               (sposition s2 - sposition s1) ;;
     let sFy := fst (fst (getTotalLoads toFixed (loads beam) (sposition s1)
                            steps)) in
     let sM := snd (fst (getTotalLoads toFixed (loads beam) (sposition s1)
                           steps)) in
     Some (setProp (sid s2) {| Fy := R_s2; Mz := None |}
             (setProp (sid s1) {| Fy := sFy - R_s2; Mz := None |} []),
           push (snd (getTotalLoads toFixed (loads beam) (sposition s1) steps))
             (simplySupportedStep toFixed (sposition s1) (sposition s2)
                (sposition s2 - sposition s1) sFy sM (sFy - R_s2) R_s2))).
Proof.
  intros Hno Hs. unfold solveReactions.
  rewrite (find_sorted_none _ Hno), Hs. cbn [getTotalLoads fst snd].
  destruct (jsdiv _ _); reflexivity.
Qed.

(** C1, as the code classifies.  With no fixed support and a number of
    supports other than two, [solveReactions] returns the empty reaction set
    and appends the note "Unable to Solve", computing nothing else; an
    empty reaction set is returned in no other case; and as soon as a fixed
    support is present, alone or next to other supports, the cantilever
    closed form is applied at the fixed support of lowest position. *)
Theorem solveReactions_classification :
  forall toFixed (beam : BeamConfig) (steps : list SolverStep),
    (noFixed (supports beam) -> List.length (supports beam) <> 2%nat ->
       solveReactions toFixed beam steps =
         Some ([], push steps unableToSolveStep)) /\
    (forall r st, solveReactions toFixed beam steps = Some (r, st) -> r = [] ->
       noFixed (supports beam) /\ List.length (supports beam) <> 2%nat) /\
    (someFixed (supports beam) ->
       exists f,
         In f (supports beam) /\ isFixed f = true /\
         (forall f', In f' (supports beam) -> isFixed f' = true ->
            sposition f <= sposition f') /\
         let totals := getTotalLoads toFixed (loads beam) (sposition f) steps in
         solveReactions toFixed beam steps =
           Some ([(sid f, {| Fy := fst (fst totals);
                             Mz := Some (snd (fst totals)) |})],
                 push (snd totals)
                   (cantileverStep toFixed (sposition f) (fst (fst totals))
                      (snd (fst totals))))).
Proof.
  intros toFixed beam steps. split; [|split].
  - apply solveReactions_unable.
  - intros r st Hrun ->.
    destruct (find isFixed (sortByPosition (supports beam))) as [f|] eqn:Hf.
    + rewrite (solveReactions_fixed _ _ _ _ Hf) in Hrun. discriminate.
    + assert (Hno : noFixed (supports beam)).
      { intros s Hs. apply find_none_noFixed in Hf.
        apply Hf, sortByPosition_In, Hs. }
      split; [exact Hno|]. intros Hlen.
      rewrite <- sortByPosition_length in Hlen.
      destruct (sortByPosition (supports beam)) as [|s1 [|s2 [|s3 rest]]] eqn:Hs;
        try discriminate.
      rewrite (solveReactions_two _ _ _ _ _ Hno Hs) in Hrun.
      destruct (jsdiv _ _); unfold obind in Hrun; [|discriminate].
      injection Hrun as Hr _. revert Hr.
      destruct (String.eqb (sid s1) (sid s2)); discriminate.
  - intros Hsome. destruct (find_sorted_some _ Hsome) as [f [Hf [Hin Hfx]]].
    exists f. split; [exact Hin|]. split; [exact Hfx|]. split.
    + intros f' Hin' Hfx'.
      apply (find_sorted_lowest _ _ (sortByPosition_sorted _) Hf); auto.
      apply sortByPosition_In, Hin'.
    + cbv zeta. apply solveReactions_fixed, Hf.
Qed.

(** C1, the claim as written fails: a fixed support next to two simple
    supports is neither "one fixed support alone" nor "two supports, none
    fixed", and [solveReactions] still returns the cantilever reaction at the
    fixed support, with no diagnostic note. *)
Lemma fixed_among_others_is_solved :
  let beam := mkBeam 10
                [mkSupport "s1" fixed 0; mkSupport "s2" pin 5;
                 mkSupport "s3" roller 10]
                [mkLoad "l1" point 5 10 None None] in
  exists r st,
    solveReactions noText beam [] = Some (r, st) /\
    map fst r = ["s1"%string] /\
    reactionForce r == 10 /\
    ~ In unableToSolveStep st.
Proof.
  cbv zeta. eexists. eexists. split; [reflexivity|].
  split; [reflexivity|]. split; [reflexivity|].
  cbn. intros [H|[H|[]]]; discriminate H.
Qed.

(** ** [getTotalLoads]: the vertical sum *)

Lemma jsdiv_some (a b : Q) : ~ b == 0 -> jsdiv a b = Some (a / b).
Proof.
  intros Hb. unfold jsdiv. destruct (Qeq_bool b 0) eqn:He; [|reflexivity].
  apply Qeq_bool_iff in He. contradiction.
Qed.

Lemma jsdiv_none (a b : Q) : b == 0 -> jsdiv a b = None.
Proof.
  intros Hb. unfold jsdiv. apply Qeq_bool_iff in Hb. rewrite Hb. reflexivity.
Qed.

Lemma addLoad_sumFy toFixed fixedPos dflt t l :
  (type l = udl \/ type l = uvl -> endPosition l <> None) ->
  sumFy (addLoad toFixed fixedPos t l) == sumFy t + resultant dflt l.
Proof.
  intros Hend. unfold addLoad, resultant.
  destruct (type l) eqn:Ht; cbn [sumFy]; try lra.
  - destruct (endPosition l) as [e|]; [|exfalso; apply Hend; auto].
    cbn [orElse]. reflexivity.
  - destruct (endPosition l) as [e|]; [|exfalso; apply Hend; auto].
    cbn [orElse]. destruct (Qgtb _ _); cbn [sumFy]; lra.
Qed.

Lemma fold_addLoad_sumFy toFixed fixedPos dflt ls :
  spansGiven ls ->
  forall t,
    sumFy (fold_left (addLoad toFixed fixedPos) ls t)
      == sumFy t + appliedForce dflt ls.
Proof.
  induction ls as [|l rest IH]; intros Hends t; cbn [fold_left appliedForce fold_right].
  - lra.
  - rewrite IH.
    + rewrite (addLoad_sumFy toFixed fixedPos dflt).
      * fold (appliedForce dflt rest). lra.
      * apply Hends. left. reflexivity.
    + intros l' Hin. apply Hends. right. exact Hin.
Qed.

Lemma getTotalLoads_sumFy toFixed ls fixedPos steps dflt :
  spansGiven ls ->
  fst (fst (getTotalLoads toFixed ls fixedPos steps)) == appliedForce dflt ls.
Proof.
  intros Hends. unfold getTotalLoads. cbn [fst].
  rewrite (fold_addLoad_sumFy toFixed fixedPos dflt ls Hends). cbn. lra.
Qed.

Lemma twoSimple_noFixed ss : twoSimple ss -> noFixed ss.
Proof.
  intros [a [b [-> [Ha [Hb _]]]]] s [<-|[<-|[]]]; assumption.
Qed.

Lemma twoSimple_sorted ss :
  twoSimple ss ->
  exists s1 s2, sortByPosition ss = [s1; s2] /\ sid s1 <> sid s2 /\
                ~ sposition s2 - sposition s1 == 0.
Proof.
  intros [a [b [-> [_ [_ [Hid Hpos]]]]]]. cbn.
  destruct (Qleb (sposition a) (sposition b)).
  - exists a, b. repeat split; auto. intros H. apply Hpos. lra.
  - exists b, a. repeat split; auto. intros H. apply Hpos. lra.
Qed.

(** C2, on the configurations the code solves with finite reactions.  When
    every UDL and UVL carries an end position and either a fixed support is
    present or there are exactly two supports, neither fixed, with distinct
    identifiers and distinct positions, [solveReactions] returns reactions
    whose vertical forces sum to the sum of the vertical resultants of the
    applied point, UDL and UVL loads: reactions (upward) and loads (downward)
    cancel exactly. *)
Theorem reactions_balance_applied_loads :
  forall toFixed (beam : BeamConfig) (steps : list SolverStep),
    spansGiven (loads beam) ->
    someFixed (supports beam) \/ twoSimple (supports beam) ->
    exists r st,
      solveReactions toFixed beam steps = Some (r, st) /\
      reactionForce r - appliedForce (length beam) (loads beam) == 0.
Proof.
  intros toFixed beam steps Hends [Hfixed|Htwo].
  - destruct (find_sorted_some _ Hfixed) as [f [Hf _]].
    rewrite (solveReactions_fixed _ _ _ _ Hf).
    eexists. eexists. split; [reflexivity|]. cbn [reactionForce fold_right snd Fy].
    rewrite (getTotalLoads_sumFy toFixed _ _ _ (length beam) Hends). lra.
  - destruct (twoSimple_sorted _ Htwo) as [s1 [s2 [Hs [Hid Hpos]]]].
    rewrite (solveReactions_two _ _ _ _ _ (twoSimple_noFixed _ Htwo) Hs).
    rewrite (jsdiv_some _ _ Hpos). cbn [obind setProp].
    apply String.eqb_neq in Hid. rewrite Hid.
    eexists. eexists. split; [reflexivity|].
    cbn [reactionForce fold_right snd Fy].
    rewrite (getTotalLoads_sumFy toFixed _ _ _ (length beam) Hends). lra.
Qed.

Lemma reactions_balance_applied_loads_witness :
  let beam := mkBeam 10 [mkSupport "s1" pin 0; mkSupport "s2" roller 10]
                [mkLoad "l1" point 5 10000 None None;
                 mkLoad "l2" udl 2 300 None (Some 6)] in
  exists r st,
    solveReactions noText beam [] = Some (r, st) /\
    reactionForce r - appliedForce (length beam) (loads beam) == 0.
Proof.
  intros beam.
  apply (reactions_balance_applied_loads noText beam []).
  - intros l [<-|[<-|[]]] H;
      [destruct H as [H|H]; discriminate H | discriminate].
  - right. exists (mkSupport "s1" pin 0), (mkSupport "s2" roller 10).
    split; [reflexivity|]. split; [reflexivity|]. split; [reflexivity|].
    split; [discriminate|]. cbn. lra.
Defined.

(** C2, the claim as written fails: two simple supports at one position
    are "exactly two non-fixed supports", yet [sumM / L] divides by the zero
    span and no finite reactions are returned. *)
Lemma coincident_supports_have_no_reactions :
  let beam := mkBeam 10 [mkSupport "s1" pin 5; mkSupport "s2" roller 5]
                [mkLoad "l1" point 5 10 None None] in
  List.length (supports beam) = 2%nat /\
  noFixed (supports beam) /\
  spansGiven (loads beam) /\
  solveReactions noText beam [] = None.
Proof.
  cbv zeta. split; [reflexivity|]. split; [|split].
  - intros s [<-|[<-|[]]]; reflexivity.
  - intros l [<-|[]] [H|H]; discriminate H.
  - reflexivity.
Qed.

(** ** The UVL centroid guard *)

Lemma xcLocal_formula (L w1 w2 : Q) :
  tol_denom < w1 + w2 ->
  xcLocal L w1 w2 = (L / 3) * ((w1 + 2 * w2) / (w1 + w2)).
Proof.
  intros H. unfold xcLocal. apply Qgtb_gt in H. rewrite H. reflexivity.
Qed.

Lemma xcLocal_midpoint (L w1 w2 : Q) :
  w1 + w2 <= tol_denom -> xcLocal L w1 w2 = L / 2.
Proof.
  intros H. unfold xcLocal. apply Qgtb_le in H. rewrite H. reflexivity.
Qed.

(** The quotient by [denom] is only formed for a strictly positive
    [denom]. *)
Lemma xcLocal_divisor_positive (w1 w2 : Q) :
  Qgtb (w1 + w2) tol_denom = true -> 0 < w1 + w2.
Proof.
  intros H. apply Qgtb_gt in H. unfold tol_denom in H.
  apply Qlt_trans with (2 := H). reflexivity.
Qed.

(** A UVL with [w1 = w2 = 0] adds nothing to the sums of [getTotalLoads]. *)
Lemma degenerate_uvl_totals toFixed fixedPos t l :
  type l = uvl -> magnitude l == 0 -> orElse (endMagnitude l) 0 == 0 ->
  sumFy (addLoad toFixed fixedPos t l) == sumFy t /\
  sumM (addLoad toFixed fixedPos t l) == sumM t.
Proof.
  intros Ht Hw1 Hw2. unfold addLoad. rewrite Ht.
  destruct (Qgtb _ 0); cbn [sumFy sumM]; [|split; reflexivity].
  set (L := orElse (endPosition l) (position l) - position l).
  set (c := position l + xcLocal L _ _ - fixedPos).
  assert (HP : (magnitude l + orElse (endMagnitude l) 0) / 2 * L == 0).
  { rewrite Hw1, Hw2. field. }
  split; rewrite HP; lra.
Qed.

(** A UVL with [w1 = w2 = 0] adds nothing to the shear and the moment at any
    cut. *)
Lemma degenerate_uvl_cut beamLength xs V M_val l :
  type l = uvl -> magnitude l == 0 -> orElse (endMagnitude l) 0 == 0 ->
  fst (cutEffect beamLength xs (V, M_val) l) == V /\
  snd (cutEffect beamLength xs (V, M_val) l) == M_val.
Proof.
  intros Ht Hw1 Hw2. unfold cutEffect. rewrite Ht.
  destruct (Qgeb _ _ && Qgtb _ 0); cbn [fst snd]; [|split; reflexivity].
  set (b := orElse (endPosition l) beamLength).
  set (u_loc := Math_min xs b - position l).
  set (r := u_loc / (b - position l)).
  set (w_x := magnitude l + (orElse (endMagnitude l) 0 - magnitude l) * r).
  set (c := xs - (position l + xcLocal u_loc (magnitude l) w_x)).
  assert (HP : (magnitude l + w_x) / 2 * u_loc == 0).
  { unfold w_x. rewrite Hw1, Hw2. field. }
  split; rewrite HP; lra.
Qed.

(** The guard tests [denom > 1e-12], not [|denom| > 1e-12]: every negative
    denominator takes the midpoint. *)
Lemma xcLocal_negative_denominator (L w1 w2 : Q) :
  w1 + w2 < 0 -> xcLocal L w1 w2 = L / 2.
Proof.
  intros H. apply xcLocal_midpoint. unfold tol_denom.
  apply Qle_trans with 0; [lra | discriminate].
Qed.

(** C3, the code at an upward UVL ([w1 = -1], [w2 = -3] over [0, 3]).  The
    denominator [w1 + w2 = -4] is far from zero, yet the centroid offset is
    the midpoint [3/2] and not [(3/3) * (w1 + 2 w2) / (w1 + w2) = 7/4]; the
    moment of the load about [x = 0] comes out as [-9] instead of
    [-6 * 7/4 = -21/2], and its moment at the cut [x = 3] as [9] instead of
    [15/2]. *)
Theorem upward_uvl_takes_midpoint :
  let l := mkLoad "l1" uvl 0 (-1) (Some (-3)) (Some 3) in
  let denom := magnitude l + orElse (endMagnitude l) 0 in
  let centroid := (3 / 3) * ((-1 + 2 * -3) / denom) in
  tol_denom < Qabs denom /\
  xcLocal 3 (-1) (-3) == 3 / 2 /\
  ~ xcLocal 3 (-1) (-3) == centroid /\
  snd (fst (getTotalLoads noText [l] 0 [])) == -9 /\
  ~ snd (fst (getTotalLoads noText [l] 0 [])) == -6 * centroid /\
  snd (cutForces 3 [l] 3) == 9 /\
  ~ snd (cutForces 3 [l] 3) == 6 * (3 - centroid).
Proof.
  cbv zeta. vm_compute. repeat split; intros H; discriminate H.
Qed.

(** ** A UDL without an end position *)

Lemma udl_without_end_totals toFixed fixedPos t l :
  type l = udl -> endPosition l = None ->
  sumFy (addLoad toFixed fixedPos t l) == sumFy t /\
  sumM (addLoad toFixed fixedPos t l) == sumM t.
Proof.
  intros Ht He. unfold addLoad. rewrite Ht, He. cbn [orElse sumFy sumM].
  set (c := position l + (position l - position l) / 2 - fixedPos).
  assert (HP : magnitude l * (position l - position l) == 0) by ring.
  split; rewrite HP; lra.
Qed.

Lemma Math_min_r (a b : Q) : b <= a -> Math_min a b == b.
Proof.
  intros H. unfold Math_min. cmp_cases; [lra | reflexivity].
Qed.

Lemma Math_min_l (a b : Q) : a <= b -> Math_min a b = a.
Proof.
  intros H. unfold Math_min. apply Qleb_le in H. rewrite H. reflexivity.
Qed.

Lemma udl_without_end_cut beamLength xs V M_val l :
  type l = udl -> endPosition l = None ->
  position l <= xs -> beamLength <= xs ->
  fst (cutEffect beamLength xs (V, M_val) l)
    == V - magnitude l * (beamLength - position l).
Proof.
  intros Ht He Ha Hb. unfold cutEffect. rewrite Ht, He. cbn [orElse].
  apply Qgeb_ge in Ha. rewrite Ha. cbn [fst].
  rewrite (Math_min_r _ _ Hb). ring.
Qed.

(** C10.  For a UDL without end position the reaction solver takes a span of
    zero (the load adds nothing to [sumFy] and [sumM]), while the cut
    integration takes the span up to the beam length (at a cut at or past
    the beam end the load lowers the shear by [w * (L - a)]).  On the beam
    below the reactions are both zero, no reaction enters the effective
    loads, and the shear at the beam end is [-1000]: the reactions do not
    balance the loads that the shear and moment series are sampled from. *)
Theorem udl_without_end_defaults_disagree :
  (forall toFixed fixedPos t l,
     type l = udl -> endPosition l = None ->
     sumFy (addLoad toFixed fixedPos t l) == sumFy t /\
     sumM (addLoad toFixed fixedPos t l) == sumM t) /\
  (forall beamLength xs V M_val l,
     type l = udl -> endPosition l = None ->
     position l <= xs -> beamLength <= xs ->
     fst (cutEffect beamLength xs (V, M_val) l)
       == V - magnitude l * (beamLength - position l)) /\
  (exists beam r st,
     loads beam = [mkLoad "l1" udl 0 100 None None] /\
     solveReactions noText beam [] = Some (r, st) /\
     reactionForce r == 0 /\
     effectiveLoads beam r = loads beam /\
     appliedForce (length beam) (loads beam) == 1000 /\
     fst (cutForces (length beam) (effectiveLoads beam r) (length beam))
       == -1000).
Proof.
  split; [|split].
  - apply udl_without_end_totals.
  - apply udl_without_end_cut.
  - exists (mkBeam 10 [mkSupport "s1" pin 0; mkSupport "s2" roller 10]
              [mkLoad "l1" udl 0 100 None None]).
    eexists. eexists. split; [reflexivity|]. split; [reflexivity|].
    repeat split.
Qed.

(** ** Loops that may fail *)

Lemma forM_app {S : Type} (body : S -> nat -> option S) (l1 l2 : list nat)
    (s : S) :
  forM body (l1 ++ l2) s = s' <- forM body l1 s ;; forM body l2 s'.
Proof.
  revert s. induction l1 as [|i rest IH]; intros s; cbn; [reflexivity|].
  destruct (body s i); cbn; [apply IH | reflexivity].
Qed.

Lemma forM_seq_S {S : Type} (body : S -> nat -> option S) (n : nat) (s : S) :
  forM body (seq 0 (Datatypes.S n)) s =
    s' <- forM body (seq 0 n) s ;; body s' n.
Proof.
  rewrite seq_S, forM_app. destruct (forM body (seq 0 n) s); cbn;
    [|reflexivity].
  destruct (body _ n); reflexivity.
Qed.

(** ** The zero series *)

Lemma zeroSeries_map dx :
  zeroSeries dx =
    map (fun i => {| x := station dx i; value := 0 |}) (seq 0 (points + 1)).
Proof.
  unfold zeroSeries. generalize (points + 1)%nat. intros n.
  induction n as [|n IH]; [reflexivity|].
  rewrite fold_left_seq_S, IH, seq_S, map_app. reflexivity.
Qed.

Lemma zeroSeries_length dx : List.length (zeroSeries dx) = 501%nat.
Proof. rewrite zeroSeries_map, length_map, length_seq. reflexivity. Qed.

Lemma nth_map_seq (f : nat -> Sample) (n i : nat) :
  (i < n)%nat -> nth i (map f (seq 0 n)) dummy = f i.
Proof.
  intros Hi. rewrite (nth_indep _ dummy (f 0%nat)).
  - rewrite map_nth, seq_nth; [reflexivity | exact Hi].
  - rewrite length_map, length_seq. exact Hi.
Qed.

Lemma zeroSeries_nth dx i :
  (i < 501)%nat ->
  nth i (zeroSeries dx) dummy = {| x := station dx i; value := 0 |}.
Proof.
  intros Hi. rewrite zeroSeries_map.
  apply (nth_map_seq (fun i => {| x := station dx i; value := 0 |})).
  exact Hi.
Qed.

(** ** Torsion *)

Lemma internalTorque_filter Tx ls xs :
  internalTorque Tx (filter isTorque ls) xs == Tx + torqueUpTo ls xs.
Proof.
  unfold internalTorque. revert Tx.
  induction ls as [|l rest IH]; intros Tx; cbn [filter fold_left torqueUpTo fold_right].
  - lra.
  - fold (torqueUpTo rest xs). destruct (isTorque l); cbn [andb fold_left].
    + rewrite IH. unfold Qgeb, Qleb. destruct (Qle_bool _ _); lra.
    + apply IH.
Qed.

Lemma sum_magnitudes_filter ls acc :
  fold_left (fun a l => a + magnitude l) (filter isTorque ls) acc
    == acc + totalTorque ls.
Proof.
  revert acc. induction ls as [|l rest IH]; intros acc;
    cbn [filter fold_left totalTorque fold_right].
  - lra.
  - fold (totalTorque rest). destruct (isTorque l); cbn [fold_left].
    + rewrite IH. lra.
    + apply IH.
Qed.

Lemma reactionTorque_fixed beam :
  fixedAtOrigin beam ->
  reactionTorque beam (torqueLoadsOf beam) == - totalTorque (loads beam).
Proof.
  intros [s [Hin [Ht Hp]]]. unfold reactionTorque.
  destruct (find _ (supports beam)) eqn:Hf.
  - unfold torqueLoadsOf. rewrite sum_magnitudes_filter. lra.
  - apply find_none with (x := s) in Hf; [|exact Hin].
    unfold isFixed in Hf. rewrite Ht in Hf. cbn in Hf.
    apply Qeq_bool_iff in Hp. congruence.
Qed.

Lemma reactionTorque_free beam :
  ~ fixedAtOrigin beam -> reactionTorque beam (torqueLoadsOf beam) = 0.
Proof.
  intros Hn. unfold reactionTorque.
  destruct (find _ (supports beam)) as [s|] eqn:Hf; [|reflexivity].
  exfalso. apply Hn. apply find_some in Hf. destruct Hf as [Hin Hs].
  apply andb_true_iff in Hs. destruct Hs as [Hfx Hp].
  exists s. split; [exact Hin|]. split.
  - unfold isFixed in Hfx. destruct (stype s); try discriminate. reflexivity.
  - apply Qeq_bool_iff, Hp.
Qed.

Lemma twist_loop Tx_react GJ dx torqueLoads :
  ~ GJ == 0 ->
  forall n, exists t,
    forM (twistStep Tx_react GJ dx torqueLoads) (seq 0 n) twist0 = Some t /\
    twistArr t =
      map (fun i => {| x := station dx i;
                       value := twistAt Tx_react GJ dx torqueLoads i |})
        (seq 0 n) /\
    phi t = twistAt Tx_react GJ dx torqueLoads (n - 1).
Proof.
  intros HGJ. induction n as [|n [t [Hrun [Harr Hphi]]]].
  - exists twist0. repeat split.
  - rewrite forM_seq_S, Hrun. cbn [obind]. unfold twistStep.
    destruct n as [|m].
    + cbn [Nat.ltb Nat.leb obind]. eexists. split; [reflexivity|].
      cbn [twistArr phi]. rewrite Harr, Hphi. split; reflexivity.
    + cbn [Nat.ltb Nat.leb]. rewrite (jsdiv_some _ _ HGJ). cbn [obind].
      eexists. split; [reflexivity|]. cbn [twistArr phi].
      rewrite Harr, Hphi. replace (S m - 1)%nat with m by lia.
      replace (S (S m) - 1)%nat with (S m) by lia.
      split; [|reflexivity].
      rewrite (seq_S (S m)), map_app. reflexivity.
Qed.

Lemma noTorque_filter beam : noTorque beam -> torqueLoadsOf beam = [].
Proof.
  unfold noTorque, torqueLoadsOf. intros H.
  induction (loads beam) as [|l rest IH]; [reflexivity|]. cbn.
  assert (Hl : isTorque l = false).
  { unfold isTorque. specialize (H l (or_introl eq_refl)).
    destruct (type l); try reflexivity. congruence. }
  rewrite Hl. apply IH. intros l' Hin. apply H. right. exact Hin.
Qed.

Lemma someTorque_filter beam :
  someTorque beam -> (0 <? List.length (torqueLoadsOf beam))%nat = true.
Proof.
  intros [l [Hin Ht]]. unfold torqueLoadsOf.
  assert (Hf : In l (filter isTorque (loads beam))).
  { apply filter_In. split; [exact Hin|]. unfold isTorque. rewrite Ht.
    reflexivity. }
  destruct (filter isTorque (loads beam)); [contradiction | reflexivity].
Qed.

Lemma obind_some {A B : Type} (a : option A) (k : A -> option B) (b : B) :
  obind a k = Some b -> exists v, a = Some v /\ k v = Some b.
Proof.
  destruct a as [v|]; cbn; [|discriminate]. intros H. exists v. auto.
Qed.

Lemma some_inj {A : Type} (a b : A) : Some a = Some b -> a = b.
Proof. intros H. injection H. auto. Qed.


(** The torsion fields of the result are those of the torsion stage,
    whatever the other stages do. *)
Lemma solveBeam_torsion toFixed toExponential numberToString beam :
  let r := solveBeam toFixed toExponential numberToString beam in
  hasTorsion r = (0 <? List.length (torqueLoadsOf beam))%nat /\
  angleOfTwist r = option_map fst (torsion beam) /\
  maxAngleOfTwist r = option_map snd (torsion beam).
Proof.
  unfold solveBeam. cbn [hasTorsion angleOfTwist maxAngleOfTwist]. auto.
Qed.

Lemma internalTorque_torqueAt beam xs :
  internalTorque (reactionTorque beam (torqueLoadsOf beam)) (torqueLoadsOf beam)
    xs == torqueAt beam xs.
Proof. unfold torqueAt, torqueLoadsOf. apply internalTorque_filter. Qed.

Lemma torsion_run beam :
  someTorque beam -> ~ G beam * J beam == 0 ->
  exists maxT,
    torsion beam =
      Some (map (fun i =>
                   {| x := station (stepLength beam) i;
                      value := twistAt (reactionTorque beam (torqueLoadsOf beam))
                                 (G beam * J beam) (stepLength beam)
                                 (torqueLoadsOf beam) i |})
              (seq 0 501), maxT).
Proof.
  intros Hsome HGJ. unfold torsion. rewrite (someTorque_filter _ Hsome).
  change (points + 1)%nat with 501%nat.
  destruct (twist_loop (reactionTorque beam (torqueLoadsOf beam))
              (G beam * J beam) (stepLength beam) (torqueLoadsOf beam) HGJ 501)
    as [t [Hrun [Harr _]]].
  rewrite Hrun. cbn [obind]. exists (maxTwist t). rewrite Harr. reflexivity.
Qed.

(** C6.  Without torque loads the angle of twist is zero at each of the 501
    stations and the flag is false.  With torque loads (and [G J] non-zero,
    as the data model requires) the series starts at [phi(0) = 0] and
    advances by [(T(x_i) / (G J)) * dx], where [T(x)] is the reaction torque
    plus the torque loads at positions up to [x]; the reaction torque is
    minus the sum of all torque loads when a fixed support sits at position
    0, and 0 otherwise.  The flag and the series are those of the result of
    [solveBeam], whatever its other stages do. *)
Theorem twist_series :
  forall toFixed toExponential numberToString (beam : BeamConfig),
    let dx := stepLength beam in
    let r := solveBeam toFixed toExponential numberToString beam in
    (noTorque beam ->
       torsion beam = Some (zeroSeries dx, 0) /\
       List.length (zeroSeries dx) = 501%nat /\
       (forall i, (i < 501)%nat ->
          nth i (zeroSeries dx) dummy = {| x := station dx i; value := 0 |}) /\
       hasTorsion r = false /\ angleOfTwist r = Some (zeroSeries dx) /\
       maxAngleOfTwist r = Some 0) /\
    (someTorque beam -> hasTorsion r = true) /\
    (someTorque beam -> ~ G beam * J beam == 0 ->
       exists series maxT,
         torsion beam = Some (series, maxT) /\
         List.length series = 501%nat /\
         (forall i, (i < 501)%nat -> x (nth i series dummy) = station dx i) /\
         value (nth 0 series dummy) = 0 /\
         (forall i, (1 <= i < 501)%nat ->
            value (nth i series dummy)
              == value (nth (i - 1) series dummy)
                 + (torqueAt beam (station dx i) / (G beam * J beam)) * dx) /\
         angleOfTwist r = Some series /\ maxAngleOfTwist r = Some maxT) /\
    (fixedAtOrigin beam ->
       reactionTorque beam (torqueLoadsOf beam)
         == - totalTorque (loads beam)) /\
    (~ fixedAtOrigin beam -> reactionTorque beam (torqueLoadsOf beam) = 0).
Proof.
  intros toFixed toExponential numberToString beam dx r.
  destruct (solveBeam_torsion toFixed toExponential numberToString beam)
    as [Hflag [Hser Hmax]].
  fold r in Hflag, Hser, Hmax.
  split; [|split; [|split; [|split]]].
  - intros Hno.
    assert (Ht : torsion beam = Some (zeroSeries dx, 0)).
    { unfold torsion. rewrite (noTorque_filter _ Hno). reflexivity. }
    split; [exact Ht|]. split; [apply zeroSeries_length|].
    split; [apply zeroSeries_nth|].
    rewrite Hflag, Hser, Hmax, Ht, (noTorque_filter _ Hno).
    repeat split.
  - intros Hsome. rewrite Hflag. apply someTorque_filter, Hsome.
  - intros Hsome HGJ. destruct (torsion_run beam Hsome HGJ) as [maxT Ht].
    fold dx in Ht.
    set (f := fun i : nat =>
                {| x := station dx i;
                   value := twistAt (reactionTorque beam (torqueLoadsOf beam))
                              (G beam * J beam) dx (torqueLoadsOf beam) i |})
      in Ht.
    assert (Hnth : forall i, (i < 501)%nat ->
                     nth i (map f (seq 0 501)) dummy = f i).
    { intros i Hi. apply nth_map_seq, Hi. }
    exists (map f (seq 0 501)), maxT. split; [exact Ht|].
    split; [rewrite length_map, length_seq; reflexivity|].
    split; [|split; [|split]].
    + intros i Hi. rewrite (Hnth i Hi). reflexivity.
    + rewrite (Hnth 0%nat) by lia. reflexivity.
    + intros i [Hi1 Hi2]. destruct i as [|j]; [lia|].
      replace (S j - 1)%nat with j by lia.
      rewrite (Hnth (S j)) by lia. rewrite (Hnth j) by lia.
      unfold f. cbn [value twistAt].
      rewrite internalTorque_torqueAt. reflexivity.
    + rewrite Hser, Hmax, Ht. split; reflexivity.
  - apply reactionTorque_fixed.
  - apply reactionTorque_free.
Qed.

(** Two simple supports at one position leave the reactions, and with them
    the shear and moment, undetermined (the span [L] of [sumM / L] is
    zero); the torsion fields of the result are not affected. *)
Example twist_fields_of_an_unsolved_beam :
  let beam := mkBeam 10 [mkSupport "s1" pin 5; mkSupport "s2" roller 5] [] in
  let r := solveBeam noText noExponential noNumber beam in
  reactions r = None /\ shearForce r = None /\ steps r = None /\
  hasTorsion r = false /\
  angleOfTwist r = Some (zeroSeries (stepLength beam)) /\
  maxAngleOfTwist r = Some 0.
Proof. intros beam r. repeat split. Qed.

(** ** The shear and moment series *)

Lemma forcesTo_S beamLength dx allLoads n :
  forcesTo beamLength dx allLoads (S n) =
    forcesStep beamLength dx allLoads (forcesTo beamLength dx allLoads n) n.
Proof. apply fold_left_seq_S. Qed.

Lemma forcesStep_momentArr beamLength dx allLoads f i :
  momentArr (forcesStep beamLength dx allLoads f i) =
    push (momentArr f)
      {| x := station dx i; value := momentAt beamLength dx allLoads i |}.
Proof.
  unfold forcesStep, momentAt.
  destruct (cutForces beamLength allLoads (station dx i)) as [V M_val].
  reflexivity.
Qed.

Lemma forcesStep_shearArr beamLength dx allLoads f i :
  shearArr (forcesStep beamLength dx allLoads f i) =
    push (shearArr f)
      {| x := station dx i; value := shearAt beamLength dx allLoads i |}.
Proof.
  unfold forcesStep, shearAt.
  destruct (cutForces beamLength allLoads (station dx i)) as [V M_val].
  reflexivity.
Qed.

Lemma forcesStep_maxBM beamLength dx allLoads f i :
  maxBM (forcesStep beamLength dx allLoads f i) =
    if Qgtb (Qabs (momentAt beamLength dx allLoads i)) (maxBM f)
    then Qabs (momentAt beamLength dx allLoads i) else maxBM f.
Proof.
  unfold forcesStep, momentAt.
  destruct (cutForces beamLength allLoads (station dx i)) as [V M_val].
  reflexivity.
Qed.

Lemma forcesTo_momentArr beamLength dx allLoads n :
  momentArr (forcesTo beamLength dx allLoads n) =
    map (fun i => {| x := station dx i;
                     value := momentAt beamLength dx allLoads i |}) (seq 0 n).
Proof.
  induction n as [|n IH]; [reflexivity|].
  rewrite forcesTo_S, forcesStep_momentArr, IH, seq_S, map_app. reflexivity.
Qed.

Lemma forcesTo_shearArr beamLength dx allLoads n :
  shearArr (forcesTo beamLength dx allLoads n) =
    map (fun i => {| x := station dx i;
                     value := shearAt beamLength dx allLoads i |}) (seq 0 n).
Proof.
  induction n as [|n IH]; [reflexivity|].
  rewrite forcesTo_S, forcesStep_shearArr, IH, seq_S, map_app. reflexivity.
Qed.

(** [maxBM] bounds every sampled [|M|] and is one of them (or the initial 0). *)
Lemma maxBM_upper beamLength dx allLoads n :
  0 <= maxBM (forcesTo beamLength dx allLoads n) /\
  forall i, (i < n)%nat ->
    Qabs (momentAt beamLength dx allLoads i)
      <= maxBM (forcesTo beamLength dx allLoads n).
Proof.
  induction n as [|n [IH0 IH]].
  - split; [apply Qle_refl | intros i Hi; lia].
  - rewrite forcesTo_S, forcesStep_maxBM. cmp_cases.
    + split; [lra|]. intros i Hi.
      destruct (Nat.eq_dec i n) as [->|Hne]; [apply Qle_refl|].
      apply Qle_trans with (maxBM (forcesTo beamLength dx allLoads n));
        [apply IH; lia | lra].
    + split; [exact IH0|]. intros i Hi.
      destruct (Nat.eq_dec i n) as [->|Hne]; [exact Hc | apply IH; lia].
Qed.

Lemma maxBM_attained beamLength dx allLoads n :
  maxBM (forcesTo beamLength dx allLoads n) = 0 \/
  exists i, (i < n)%nat /\
    maxBM (forcesTo beamLength dx allLoads n)
      = Qabs (momentAt beamLength dx allLoads i).
Proof.
  induction n as [|n IH]; [left; reflexivity|].
  rewrite forcesTo_S, forcesStep_maxBM. destruct (Qgtb _ _).
  - right. exists n. split; [lia | reflexivity].
  - destruct IH as [IH|[i [Hi IH]]]; [left; exact IH|].
    right. exists i. split; [lia | exact IH].
Qed.

(** The stations lie between 0 and the beam length. *)
Lemma station_range (L : Q) (i : nat) :
  0 <= L -> (i <= 500)%nat ->
  0 <= station (L / Qpoints) i /\ station (L / Qpoints) i <= L.
Proof.
  intros HL Hi. unfold station.
  assert (H0 : 0 <= inject_Z (Z.of_nat i)).
  { change 0 with (inject_Z 0). rewrite <- Zle_Qle. lia. }
  assert (H1 : inject_Z (Z.of_nat i) <= 500).
  { change 500 with (inject_Z 500). rewrite <- Zle_Qle. lia. }
  set (q := inject_Z (Z.of_nat i)) in *.
  assert (Hq : q * (L / Qpoints) == (q * L) / 500).
  { unfold Qpoints, points. change (inject_Z (Z.of_nat 500)) with 500. field. }
  rewrite Hq. split.
  - apply Qle_shift_div_l; [reflexivity|]. nra.
  - apply Qle_shift_div_r; [reflexivity|]. nra.
Qed.

Lemma station_mid (L : Q) : station (L / Qpoints) 250 == L / 2.
Proof.
  unfold station, Qpoints, points.
  change (inject_Z (Z.of_nat 500)) with 500.
  change (inject_Z (Z.of_nat 250)) with 250. field.
Qed.

(** ** A point load at midspan of a simply supported beam *)

(** [lra] after the quotients by the constants 2 and 4 are made products. *)
Ltac lraq :=
  unfold Qdiv in *;
  change (/ 2) with (1 # 2) in *; change (/ 4) with (1 # 4) in *;
  lra.

Lemma midspan_cut (bl L P : Q) (l ra rb : Load) (xs : Q) :
  type l = point -> position l == L / 2 -> magnitude l == P ->
  type ra = point -> position ra == 0 -> magnitude ra == - (P / 2) ->
  type rb = point -> position rb == L -> magnitude rb == - (P / 2) ->
  0 <= xs -> xs <= L ->
  exists m,
    snd (cutForces bl [l; ra; rb] xs) == P * m /\
    0 <= m /\ m <= L / 4 /\ (xs == L / 2 -> m == L / 4).
Proof.
  intros Ht Hp Hm Hta Hpa Hma Htb Hpb Hmb H0 HL.
  unfold cutForces. cbn [fold_left]. unfold cutEffect.
  rewrite Ht, Hta, Htb.
  destruct (Qgeb xs (position l)) eqn:C1;
    [apply Qgeb_ge in C1 | apply Qgeb_lt in C1];
  (destruct (Qgeb xs (position ra)) eqn:C2;
    [apply Qgeb_ge in C2 | apply Qgeb_lt in C2; exfalso; lra]);
  (destruct (Qgeb xs (position rb)) eqn:C3;
    [apply Qgeb_ge in C3 | apply Qgeb_lt in C3]);
  cbn [snd].
  - assert (Hx : xs == L) by lra.
    exists ((L - xs) / 2). split; [|split; [|split; [|intros Hmid]]; lraq].
    rewrite Hm, Hma, Hmb, Hp, Hpa, Hpb, Hx. field.
  - exists ((L - xs) / 2). split; [|split; [|split; [|intros Hmid]]; lraq].
    rewrite Hm, Hma, Hp, Hpa. field.
  - exfalso. lraq.
  - exists (xs / 2). split; [|split; [|split; [|intros Hmid]]; lraq].
    rewrite Hma, Hpa. field.
Qed.

Lemma Qabs_half (q : Q) : Qabs (q / 2) == Qabs q / 2.
Proof. unfold Qdiv. rewrite Qabs_Qmult. reflexivity. Qed.

Section Midspan.

Variable toFixed : xnum -> nat -> string.
Variables (beam : BeamConfig) (a b : Support) (l : Load).
Hypothesis HL : 0 < length beam.
Hypothesis Hsup : supports beam = [a; b] \/ supports beam = [b; a].
Hypothesis Hpa : sposition a == 0.
Hypothesis Hpb : sposition b == length beam.
Hypothesis Hfa : isFixed a = false.
Hypothesis Hfb : isFixed b = false.
Hypothesis Hid : sid a <> sid b.
Hypothesis Hloads : loads beam = [l].
Hypothesis Ht : type l = point.
Hypothesis Hp : position l == length beam / 2.

Lemma midspan_sorted : sortByPosition (supports beam) = [a; b].
Proof.
  destruct Hsup as [-> | ->]; cbn.
  - assert (H : Qleb (sposition a) (sposition b) = true)
      by (apply Qleb_le; lra).
    rewrite H. reflexivity.
  - assert (H : Qleb (sposition b) (sposition a) = false)
      by (apply Qleb_gt; lra).
    rewrite H. reflexivity.
Qed.

Lemma midspan_noFixed : noFixed (supports beam).
Proof.
  intros s Hs. destruct Hsup as [H | H]; rewrite H in Hs;
    destruct Hs as [<-|[<-|[]]]; assumption.
Qed.

Lemma midspan_find_a :
  find (fun s => String.eqb (sid s) (sid a)) (supports beam) = Some a.
Proof.
  destruct Hsup as [-> | ->]; cbn.
  - rewrite String.eqb_refl. reflexivity.
  - assert (H : String.eqb (sid b) (sid a) = false)
      by (apply String.eqb_neq; congruence).
    rewrite H, String.eqb_refl. reflexivity.
Qed.

Lemma midspan_find_b :
  find (fun s => String.eqb (sid s) (sid b)) (supports beam) = Some b.
Proof.
  destruct Hsup as [-> | ->]; cbn.
  - assert (H : String.eqb (sid a) (sid b) = false)
      by (apply String.eqb_neq; congruence).
    rewrite H, String.eqb_refl. reflexivity.
  - rewrite String.eqb_refl. reflexivity.
Qed.

Lemma midspan_totals steps :
  fst (getTotalLoads toFixed (loads beam) (sposition a) steps) =
    (0 + magnitude l, 0 + magnitude l * (position l - sposition a)).
Proof.
  unfold getTotalLoads. rewrite Hloads. cbn [fold_left fst].
  unfold addLoad. rewrite Ht. reflexivity.
Qed.

(** The reactions: [P/2] at each support. *)
Lemma midspan_reactions steps :
  exists RA RB st,
    solveReactions toFixed beam steps =
      Some ([(sid a, {| Fy := RA; Mz := None |});
             (sid b, {| Fy := RB; Mz := None |})], st) /\
    RA == magnitude l / 2 /\ RB == magnitude l / 2.
Proof.
  rewrite (solveReactions_two toFixed beam steps a b midspan_noFixed
             midspan_sorted).
  rewrite midspan_totals. cbn [fst snd].
  rewrite jsdiv_some by lra. cbn [obind setProp].
  assert (H : String.eqb (sid a) (sid b) = false)
    by (apply String.eqb_neq; congruence).
  rewrite H.
  eexists. eexists. eexists. split; [reflexivity|].
  split; rewrite Hp, Hpa, Hpb; field; lra.
Qed.

(** The effective loads: the load and the two reactions as upward point
    forces. *)
Lemma midspan_effective RA RB :
  RA == magnitude l / 2 -> RB == magnitude l / 2 ->
  tol_reaction < Qabs (magnitude l) / 2 ->
  exists la lb,
    effectiveLoads beam [(sid a, {| Fy := RA; Mz := None |});
                         (sid b, {| Fy := RB; Mz := None |})] = [l; la; lb] /\
    type la = point /\ position la == 0 /\ magnitude la == - (magnitude l / 2) /\
    type lb = point /\ position lb == length beam /\
    magnitude lb == - (magnitude l / 2).
Proof.
  intros HRA HRB Hbig.
  assert (HA : Qgtb (Math_abs RA) tol_reaction = true).
  { apply Qgtb_gt. unfold Math_abs. rewrite HRA, Qabs_half. exact Hbig. }
  assert (HB : Qgtb (Math_abs RB) tol_reaction = true).
  { apply Qgtb_gt. unfold Math_abs. rewrite HRB, Qabs_half. exact Hbig. }
  unfold effectiveLoads. rewrite Hloads. cbn [fold_left].
  unfold addReaction. rewrite midspan_find_a, midspan_find_b.
  cbn [Fy Mz]. rewrite HA, HB. unfold push. cbn [List.app].
  eexists. eexists. split; [reflexivity|].
  cbn [type position magnitude].
  repeat split; try assumption; rewrite ?HRA, ?HRB; reflexivity.
Qed.

End Midspan.

Lemma internalForces_forcesTo beam ls :
  internalForces beam ls = forcesTo (length beam) (stepLength beam) ls 501.
Proof.
  unfold internalForces, forcesTo. change (points + 1)%nat with 501%nat.
  reflexivity.
Qed.

Lemma Qabs_scaled (P m : Q) : 0 <= m -> Qabs (P * m) == Qabs P * m.
Proof. intros Hm. rewrite Qabs_Qmult, (Qabs_pos m Hm). reflexivity. Qed.

(** C5, for a load large enough for its reactions to enter the effective
    loads.  A beam of length [L > 0] on two simple supports at 0 and [L]
    carries one point load [P] at [L/2], with [|P|/2] above the threshold
    [1e-10]: both reactions are [P/2]; the largest [|M|] over the 501
    stations is [|P| L / 4] (so [P L / 4] for a downward load), and the
    station 250, at [x = L/2], attains it. *)
Theorem midspan_point_load :
  forall toFixed (beam : BeamConfig) (a b : Support) (l : Load)
         (steps : list SolverStep),
    0 < length beam ->
    supports beam = [a; b] \/ supports beam = [b; a] ->
    sposition a == 0 -> sposition b == length beam ->
    isFixed a = false -> isFixed b = false -> sid a <> sid b ->
    loads beam = [l] -> type l = point ->
    position l == length beam / 2 ->
    tol_reaction < Qabs (magnitude l) / 2 ->
    exists RA RB st,
      let r := [(sid a, {| Fy := RA; Mz := None |});
                (sid b, {| Fy := RB; Mz := None |})] in
      let f := internalForces beam (effectiveLoads beam r) in
      solveReactions toFixed beam steps = Some (r, st) /\
      RA == magnitude l / 2 /\ RB == magnitude l / 2 /\
      List.length (momentArr f) = 501%nat /\
      maxBM f == Qabs (magnitude l) * length beam / 4 /\
      (0 <= magnitude l -> maxBM f == magnitude l * length beam / 4) /\
      x (nth 250 (momentArr f) dummy) == length beam / 2 /\
      Qabs (value (nth 250 (momentArr f) dummy)) == maxBM f /\
      (forall i, (i < 501)%nat ->
         Qabs (value (nth i (momentArr f) dummy)) <= maxBM f).
Proof.
  intros toFixed beam a b l steps HL Hsup Hpa Hpb Hfa Hfb Hid Hloads Ht Hp Hbig.
  destruct (midspan_reactions toFixed beam a b l HL Hsup Hpa Hpb Hfa Hfb Hid
              Hloads Ht Hp steps) as [RA [RB [st [Hrun [HRA HRB]]]]].
  exists RA, RB, st. cbv zeta.
  split; [exact Hrun|]. split; [exact HRA|]. split; [exact HRB|].
  destruct (midspan_effective beam a b l Hsup Hpa Hpb Hid Hloads RA RB HRA HRB
              Hbig)
    as [la [lb [Heff [Hta [Hla [Hma [Htb [Hlb Hmb]]]]]]]].
  rewrite Heff, internalForces_forcesTo.
  set (P := magnitude l) in *. set (L := length beam) in *.
  set (dx := stepLength beam). set (ls := [l; la; lb]).
  assert (Hcut : forall i, (i < 501)%nat ->
            exists m, momentAt L dx ls i == P * m /\ 0 <= m /\ m <= L / 4 /\
                      (i = 250%nat -> m == L / 4)).
  { intros i Hi.
    destruct (station_range L i) as [Hx0 HxL]; [lra | lia |].
    destruct (midspan_cut L L P l la lb (station dx i) Ht Hp (Qeq_refl P)
                Hta Hla Hma Htb Hlb Hmb Hx0 HxL) as [m [HM [Hm0 [HmL Hmid]]]].
    exists m. split; [exact HM|]. split; [exact Hm0|]. split; [exact HmL|].
    intros ->. apply Hmid. apply station_mid. }
  assert (Hbound : forall i, (i < 501)%nat ->
            Qabs (momentAt L dx ls i) <= Qabs P * L / 4).
  { intros i Hi. destruct (Hcut i Hi) as [m [HM [Hm0 [HmL _]]]].
    rewrite HM, (Qabs_scaled P m Hm0).
    pose proof (Qabs_nonneg P) as HP0.
    unfold Qdiv in *. change (/ 4) with (1 # 4) in *. nra. }
  assert (Hmid : Qabs (momentAt L dx ls 250) == Qabs P * L / 4).
  { destruct (Hcut 250%nat) as [m [HM [Hm0 [_ Hm]]]]; [lia|].
    rewrite HM, (Qabs_scaled P m Hm0), (Hm eq_refl). field. }
  destruct (maxBM_upper L dx ls 501) as [Hmax0 Hupper].
  assert (Hmax : maxBM (forcesTo L dx ls 501) == Qabs P * L / 4).
  { apply Qle_antisym.
    - destruct (maxBM_attained L dx ls 501) as [H0|[i [Hi Hi']]].
      + rewrite H0. rewrite <- Hmid. apply Qabs_nonneg.
      + rewrite Hi'. apply Hbound, Hi.
    - rewrite <- Hmid. apply Hupper. lia. }
  assert (Hnth : forall i, (i < 501)%nat ->
            nth i (momentArr (forcesTo L dx ls 501)) dummy =
              {| x := station dx i; value := momentAt L dx ls i |}).
  { intros i Hi. rewrite forcesTo_momentArr.
    apply (nth_map_seq
             (fun i => {| x := station dx i; value := momentAt L dx ls i |})).
    exact Hi. }
  split; [rewrite forcesTo_momentArr, length_map, length_seq; reflexivity|].
  split; [exact Hmax|]. split.
  - intros HP. rewrite Hmax, (Qabs_pos P HP). reflexivity.
  - rewrite (Hnth 250%nat) by lia. cbn [x value].
    split; [apply station_mid|]. split.
    + rewrite Hmid, Hmax. reflexivity.
    + intros i Hi. rewrite (Hnth i Hi). cbn [value]. apply Hupper, Hi.
Qed.

Lemma midspan_point_load_witness :
  let a := mkSupport "s1" pin 0 in
  let b := mkSupport "s2" roller 10 in
  let l := mkLoad "l1" point 5 10000 None None in
  let beam := mkBeam 10 [a; b] [l] in
  exists RA RB st,
    let r := [(sid a, {| Fy := RA; Mz := None |});
              (sid b, {| Fy := RB; Mz := None |})] in
    let f := internalForces beam (effectiveLoads beam r) in
    solveReactions noText beam [] = Some (r, st) /\
    RA == magnitude l / 2 /\ RB == magnitude l / 2 /\
    List.length (momentArr f) = 501%nat /\
    maxBM f == Qabs (magnitude l) * length beam / 4 /\
    (0 <= magnitude l -> maxBM f == magnitude l * length beam / 4) /\
    x (nth 250 (momentArr f) dummy) == length beam / 2 /\
    Qabs (value (nth 250 (momentArr f) dummy)) == maxBM f /\
    (forall i, (i < 501)%nat ->
       Qabs (value (nth i (momentArr f) dummy)) <= maxBM f).
Proof.
  intros a b l beam.
  apply (midspan_point_load noText beam a b l []).
  - reflexivity.
  - left. reflexivity.
  - reflexivity.
  - reflexivity.
  - reflexivity.
  - reflexivity.
  - discriminate.
  - reflexivity.
  - reflexivity.
  - reflexivity.
  - reflexivity.
Defined.

(** C5, the claim as written fails for a load whose reactions stay under the
    threshold [1e-10]: with [P = 1e-10] on a beam of length 1 the reactions
    are [P/2] each but are not added to the effective loads, and the largest
    [|M|] is [P L / 2], reached at the beam end, not [P L / 4]. *)
Lemma tiny_midspan_load_peaks_at_the_end :
  let P := 1 # 10000000000 in
  let beam := mkBeam 1 [mkSupport "s1" pin 0; mkSupport "s2" roller 1]
                [mkLoad "l1" point (1 # 2) P None None] in
  exists r st,
    solveReactions noText beam [] = Some (r, st) /\
    reactionForce r == P /\
    effectiveLoads beam r = loads beam /\
    maxBM (internalForces beam (effectiveLoads beam r)) == P * 1 / 2 /\
    ~ maxBM (internalForces beam (effectiveLoads beam r)) == P * 1 / 4.
Proof.
  cbv zeta. eexists. eexists. split; [vm_compute; reflexivity|].
  split; [vm_compute; reflexivity|]. split; [vm_compute; reflexivity|].
  split; [vm_compute; reflexivity|]. vm_compute. intros H. discriminate H.
Qed.

(** ** Slope and deflection *)

Lemma push_fold_length {A : Type} (g : list A -> nat -> A) (idx : list nat)
    (init : list A) :
  List.length (fold_left (fun arr i => push arr (g arr i)) idx init)
    = (List.length init + List.length idx)%nat.
Proof.
  revert init. induction idx as [|i rest IH]; intros init; cbn [fold_left].
  - cbn. lia.
  - rewrite IH. unfold push. rewrite length_app. cbn. lia.
Qed.

Lemma runningIntegral_length f dx :
  List.length (runningIntegral f dx) = 501%nat.
Proof.
  unfold runningIntegral.
  rewrite (push_fold_length
             (fun arr i => nth i arr 0 + (f i + f (i + 1)%nat) / 2 * dx)).
  rewrite length_seq. reflexivity.
Qed.

Lemma arrayAt_some (arr : list Q) (k : Z) :
  (0 <= k < Z.of_nat (List.length arr))%Z ->
  arrayAt arr k = Some (nth (Z.to_nat k) arr 0).
Proof.
  intros [H0 H1]. unfold arrayAt.
  destruct (k <? 0)%Z eqn:Hk; [apply Z.ltb_lt in Hk; lia|].
  apply nth_error_nth'. lia.
Qed.

Lemma arrayAt_none (arr : list Q) (k : Z) :
  (k < 0 \/ Z.of_nat (List.length arr) <= k)%Z -> arrayAt arr k = None.
Proof.
  intros H. unfold arrayAt.
  destruct (k <? 0)%Z eqn:Hk; [reflexivity|].
  apply Z.ltb_ge in Hk. apply nth_error_None. lia.
Qed.

(** [Math.round] stays within half a unit and within [0, 500] on
    [0, 500]. *)
Lemma Math_round_near (q : Q) :
  inject_Z (Math_round q) <= q + (1 # 2) /\
  q - (1 # 2) < inject_Z (Math_round q).
Proof.
  unfold Math_round. split.
  - apply Qfloor_le.
  - pose proof (Qlt_floor (q + (1 # 2))) as H.
    rewrite inject_Z_plus in H. change (inject_Z 1) with 1 in H. lra.
Qed.

Lemma Math_round_range (q : Q) :
  0 <= q -> q <= 500 -> (0 <= Math_round q <= 500)%Z.
Proof.
  intros H0 H1. unfold Math_round. split.
  - change 0%Z with (Qfloor 0). apply Qfloor_resp_le. lra.
  - change 500%Z with (Qfloor (500 + (1 # 2))). apply Qfloor_resp_le. lra.
Qed.

Lemma stationIndex_some beam pos :
  0 < length beam -> 0 <= pos -> pos <= length beam ->
  exists k,
    stationIndex beam pos = Some k /\ (0 <= k <= 500)%Z /\
    Qabs (station (stepLength beam) (Z.to_nat k) - pos)
      <= stepLength beam / 2.
Proof.
  intros HL H0 H1. unfold stationIndex.
  rewrite jsdiv_some by lra. cbn [obind].
  set (q := pos / length beam * Qpoints).
  assert (Hq : q == (pos * 500) / length beam).
  { unfold q, Qpoints, points. change (inject_Z (Z.of_nat 500)) with 500.
    field. lra. }
  assert (Hq0 : 0 <= q).
  { rewrite Hq. apply Qle_shift_div_l; [exact HL | lra]. }
  assert (Hq1 : q <= 500).
  { rewrite Hq. apply Qle_shift_div_r; [exact HL | lra]. }
  exists (Math_round q). split; [reflexivity|].
  pose proof (Math_round_range q Hq0 Hq1) as Hr. split; [exact Hr|].
  destruct (Math_round_near q) as [Hn1 Hn2].
  unfold station, stepLength. rewrite Z2Nat.id by lia.
  set (k := inject_Z (Math_round q)) in *.
  assert (Hpos : pos == q * (length beam / Qpoints)).
  { unfold q, Qpoints, points. change (inject_Z (Z.of_nat 500)) with 500.
    field. lra. }
  assert (Hd : k * (length beam / Qpoints) - pos
               == (k - q) * (length beam / Qpoints)).
  { rewrite Hpos at 1. ring. }
  rewrite Hd.
  assert (Hdx : 0 < length beam / Qpoints).
  { apply Qlt_shift_div_l; [reflexivity | lra]. }
  set (dx := length beam / Qpoints) in *.
  apply Qabs_Qle_condition. unfold Qdiv. change (/ 2) with (1 # 2).
  split; nra.
Qed.

Lemma sorted_two_lowest ss sA sB rest :
  sortByPosition ss = sA :: sB :: rest ->
  Permutation ss (sA :: sB :: rest) /\
  (forall s, In s ss -> sposition sA <= sposition s) /\
  (forall s, In s rest -> sposition sB <= sposition s).
Proof.
  intros Hs. pose proof (sortByPosition_perm ss) as Hperm.
  pose proof (sortByPosition_sorted ss) as Hsorted. rewrite Hs in *.
  split; [exact Hperm|].
  apply StronglySorted_inv in Hsorted. destruct Hsorted as [Hrest HA].
  apply StronglySorted_inv in Hrest. destruct Hrest as [_ HB].
  rewrite Forall_forall in HA, HB. split.
  - intros s Hin. apply (Permutation_in _ Hperm) in Hin.
    destruct Hin as [<-|Hin]; [apply Qle_refl | apply HA, Hin].
  - intros s Hin. apply HB, Hin.
Qed.

(** C7.  Without a fixed support: with fewer than two supports the slope
    and deflection series are the zero series (501 stations, value 0); with
    at least two, [A] and [B] being the first two supports in position
    order (inside the beam, at distinct positions), the constants are read
    at the stations nearest to [p_A] and [p_B] and are
    [C1 = -(D(x_b) - D(x_a)) / (p_B - p_A)] and [C2 = -D(x_a) - C1 p_A],
    and the series are filled from them. *)
Theorem simple_support_constants :
  forall (beam : BeamConfig) (bm : list Sample),
    noFixed (supports beam) ->
    let dx := stepLength beam in
    let slopeEI := slopeIntegral bm dx in
    let D := deflectionIntegral slopeEI dx in
    ((List.length (supports beam) < 2)%nat ->
       deflectionOf beam bm =
         Some {| slopeArr := zeroSeries dx; deflArr := zeroSeries dx;
                 maxDef := 0 |} /\
       List.length (zeroSeries dx) = 501%nat /\
       (forall i, (i < 501)%nat -> value (nth i (zeroSeries dx) dummy) = 0)) /\
    (forall sA sB rest,
       sortByPosition (supports beam) = sA :: sB :: rest ->
       0 < length beam ->
       0 <= sposition sA -> sposition sA <= length beam ->
       0 <= sposition sB -> sposition sB <= length beam ->
       ~ sposition sA == sposition sB ->
       Permutation (supports beam) (sA :: sB :: rest) /\
       (forall s, In s (supports beam) -> sposition sA <= sposition s) /\
       (forall s, In s rest -> sposition sB <= sposition s) /\
       exists idxA idxB C1 C2,
         stationIndex beam (sposition sA) = Some (Z.of_nat idxA) /\
         stationIndex beam (sposition sB) = Some (Z.of_nat idxB) /\
         (idxA <= 500)%nat /\ (idxB <= 500)%nat /\
         Qabs (station dx idxA - sposition sA) <= dx / 2 /\
         Qabs (station dx idxB - sposition sB) <= dx / 2 /\
         simpleConstants beam sA sB D = Some (C1, C2) /\
         C1 = - (nth idxB D 0 - nth idxA D 0)
                / (sposition sB - sposition sA) /\
         C2 = - nth idxA D 0 - C1 * sposition sA /\
         deflectionOf beam bm =
           forM (fillStep slopeEI D C1 C2 (E beam * I beam) dx)
             (seq 0 (points + 1)) defl0).
Proof.
  intros beam bm Hno dx slopeEI D.
  pose proof (proj2 (find_none_noFixed _) Hno) as Hfind. split.
  - intros Hlen. split; [|split].
    + unfold deflectionOf. rewrite Hfind.
      rewrite <- sortByPosition_length in Hlen.
      destruct (sortByPosition (supports beam)) as [|s1 [|s2 rest]];
        try reflexivity.
      cbn in Hlen. lia.
    + apply zeroSeries_length.
    + intros i Hi. rewrite (zeroSeries_nth dx i Hi). reflexivity.
  - intros sA sB rest Hs HL HA0 HA1 HB0 HB1 Hne.
    destruct (sorted_two_lowest _ _ _ _ Hs) as [Hperm [HlowA HlowB]].
    split; [exact Hperm|]. split; [exact HlowA|]. split; [exact HlowB|].
    destruct (stationIndex_some beam (sposition sA) HL HA0 HA1)
      as [kA [HkA [HrA HnA]]].
    destruct (stationIndex_some beam (sposition sB) HL HB0 HB1)
      as [kB [HkB [HrB HnB]]].
    assert (HlenD : List.length D = 501%nat) by apply runningIntegral_length.
    assert (HC : simpleConstants beam sA sB D =
                 Some (- (nth (Z.to_nat kB) D 0 - nth (Z.to_nat kA) D 0)
                         / (sposition sB - sposition sA),
                       - nth (Z.to_nat kA) D 0
                       - (- (nth (Z.to_nat kB) D 0 - nth (Z.to_nat kA) D 0)
                            / (sposition sB - sposition sA)) * sposition sA)).
    { unfold simpleConstants. rewrite HkA, HkB. cbn [obind].
      rewrite !arrayAt_some by (rewrite HlenD; lia). cbn [obind].
      rewrite jsdiv_some by lra. reflexivity. }
    exists (Z.to_nat kA), (Z.to_nat kB). eexists. eexists.
    rewrite !Z2Nat.id by lia.
    split; [exact HkA|]. split; [exact HkB|].
    split; [lia|]. split; [lia|].
    split; [exact HnA|]. split; [exact HnB|].
    split; [exact HC|]. split; [reflexivity|]. split; [reflexivity|].
    unfold deflectionOf. rewrite Hfind, Hs.
    fold dx. fold slopeEI. fold D. rewrite HC. reflexivity.
Qed.

Lemma simple_support_constants_witness :
  let beam := mkBeam 10 [mkSupport "s1" pin 0; mkSupport "s2" roller 10]
                [mkLoad "l1" point 5 10000 None None] in
  let bm := momentArr (internalForces beam (loads beam)) in
  let dx := stepLength beam in
  let slopeEI := slopeIntegral bm dx in
  let D := deflectionIntegral slopeEI dx in
  ((List.length (supports beam) < 2)%nat ->
     deflectionOf beam bm =
       Some {| slopeArr := zeroSeries dx; deflArr := zeroSeries dx;
               maxDef := 0 |} /\
     List.length (zeroSeries dx) = 501%nat /\
     (forall i, (i < 501)%nat -> value (nth i (zeroSeries dx) dummy) = 0)) /\
  (forall sA sB rest,
     sortByPosition (supports beam) = sA :: sB :: rest ->
     0 < length beam ->
     0 <= sposition sA -> sposition sA <= length beam ->
     0 <= sposition sB -> sposition sB <= length beam ->
     ~ sposition sA == sposition sB ->
     Permutation (supports beam) (sA :: sB :: rest) /\
     (forall s, In s (supports beam) -> sposition sA <= sposition s) /\
     (forall s, In s rest -> sposition sB <= sposition s) /\
     exists idxA idxB C1 C2,
       stationIndex beam (sposition sA) = Some (Z.of_nat idxA) /\
       stationIndex beam (sposition sB) = Some (Z.of_nat idxB) /\
       (idxA <= 500)%nat /\ (idxB <= 500)%nat /\
       Qabs (station dx idxA - sposition sA) <= dx / 2 /\
       Qabs (station dx idxB - sposition sB) <= dx / 2 /\
       simpleConstants beam sA sB D = Some (C1, C2) /\
       C1 = - (nth idxB D 0 - nth idxA D 0)
              / (sposition sB - sposition sA) /\
       C2 = - nth idxA D 0 - C1 * sposition sA /\
       deflectionOf beam bm =
         forM (fillStep slopeEI D C1 C2 (E beam * I beam) dx)
           (seq 0 (points + 1)) defl0).
Proof.
  intros beam bm.
  apply (simple_support_constants beam bm).
  intros s [<-|[<-|[]]]; reflexivity.
Defined.

(** ** The steps log *)

Lemma getTotalLoads_frame toFixed ls fixedPos steps :
  getTotalLoads toFixed ls fixedPos steps =
    (fst (getTotalLoads toFixed ls fixedPos []),
     (steps ++ snd (getTotalLoads toFixed ls fixedPos []))%list).
Proof. reflexivity. Qed.

(** The log handed to [solveReactions] is only appended to, and the
    reactions do not depend on it. *)
Lemma solveReactions_frame toFixed beam steps :
  solveReactions toFixed beam steps =
    match solveReactions toFixed beam [] with
    | Some (r, st) => Some (r, (steps ++ st)%list)
    | None => None
    end.
Proof.
  unfold solveReactions.
  destruct (find isFixed (sortByPosition (supports beam))) as [f|].
  - rewrite (getTotalLoads_frame toFixed (loads beam) (sposition f) steps).
    cbn [fst snd getTotalLoads]. unfold push.
    rewrite <- app_assoc. reflexivity.
  - destruct (sortByPosition (supports beam)) as [|s1 [|s2 [|s3 rest]]];
      try reflexivity.
    rewrite (getTotalLoads_frame toFixed (loads beam) (sposition s1) steps).
    cbn [fst snd getTotalLoads].
    destruct (jsdiv _ _); [|reflexivity]. unfold push.
    rewrite <- app_assoc. reflexivity.
Qed.

(** The reactions of the result are those of the reaction solver on any
    log, and the shear and moment fields are the loop of lines 99-151 over
    the effective loads of these reactions. *)
Lemma solveBeam_forces toFixed toExponential numberToString beam steps :
  let r := solveBeam toFixed toExponential numberToString beam in
  reactions r = option_map fst (solveReactions toFixed beam steps) /\
  forall reacs, reactions r = Some reacs ->
    let f := internalForces beam (effectiveLoads beam reacs) in
    shearForce r = Some (shearArr f) /\ bendingMoment r = Some (momentArr f) /\
    maxShearForce r = Some (maxSF f) /\ maxBendingMoment r = Some (maxBM f).
Proof.
  unfold solveBeam.
  cbn [reactions shearForce bendingMoment maxShearForce maxBendingMoment].
  rewrite (solveReactions_frame toFixed beam steps),
    (solveReactions_frame toFixed beam [_; _]).
  destruct (solveReactions toFixed beam []) as [[reacs st]|];
    cbn [option_map fst].
  - split; [reflexivity|]. intros reacs' H. apply some_inj in H. subst reacs'.
    repeat split.
  - split; [reflexivity|]. intros reacs' H. discriminate H.
Qed.

(** ** [getTotalLoads]: change of the reference point *)

Lemma addLoad_shift toFixed p p' t t' l :
  sumFy (addLoad toFixed p' t' l) - sumFy t'
    == sumFy (addLoad toFixed p t l) - sumFy t /\
  sumM (addLoad toFixed p' t' l) - sumM t'
    == (sumM (addLoad toFixed p t l) - sumM t)
       - (sumFy (addLoad toFixed p t l) - sumFy t) * (p' - p).
Proof.
  unfold addLoad. destruct (type l); cbn [sumFy sumM];
    try (split; ring).
  destruct (Qgtb _ 0); cbn [sumFy sumM]; split; ring.
Qed.

Lemma fold_addLoad_shift toFixed p p' ls :
  forall t t',
    sumFy (fold_left (addLoad toFixed p') ls t') - sumFy t'
      == sumFy (fold_left (addLoad toFixed p) ls t) - sumFy t /\
    sumM (fold_left (addLoad toFixed p') ls t') - sumM t'
      == (sumM (fold_left (addLoad toFixed p) ls t) - sumM t)
         - (sumFy (fold_left (addLoad toFixed p) ls t) - sumFy t) * (p' - p).
Proof.
  induction ls as [|l rest IH]; intros t t'; cbn [fold_left].
  - split; ring.
  - destruct (IH (addLoad toFixed p t l) (addLoad toFixed p' t' l))
      as [IHF IHM].
    destruct (addLoad_shift toFixed p p' t t' l) as [HF HM].
    set (F1 := sumFy (addLoad toFixed p t l)) in *.
    set (M1 := sumM (addLoad toFixed p t l)) in *.
    set (F1' := sumFy (addLoad toFixed p' t' l)) in *.
    set (M1' := sumM (addLoad toFixed p' t' l)) in *.
    set (F2 := sumFy (fold_left _ rest (addLoad toFixed p t l))) in *.
    set (M2 := sumM (fold_left _ rest (addLoad toFixed p t l))) in *.
    set (F2' := sumFy (fold_left _ rest (addLoad toFixed p' t' l))) in *.
    set (M2' := sumM (fold_left _ rest (addLoad toFixed p' t' l))) in *.
    split.
    + lra.
    + assert (E1 : M2' == M1' + (M2 - M1 - (F2 - F1) * (p' - p))) by lra.
      assert (E2 : M1' == sumM t' + (M1 - sumM t - (F1 - sumFy t) * (p' - p)))
        by lra.
      rewrite E1, E2. ring.
Qed.

Lemma getTotalLoads_shift :
  forall toFixed (ls : list Load) (p p' : Q) (steps steps' : list SolverStep),
    fst (fst (getTotalLoads toFixed ls p' steps'))
      == fst (fst (getTotalLoads toFixed ls p steps)) /\
    snd (fst (getTotalLoads toFixed ls p' steps'))
      == snd (fst (getTotalLoads toFixed ls p steps))
         - fst (fst (getTotalLoads toFixed ls p steps)) * (p' - p).
Proof.
  intros toFixed ls p p' steps steps'. unfold getTotalLoads. cbn [fst snd].
  destruct (fold_addLoad_shift toFixed p p' ls totals0 totals0) as [HF HM].
  cbn [sumFy sumM totals0] in HF, HM.
  set (F := sumFy (fold_left (addLoad toFixed p) ls totals0)) in *.
  set (M := sumM (fold_left (addLoad toFixed p) ls totals0)) in *.
  set (F' := sumFy (fold_left (addLoad toFixed p') ls totals0)) in *.
  set (M' := sumM (fold_left (addLoad toFixed p') ls totals0)) in *.
  split; [lra|].
  assert (E : M' == M - 0 - (F - 0) * (p' - p) + 0) by lra.
  rewrite E. ring.
Qed.

(** The vertical sum of [getTotalLoads] does not depend on the reference
    point or on the log, and the moment sum about [p'] is the moment sum
    about [p] minus the vertical sum times [p' - p]. *)
Theorem getTotalLoads_reference_point :
  forall toFixed (ls : list Load) (p p' : Q) (steps steps' : list SolverStep),
    fst (fst (getTotalLoads toFixed ls p' steps'))
      == fst (fst (getTotalLoads toFixed ls p steps)) /\
    snd (fst (getTotalLoads toFixed ls p' steps'))
      == snd (fst (getTotalLoads toFixed ls p steps))
         - fst (fst (getTotalLoads toFixed ls p steps)) * (p' - p).
Proof. exact getTotalLoads_shift. Qed.

(** The reactions of a beam on two simple supports balance the moments
    about either support, and the vertical sum. *)
Theorem simple_reactions_balance_moments :
  forall toFixed (beam : BeamConfig) (steps : list SolverStep) (s1 s2 : Support),
    noFixed (supports beam) ->
    sortByPosition (supports beam) = [s1; s2] ->
    sid s1 <> sid s2 -> ~ sposition s1 == sposition s2 ->
    exists RA RB st,
      solveReactions toFixed beam steps =
        Some ([(sid s1, {| Fy := RA; Mz := None |});
               (sid s2, {| Fy := RB; Mz := None |})], st) /\
      RA + RB == fst (fst (getTotalLoads toFixed (loads beam) 0 [])) /\
      RB * (sposition s2 - sposition s1)
        == snd (fst (getTotalLoads toFixed (loads beam) (sposition s1) [])) /\
      RA * (sposition s1 - sposition s2)
        == snd (fst (getTotalLoads toFixed (loads beam) (sposition s2) [])).
Proof.
  intros toFixed beam steps s1 s2 Hno Hs Hid Hpos.
  rewrite (solveReactions_two toFixed beam steps s1 s2 Hno Hs).
  assert (HL : ~ sposition s2 - sposition s1 == 0) by (intros H; apply Hpos; lra).
  rewrite (jsdiv_some _ _ HL). cbn [obind setProp].
  apply String.eqb_neq in Hid. rewrite Hid.
  eexists. eexists. eexists. split; [reflexivity|].
  destruct (getTotalLoads_shift toFixed (loads beam) (sposition s1) 0
              steps []) as [HF0 _].
  destruct (getTotalLoads_shift toFixed (loads beam) (sposition s1)
              (sposition s1) steps []) as [_ HM1].
  destruct (getTotalLoads_shift toFixed (loads beam) (sposition s1)
              (sposition s2) steps []) as [_ HM2].
  set (F := fst (fst (getTotalLoads toFixed (loads beam) (sposition s1) steps)))
    in *.
  set (M := snd (fst (getTotalLoads toFixed (loads beam) (sposition s1) steps)))
    in *.
  rewrite HF0, HM1, HM2. repeat split; field; exact HL.
Qed.

Lemma simple_reactions_balance_moments_witness :
  let s1 := mkSupport "s1" pin 0 in
  let s2 := mkSupport "s2" roller 10 in
  let beam := mkBeam 10 [s2; s1]
                [mkLoad "l1" point 5 10000 None None;
                 mkLoad "l2" uvl 2 300 (Some 100) (Some 6)] in
  exists RA RB st,
    solveReactions noText beam [] =
      Some ([(sid s1, {| Fy := RA; Mz := None |});
             (sid s2, {| Fy := RB; Mz := None |})], st) /\
    RA + RB == fst (fst (getTotalLoads noText (loads beam) 0 [])) /\
    RB * (sposition s2 - sposition s1)
      == snd (fst (getTotalLoads noText (loads beam) (sposition s1) [])) /\
    RA * (sposition s1 - sposition s2)
      == snd (fst (getTotalLoads noText (loads beam) (sposition s2) [])).
Proof.
  intros s1 s2 beam.
  apply (simple_reactions_balance_moments noText beam [] s1 s2).
  - intros s [<-|[<-|[]]]; reflexivity.
  - reflexivity.
  - discriminate.
  - intros H. discriminate H.
Defined.

(** ** The effective loads *)

Lemma addReaction_appends beam acc e :
  addReaction beam acc e = (acc ++ reactionLoads beam e)%list.
Proof.
  unfold addReaction, reactionLoads. destruct e as [supId reac].
  destruct (find _ (supports beam)) as [sup|]; [|rewrite app_nil_r; reflexivity].
  unfold push.
  destruct (Qgtb (Math_abs (Fy reac)) tol_reaction);
    destruct (Mz reac) as [m|];
    try destruct (Qgtb (Math_abs m) tol_reaction);
    cbn [List.app]; rewrite <- ?app_assoc, ?app_nil_r; reflexivity.
Qed.

Lemma effectiveLoads_appends beam r :
  effectiveLoads beam r = (loads beam ++ flat_map (reactionLoads beam) r)%list.
Proof.
  unfold effectiveLoads. generalize (loads beam). 
  induction r as [|e rest IH]; intros acc; cbn [fold_left flat_map].
  - rewrite app_nil_r. reflexivity.
  - rewrite IH, addReaction_appends, <- app_assoc. reflexivity.
Qed.

Lemma reactionLoads_shape beam e l :
  In l (reactionLoads beam e) ->
  (type l = point \/ type l = moment) /\
  endPosition l = None /\ endMagnitude l = None /\
  exists sup, In sup (supports beam) /\ sid sup = fst e /\
              position l = sposition sup.
Proof.
  unfold reactionLoads. destruct e as [supId reac]. cbn [fst].
  destruct (find _ (supports beam)) as [sup|] eqn:Hf; [|intros []].
  apply find_some in Hf. destruct Hf as [Hin Hid].
  apply String.eqb_eq in Hid.
  intros Hl.
  assert (Hcases :
    l = {| id := "reac-" ++ supId ++ "-y"; type := point;
           position := sposition sup; magnitude := - Fy reac;
           endMagnitude := None; endPosition := None |} \/
    exists m, l = {| id := "reac-" ++ supId ++ "-m"; type := moment;
                     position := sposition sup; magnitude := - m;
                     endMagnitude := None; endPosition := None |}).
  { destruct (Qgtb (Math_abs (Fy reac)) tol_reaction);
      destruct (Mz reac) as [m|];
      try destruct (Qgtb (Math_abs m) tol_reaction);
      cbn in Hl; intuition eauto. }
  destruct Hcases as [-> | [m ->]]; cbn [type position endPosition endMagnitude];
    (split; [auto|]); (split; [reflexivity|]); (split; [reflexivity|]);
    exists sup; auto.
Qed.

(** The effective loads are the applied loads, unchanged and in order,
    followed by at most two loads per reaction; each added load is a point
    load or a moment, without end fields, located at a support carrying the
    reaction's id; a reaction whose id no support carries adds nothing. *)
Theorem effectiveLoads_structure :
  forall (beam : BeamConfig) (r : Reactions),
    exists extra,
      effectiveLoads beam r = (loads beam ++ extra)%list /\
      (List.length extra <= 2 * List.length r)%nat /\
      (forall l, In l extra ->
         (type l = point \/ type l = moment) /\
         endPosition l = None /\ endMagnitude l = None /\
         exists sup e, In sup (supports beam) /\ In e r /\ sid sup = fst e /\
                       position l = sposition sup) /\
      ((forall e, In e r ->
          forall s, In s (supports beam) -> sid s <> fst e) -> extra = []).
Proof.
  intros beam r. exists (flat_map (reactionLoads beam) r).
  split; [apply effectiveLoads_appends|]. split; [|split].
  - induction r as [|e rest IH]; cbn [flat_map List.length]; [lia|].
    rewrite length_app.
    assert (He : (List.length (reactionLoads beam e) <= 2)%nat).
    { unfold reactionLoads. destruct e as [supId reac].
      destruct (find _ (supports beam)); [|cbn; lia].
      destruct (Qgtb (Math_abs (Fy reac)) tol_reaction);
        destruct (Mz reac) as [m|];
        try destruct (Qgtb (Math_abs m) tol_reaction); cbn; lia. }
    lia.
  - intros l Hl. apply in_flat_map in Hl. destruct Hl as [e [He Hl]].
    destruct (reactionLoads_shape beam e l Hl) as [Ht [H1 [H2 [sup [Hs [Hi Hp]]]]]].
    split; [exact Ht|]. split; [exact H1|]. split; [exact H2|].
    exists sup, e. auto.
  - intros Hnone. induction r as [|e rest IH]; [reflexivity|].
    cbn [flat_map]. rewrite IH.
    + rewrite app_nil_r. unfold reactionLoads. destruct e as [supId reac].
      destruct (find _ (supports beam)) as [sup|] eqn:Hf; [|reflexivity].
      apply find_some in Hf. destruct Hf as [Hin Hid].
      apply String.eqb_eq in Hid.
      exfalso. apply (Hnone (supId, reac) (or_introl eq_refl) sup Hin Hid).
    + intros e' He'. apply Hnone. right. exact He'.
Qed.

(** ** The sampled shear and moment *)

Lemma forcesStep_maxSF beamLength dx allLoads f i :
  maxSF (forcesStep beamLength dx allLoads f i) =
    if Qgtb (Qabs (shearAt beamLength dx allLoads i)) (maxSF f)
    then Qabs (shearAt beamLength dx allLoads i) else maxSF f.
Proof.
  unfold forcesStep, shearAt.
  destruct (cutForces beamLength allLoads (station dx i)) as [V M_val].
  reflexivity.
Qed.

Lemma maxSF_upper beamLength dx allLoads n :
  0 <= maxSF (forcesTo beamLength dx allLoads n) /\
  forall i, (i < n)%nat ->
    Qabs (shearAt beamLength dx allLoads i)
      <= maxSF (forcesTo beamLength dx allLoads n).
Proof.
  induction n as [|n [IH0 IH]].
  - split; [apply Qle_refl | intros i Hi; lia].
  - rewrite forcesTo_S, forcesStep_maxSF. cmp_cases.
    + split; [lra|]. intros i Hi.
      destruct (Nat.eq_dec i n) as [->|Hne]; [apply Qle_refl|].
      apply Qle_trans with (maxSF (forcesTo beamLength dx allLoads n));
        [apply IH; lia | lra].
    + split; [exact IH0|]. intros i Hi.
      destruct (Nat.eq_dec i n) as [->|Hne]; [exact Hc | apply IH; lia].
Qed.

Lemma maxSF_attained beamLength dx allLoads n :
  maxSF (forcesTo beamLength dx allLoads n) = 0 \/
  exists i, (i < n)%nat /\
    maxSF (forcesTo beamLength dx allLoads n)
      = Qabs (shearAt beamLength dx allLoads i).
Proof.
  induction n as [|n IH]; [left; reflexivity|].
  rewrite forcesTo_S, forcesStep_maxSF. destruct (Qgtb _ _).
  - right. exists n. split; [lia | reflexivity].
  - destruct IH as [IH|[i [Hi IH]]]; [left; exact IH|].
    right. exists i. split; [lia | exact IH].
Qed.

(** The shear and moment series hold 501 samples, the sample [i] taken at
    [x = i dx] from the cut sums there; [maxSF] and [maxBM] are the largest
    [|V|] and [|M|] among the samples (0 when every sample is 0). *)
Theorem internalForces_series :
  forall (beam : BeamConfig) (allLoads : list Load),
    let f := internalForces beam allLoads in
    let L := length beam in
    let dx := stepLength beam in
    List.length (shearArr f) = 501%nat /\
    List.length (momentArr f) = 501%nat /\
    (forall i, (i < 501)%nat ->
       nth i (shearArr f) dummy =
         {| x := station dx i;
            value := fst (cutForces L allLoads (station dx i)) |} /\
       nth i (momentArr f) dummy =
         {| x := station dx i;
            value := snd (cutForces L allLoads (station dx i)) |}) /\
    (forall i, (i < 501)%nat ->
       Qabs (value (nth i (shearArr f) dummy)) <= maxSF f /\
       Qabs (value (nth i (momentArr f) dummy)) <= maxBM f) /\
    (maxSF f = 0 \/
     exists i, (i < 501)%nat /\ maxSF f = Qabs (value (nth i (shearArr f) dummy))) /\
    (maxBM f = 0 \/
     exists i, (i < 501)%nat /\
               maxBM f = Qabs (value (nth i (momentArr f) dummy))).
Proof.
  intros beam allLoads f L dx. subst f. rewrite internalForces_forcesTo.
  fold L. fold dx.
  assert (HV : forall i, (i < 501)%nat ->
            nth i (shearArr (forcesTo L dx allLoads 501)) dummy =
              {| x := station dx i; value := shearAt L dx allLoads i |}).
  { intros i Hi. rewrite forcesTo_shearArr.
    apply (nth_map_seq
             (fun i => {| x := station dx i; value := shearAt L dx allLoads i |})).
    exact Hi. }
  assert (HM : forall i, (i < 501)%nat ->
            nth i (momentArr (forcesTo L dx allLoads 501)) dummy =
              {| x := station dx i; value := momentAt L dx allLoads i |}).
  { intros i Hi. rewrite forcesTo_momentArr.
    apply (nth_map_seq
             (fun i => {| x := station dx i; value := momentAt L dx allLoads i |})).
    exact Hi. }
  split; [rewrite forcesTo_shearArr, length_map, length_seq; reflexivity|].
  split; [rewrite forcesTo_momentArr, length_map, length_seq; reflexivity|].
  split; [intros i Hi; rewrite (HV i Hi), (HM i Hi); split; reflexivity|].
  split; [|split].
  - intros i Hi. rewrite (HV i Hi), (HM i Hi). cbn [value]. split.
    + apply (maxSF_upper L dx allLoads 501), Hi.
    + apply (maxBM_upper L dx allLoads 501), Hi.
  - destruct (maxSF_attained L dx allLoads 501) as [H|[i [Hi H]]];
      [left; exact H|].
    right. exists i. split; [exact Hi|]. rewrite (HV i Hi). exact H.
  - destruct (maxBM_attained L dx allLoads 501) as [H|[i [Hi H]]];
      [left; exact H|].
    right. exists i. split; [exact Hi|]. rewrite (HM i Hi). exact H.
Qed.

(** ** Cuts outside the loaded region *)

Lemma cutEffect_before beamLength xs acc l :
  xs < position l -> cutEffect beamLength xs acc l = acc.
Proof.
  intros H. apply Qgeb_lt in H. unfold cutEffect. destruct acc as [V M_val].
  rewrite H. cbn [andb]. destruct (type l); reflexivity.
Qed.

Lemma cutEffect_past beamLength xs V M_val l :
  leftOf beamLength xs l ->
  fst (cutEffect beamLength xs (V, M_val) l) == V - resultant beamLength l.
Proof.
  intros [Ha Hb]. unfold cutEffect, resultant.
  apply Qgeb_ge in Ha.
  destruct (type l) eqn:Ht; rewrite ?Ha; cbn [fst andb]; try ring.
  - specialize (Hb (or_introl eq_refl)).
    rewrite (Math_min_r _ _ Hb). ring.
  - specialize (Hb (or_intror eq_refl)).
    destruct (Qgtb _ 0) eqn:HL; cbn [fst]; [|ring].
    apply Qgtb_gt in HL.
    rewrite (Math_min_r _ _ Hb). field. lra.
Qed.

Lemma fold_cutEffect_past beamLength xs ls :
  (forall l, In l ls -> leftOf beamLength xs l) ->
  forall acc,
    fst (fold_left (cutEffect beamLength xs) ls acc)
      == fst acc - appliedForce beamLength ls.
Proof.
  induction ls as [|l rest IH]; intros Hall acc;
    cbn [fold_left appliedForce fold_right].
  - ring.
  - fold (appliedForce beamLength rest). rewrite IH.
    + destruct acc as [V M_val].
      rewrite (cutEffect_past beamLength xs V M_val l (Hall l (or_introl eq_refl))).
      cbn [fst]. ring.
    + intros l' Hin. apply Hall. right. exact Hin.
Qed.

(** Before the first load the cut sums are exactly zero; at a cut at or past
    every load, ends included, the shear is minus the sum of the vertical
    resultants of the loads. *)
Theorem cutForces_outside_loads :
  forall (beamLength xs : Q) (ls : list Load),
    ((forall l, In l ls -> xs < position l) ->
       cutForces beamLength ls xs = (0, 0)) /\
    ((forall l, In l ls -> leftOf beamLength xs l) ->
       fst (cutForces beamLength ls xs) == - appliedForce beamLength ls).
Proof.
  intros beamLength xs ls. split.
  - unfold cutForces. generalize (0, 0). 
    induction ls as [|l rest IH]; intros acc Hall; cbn [fold_left];
      [reflexivity|].
    rewrite cutEffect_before by (apply Hall; left; reflexivity).
    apply IH. intros l' Hin. apply Hall. right. exact Hin.
  - intros Hall. unfold cutForces.
    rewrite (fold_cutEffect_past beamLength xs ls Hall). cbn [fst]. ring.
Qed.

(** ** The shear past the loads and the supports *)

Lemma reactionLoads_shear beam bl xs e :
  (forall s, In s (supports beam) -> sposition s <= xs) ->
  forall acc,
    fst (fold_left (cutEffect bl xs) (reactionLoads beam e) acc)
      == fst acc + keptForce beam e.
Proof.
  intros Hsup acc. unfold reactionLoads, keptForce.
  destruct e as [supId reac]. cbn [fst snd].
  destruct (find _ (supports beam)) as [sup|] eqn:Hf; [|cbn; ring].
  apply find_some in Hf. destruct Hf as [Hin _].
  pose proof (Hsup sup Hin) as Hpos. apply Qgeb_ge in Hpos.
  destruct acc as [V M_val].
  destruct (Qgtb (Math_abs (Fy reac)) tol_reaction);
    destruct (Mz reac) as [m|];
    try destruct (Qgtb (Math_abs m) tol_reaction);
    cbn [List.app fold_left]; unfold cutEffect;
    cbn [type position magnitude]; rewrite ?Hpos; cbn [fst]; ring.
Qed.

Lemma flat_reactionLoads_shear beam bl xs r :
  (forall s, In s (supports beam) -> sposition s <= xs) ->
  forall acc,
    fst (fold_left (cutEffect bl xs) (flat_map (reactionLoads beam) r) acc)
      == fst acc + fold_right (fun e s => keptForce beam e + s) 0 r.
Proof.
  intros Hsup. induction r as [|e rest IH]; intros acc;
    cbn [flat_map fold_left fold_right].
  - ring.
  - rewrite fold_left_app, IH, (reactionLoads_shear beam bl xs e Hsup). ring.
Qed.

Lemma effective_shear_past beam r xs :
  (forall l, In l (loads beam) -> leftOf (length beam) xs l) ->
  (forall s, In s (supports beam) -> sposition s <= xs) ->
  fst (cutForces (length beam) (effectiveLoads beam r) xs)
    == fold_right (fun e s => keptForce beam e + s) 0 r
       - appliedForce (length beam) (loads beam).
Proof.
  intros Hl Hs. unfold cutForces.
  rewrite effectiveLoads_appends, fold_left_app.
  rewrite (flat_reactionLoads_shear beam (length beam) xs r Hs).
  rewrite (fold_cutEffect_past (length beam) xs (loads beam) Hl).
  cbn [fst]. ring.
Qed.

Lemma keptForce_near beam e :
  Qabs (keptForce beam e - Fy (snd e)) <= Qabs (Fy (snd e)) /\
  ((exists s, In s (supports beam) /\ sid s = fst e) ->
   Qabs (keptForce beam e - Fy (snd e)) <= tol_reaction).
Proof.
  unfold keptForce.
  assert (Hz : forall q : Q, Qabs (q - q) == 0).
  { intros q. assert (E : q - q == 0) by ring. rewrite E. reflexivity. }
  assert (Hm : forall q : Q, Qabs (0 - q) == Qabs q).
  { intros q. assert (E : 0 - q == - q) by ring. rewrite E. apply Qabs_opp. }
  destruct (find _ (supports beam)) as [sup|] eqn:Hf.
  - unfold Math_abs. cmp_cases.
    + rewrite Hz. split; [apply Qabs_nonneg|]. intros _. discriminate.
    + rewrite Hm. split; [apply Qle_refl | intros _; exact Hc].
  - rewrite Hm. split; [apply Qle_refl|].
    intros [s [Hin Hid]]. exfalso.
    apply (find_none _ _ Hf) in Hin. rewrite Hid, String.eqb_refl in Hin.
    discriminate.
Qed.

(** On a solved beam (a fixed support, or two simple supports with distinct
    identifiers and positions; every UDL and UVL with its end position) the
    shear at a cut at or past every load and every support is zero up to the
    reactions dropped for being within the threshold: at most [2e-10] in
    magnitude. *)
Theorem shear_closes_past_the_beam :
  forall toFixed (beam : BeamConfig) (steps : list SolverStep) (xs : Q),
    spansGiven (loads beam) ->
    someFixed (supports beam) \/ twoSimple (supports beam) ->
    (forall l, In l (loads beam) -> leftOf (length beam) xs l) ->
    (forall s, In s (supports beam) -> sposition s <= xs) ->
    exists r st,
      solveReactions toFixed beam steps = Some (r, st) /\
      Qabs (fst (cutForces (length beam) (effectiveLoads beam r) xs))
        <= 2 * tol_reaction.
Proof.
  intros toFixed beam steps xs Hends Hcfg Hl Hs.
  assert (Htol : 0 <= tol_reaction) by discriminate.
  destruct Hcfg as [Hfixed|Htwo].
  - destruct (find_sorted_some _ Hfixed) as [f [Hf [Hin _]]].
    rewrite (solveReactions_fixed _ _ _ _ Hf).
    eexists. eexists. split; [reflexivity|].
    rewrite (effective_shear_past beam _ xs Hl Hs). cbn [fold_right].
    set (e := (sid f, _)).
    destruct (keptForce_near beam e) as [_ Hk].
    specialize (Hk (ex_intro _ f (conj Hin eq_refl))).
    assert (HF : Fy (snd e) == appliedForce (length beam) (loads beam)).
    { unfold e. cbn [snd Fy]. apply getTotalLoads_sumFy, Hends. }
    assert (E : keptForce beam e + 0 - appliedForce (length beam) (loads beam)
                == keptForce beam e - Fy (snd e)) by (rewrite HF; ring).
    rewrite E. lra.
  - destruct (twoSimple_sorted _ Htwo) as [s1 [s2 [Hsort [Hid Hpos]]]].
    pose proof (twoSimple_noFixed _ Htwo) as Hno.
    rewrite (solveReactions_two _ _ _ _ _ Hno Hsort).
    rewrite (jsdiv_some _ _ Hpos). cbn [obind setProp].
    apply String.eqb_neq in Hid. rewrite Hid.
    eexists. eexists. split; [reflexivity|].
    rewrite (effective_shear_past beam _ xs Hl Hs). cbn [fold_right].
    assert (Hin1 : In s1 (supports beam)).
    { apply sortByPosition_In. rewrite Hsort. left. reflexivity. }
    assert (Hin2 : In s2 (supports beam)).
    { apply sortByPosition_In. rewrite Hsort. right. left. reflexivity. }
    set (e1 := (sid s1, _)). set (e2 := (sid s2, _)).
    destruct (keptForce_near beam e1) as [_ Hk1].
    specialize (Hk1 (ex_intro _ s1 (conj Hin1 eq_refl))).
    destruct (keptForce_near beam e2) as [_ Hk2].
    specialize (Hk2 (ex_intro _ s2 (conj Hin2 eq_refl))).
    assert (HF : Fy (snd e1) + Fy (snd e2)
                 == appliedForce (length beam) (loads beam)).
    { unfold e1, e2. cbn [snd Fy].
      rewrite (getTotalLoads_sumFy toFixed _ _ _ (length beam) Hends). ring. }
    assert (E : keptForce beam e1 + (keptForce beam e2 + 0)
                  - appliedForce (length beam) (loads beam)
                == (keptForce beam e1 - Fy (snd e1))
                   + (keptForce beam e2 - Fy (snd e2)))
      by (rewrite <- HF; ring).
    rewrite E.
    apply Qle_trans with
      (Qabs (keptForce beam e1 - Fy (snd e1))
       + Qabs (keptForce beam e2 - Fy (snd e2)));
      [apply Qabs_triangle | lra].
Qed.

Lemma shear_closes_past_the_beam_witness :
  let beam := mkBeam 10 [mkSupport "s1" pin 0; mkSupport "s2" roller 10]
                [mkLoad "l1" point 5 10000 None None;
                 mkLoad "l2" udl 2 300 None (Some 6)] in
  exists r st,
    solveReactions noText beam [] = Some (r, st) /\
    Qabs (fst (cutForces (length beam) (effectiveLoads beam r) 10))
      <= 2 * tol_reaction.
Proof.
  intros beam.
  apply (shear_closes_past_the_beam noText beam [] 10).
  - intros l [<-|[<-|[]]] H;
      [destruct H as [H|H]; discriminate H | discriminate].
  - right. exists (mkSupport "s1" pin 0), (mkSupport "s2" roller 10).
    split; [reflexivity|]. split; [reflexivity|]. split; [reflexivity|].
    split; [discriminate|]. intros H. discriminate H.
  - intros l [<-|[<-|[]]]; split; try discriminate;
      intros _; discriminate.
  - intros s [<-|[<-|[]]]; discriminate.
Defined.

(** ** The fill loop of the slope and deflection series *)

Lemma fill_loop slopeEI D_partial C1 C2 EI dx :
  ~ EI == 0 ->
  forall n,
    forM (fillStep slopeEI D_partial C1 C2 EI dx) (seq 0 n) defl0 =
      Some {| slopeArr :=
                map (fun i => {| x := station dx i;
                                 value := slopeValue slopeEI C1 EI i |})
                  (seq 0 n);
              deflArr :=
                map (fun i => {| x := station dx i;
                                 value := deflValue D_partial C1 C2 EI dx i |})
                  (seq 0 n);
              maxDef := maxDefTo D_partial C1 C2 EI dx n |}.
Proof.
  intros HEI. induction n as [|n IH]; [reflexivity|].
  rewrite forM_seq_S, IH. cbn [obind]. unfold fillStep.
  rewrite !(jsdiv_some _ _ HEI). cbn [obind slopeArr deflArr maxDef].
  rewrite !seq_S, !map_app. reflexivity.
Qed.

Lemma fill_loop_none slopeEI D_partial C1 C2 EI dx n :
  EI == 0 ->
  forM (fillStep slopeEI D_partial C1 C2 EI dx) (seq 0 (S n)) defl0 = None.
Proof.
  intros HEI. cbn [seq forM]. unfold fillStep at 1.
  rewrite (jsdiv_none _ _ HEI). reflexivity.
Qed.

Lemma maxDefTo_upper D_partial C1 C2 EI dx n :
  0 <= maxDefTo D_partial C1 C2 EI dx n /\
  forall i, (i < n)%nat ->
    Qabs (deflValue D_partial C1 C2 EI dx i) <= maxDefTo D_partial C1 C2 EI dx n.
Proof.
  induction n as [|n [IH0 IH]].
  - split; [apply Qle_refl | intros i Hi; lia].
  - cbn [maxDefTo]. unfold Math_abs. cmp_cases.
    + split; [lra|]. intros i Hi.
      destruct (Nat.eq_dec i n) as [->|Hne]; [apply Qle_refl|].
      apply Qle_trans with (maxDefTo D_partial C1 C2 EI dx n);
        [apply IH; lia | lra].
    + split; [exact IH0|]. intros i Hi.
      destruct (Nat.eq_dec i n) as [->|Hne]; [exact Hc | apply IH; lia].
Qed.

Lemma fixedConstants_some beam fs slopeEI D_partial :
  0 < length beam -> 0 <= sposition fs -> sposition fs <= length beam ->
  List.length slopeEI = 501%nat -> List.length D_partial = 501%nat ->
  exists k,
    (k <= 500)%nat /\
    stationIndex beam (sposition fs) = Some (Z.of_nat k) /\
    Qabs (station (stepLength beam) k - sposition fs) <= stepLength beam / 2 /\
    fixedConstants beam fs slopeEI D_partial =
      Some (- nth k slopeEI 0,
            - nth k D_partial 0 - (- nth k slopeEI 0) * sposition fs).
Proof.
  intros HL H0 H1 HlenS HlenD.
  destruct (stationIndex_some beam (sposition fs) HL H0 H1) as [z [Hz [Hr Hn]]].
  exists (Z.to_nat z). rewrite Z2Nat.id by lia.
  split; [lia|]. split; [exact Hz|]. split; [exact Hn|].
  unfold fixedConstants. rewrite Hz. cbn [obind].
  rewrite !arrayAt_some by lia. reflexivity.
Qed.

Lemma simpleConstants_some beam sA sB D_partial :
  0 < length beam ->
  0 <= sposition sA -> sposition sA <= length beam ->
  0 <= sposition sB -> sposition sB <= length beam ->
  ~ sposition sA == sposition sB ->
  List.length D_partial = 501%nat ->
  exists kA kB,
    (kA <= 500)%nat /\ (kB <= 500)%nat /\
    stationIndex beam (sposition sA) = Some (Z.of_nat kA) /\
    stationIndex beam (sposition sB) = Some (Z.of_nat kB) /\
    simpleConstants beam sA sB D_partial =
      Some (- (nth kB D_partial 0 - nth kA D_partial 0)
              / (sposition sB - sposition sA),
            - nth kA D_partial 0
            - (- (nth kB D_partial 0 - nth kA D_partial 0)
                 / (sposition sB - sposition sA)) * sposition sA).
Proof.
  intros HL HA0 HA1 HB0 HB1 Hne HlenD.
  destruct (stationIndex_some beam (sposition sA) HL HA0 HA1)
    as [zA [HzA [HrA _]]].
  destruct (stationIndex_some beam (sposition sB) HL HB0 HB1)
    as [zB [HzB [HrB _]]].
  exists (Z.to_nat zA), (Z.to_nat zB). rewrite !Z2Nat.id by lia.
  split; [lia|]. split; [lia|]. split; [exact HzA|]. split; [exact HzB|].
  unfold simpleConstants. rewrite HzA, HzB. cbn [obind].
  rewrite !arrayAt_some by lia. cbn [obind].
  rewrite jsdiv_some by lra. reflexivity.
Qed.

Lemma nth_series (f : nat -> Q) dx (i : nat) :
  (i < 501)%nat ->
  nth i (map (fun i => {| x := station dx i; value := f i |}) (seq 0 501)) dummy
    = {| x := station dx i; value := f i |}.
Proof.
  intros Hi.
  apply (nth_map_seq (fun i => {| x := station dx i; value := f i |})), Hi.
Qed.

(** With a fixed support inside the beam and [E I] non-zero, the slope at
    the station nearest to the first fixed support is zero, and so is the
    deflection there when the support sits on that station. *)
Theorem fixed_support_boundary_conditions :
  forall (beam : BeamConfig) (bm : list Sample) (fs : Support),
    find isFixed (supports beam) = Some fs ->
    0 < length beam -> 0 <= sposition fs -> sposition fs <= length beam ->
    ~ E beam * I beam == 0 ->
    exists d k,
      deflectionOf beam bm = Some d /\
      (k <= 500)%nat /\
      stationIndex beam (sposition fs) = Some (Z.of_nat k) /\
      List.length (slopeArr d) = 501%nat /\
      List.length (deflArr d) = 501%nat /\
      value (nth k (slopeArr d) dummy) == 0 /\
      (station (stepLength beam) k == sposition fs ->
       value (nth k (deflArr d) dummy) == 0).
Proof.
  intros beam bm fs Hfs HL H0 H1 HEI.
  set (dx := stepLength beam). set (slopeEI := slopeIntegral bm dx).
  set (D := deflectionIntegral slopeEI dx).
  destruct (fixedConstants_some beam fs slopeEI D HL H0 H1
              (runningIntegral_length _ _) (runningIntegral_length _ _))
    as [k [Hk [Hidx [_ HC]]]].
  eexists. exists k. split.
  - unfold deflectionOf. rewrite Hfs. fold dx. fold slopeEI. fold D.
    rewrite HC. cbn [obind]. change (points + 1)%nat with 501%nat.
    apply (fill_loop slopeEI D _ _ _ dx HEI 501).
  - cbn [slopeArr deflArr]. split; [exact Hk|]. split; [exact Hidx|].
    rewrite !length_map, !length_seq.
    split; [reflexivity|]. split; [reflexivity|].
    rewrite (nth_series (slopeValue slopeEI _ _) dx k) by lia.
    rewrite (nth_series (deflValue D _ _ _ dx) dx k) by lia.
    cbn [value]. unfold slopeValue, deflValue.
    generalize (nth k slopeEI 0) (nth k D 0). intros sk dk.
    revert HEI. generalize (E beam * I beam). intros EI HEI.
    clearbody slopeEI D dx. split.
    + field. exact HEI.
    + intros Hx. rewrite Hx. field. exact HEI.
Qed.

Lemma fixed_support_boundary_conditions_witness :
  let fs := mkSupport "s1" fixed 0 in
  let beam := mkBeam 10 [fs] [mkLoad "l1" point 10 10000 None None] in
  let bm := momentArr (internalForces beam (loads beam)) in
  exists d k,
    deflectionOf beam bm = Some d /\
    (k <= 500)%nat /\
    stationIndex beam (sposition fs) = Some (Z.of_nat k) /\
    List.length (slopeArr d) = 501%nat /\
    List.length (deflArr d) = 501%nat /\
    value (nth k (slopeArr d) dummy) == 0 /\
    (station (stepLength beam) k == sposition fs ->
     value (nth k (deflArr d) dummy) == 0).
Proof.
  intros fs beam bm.
  apply (fixed_support_boundary_conditions beam bm fs).
  - reflexivity.
  - reflexivity.
  - discriminate.
  - discriminate.
  - intros H. discriminate H.
Defined.

(** Without a fixed support, for the first two supports in position order
    (inside the beam, at distinct positions) and [E I] non-zero, the
    deflection is zero at the station nearest to each of them when the
    support sits on that station. *)
Theorem simple_supports_boundary_conditions :
  forall (beam : BeamConfig) (bm : list Sample) (sA sB : Support)
         (rest : list Support),
    noFixed (supports beam) ->
    sortByPosition (supports beam) = sA :: sB :: rest ->
    0 < length beam ->
    0 <= sposition sA -> sposition sA <= length beam ->
    0 <= sposition sB -> sposition sB <= length beam ->
    ~ sposition sA == sposition sB ->
    ~ E beam * I beam == 0 ->
    exists d kA kB,
      deflectionOf beam bm = Some d /\
      (kA <= 500)%nat /\ (kB <= 500)%nat /\
      stationIndex beam (sposition sA) = Some (Z.of_nat kA) /\
      stationIndex beam (sposition sB) = Some (Z.of_nat kB) /\
      List.length (deflArr d) = 501%nat /\
      (station (stepLength beam) kA == sposition sA ->
       value (nth kA (deflArr d) dummy) == 0) /\
      (station (stepLength beam) kB == sposition sB ->
       value (nth kB (deflArr d) dummy) == 0).
Proof.
  intros beam bm sA sB rest Hno Hs HL HA0 HA1 HB0 HB1 Hne HEI.
  set (dx := stepLength beam). set (slopeEI := slopeIntegral bm dx).
  set (D := deflectionIntegral slopeEI dx).
  destruct (simpleConstants_some beam sA sB D HL HA0 HA1 HB0 HB1 Hne
              (runningIntegral_length _ _))
    as [kA [kB [HkA [HkB [HiA [HiB HC]]]]]].
  eexists. exists kA, kB. split.
  - unfold deflectionOf. rewrite (proj2 (find_none_noFixed _) Hno), Hs.
    fold dx. fold slopeEI. fold D. rewrite HC. cbn [obind].
    change (points + 1)%nat with 501%nat.
    apply (fill_loop slopeEI D _ _ _ dx HEI 501).
  - cbn [deflArr]. split; [exact HkA|]. split; [exact HkB|].
    split; [exact HiA|]. split; [exact HiB|].
    rewrite !length_map, !length_seq. split; [reflexivity|].
    rewrite (nth_series (deflValue D _ _ _ dx) dx kA) by lia.
    rewrite (nth_series (deflValue D _ _ _ dx) dx kB) by lia.
    cbn [value]. unfold deflValue.
    assert (Hd : ~ sposition sB - sposition sA == 0)
      by (intros H; apply Hne; lra).
    generalize (nth kA D 0) (nth kB D 0). intros dA dB.
    revert HEI. generalize (E beam * I beam). intros EI HEI.
    clearbody slopeEI D dx. split.
    + intros HxA. rewrite HxA. field. split; assumption.
    + intros HxB. rewrite HxB. field. split; assumption.
Qed.

Lemma simple_supports_boundary_conditions_witness :
  let sA := mkSupport "s1" pin 0 in
  let sB := mkSupport "s2" roller 10 in
  let beam := mkBeam 10 [sA; sB] [mkLoad "l1" point 5 10000 None None] in
  let bm := momentArr (internalForces beam (loads beam)) in
  exists d kA kB,
    deflectionOf beam bm = Some d /\
    (kA <= 500)%nat /\ (kB <= 500)%nat /\
    stationIndex beam (sposition sA) = Some (Z.of_nat kA) /\
    stationIndex beam (sposition sB) = Some (Z.of_nat kB) /\
    List.length (deflArr d) = 501%nat /\
    (station (stepLength beam) kA == sposition sA ->
     value (nth kA (deflArr d) dummy) == 0) /\
    (station (stepLength beam) kB == sposition sB ->
     value (nth kB (deflArr d) dummy) == 0).
Proof.
  intros sA sB beam bm.
  apply (simple_supports_boundary_conditions beam bm sA sB []).
  - intros s [<-|[<-|[]]]; reflexivity.
  - reflexivity.
  - reflexivity.
  - discriminate.
  - discriminate.
  - discriminate.
  - discriminate.
  - intros H. discriminate H.
  - intros H. discriminate H.
Defined.

(** ** Runs that stay finite *)

Lemma solveReactions_total toFixed beam steps :
  someFixed (supports beam) \/ lowestTwoApart (supports beam) ->
  exists r st, solveReactions toFixed beam steps = Some (r, st).
Proof.
  intros H.
  destruct (find isFixed (sortByPosition (supports beam))) as [f|] eqn:Hf.
  - rewrite (solveReactions_fixed _ _ _ _ Hf). eauto.
  - assert (Hno : noFixed (supports beam)).
    { intros s Hs. apply find_none_noFixed in Hf.
      apply Hf, sortByPosition_In, Hs. }
    destruct H as [Hsome|Hapart].
    { destruct (find_sorted_some _ Hsome) as [f [Hf' _]]. congruence. }
    destruct (sortByPosition (supports beam)) as [|s1 [|s2 [|s3 rest]]] eqn:Hs.
    + rewrite solveReactions_unable; [eauto | exact Hno |].
      rewrite <- sortByPosition_length, Hs. discriminate.
    + rewrite solveReactions_unable; [eauto | exact Hno |].
      rewrite <- sortByPosition_length, Hs. discriminate.
    + rewrite (solveReactions_two _ _ _ _ _ Hno Hs).
      rewrite jsdiv_some; [cbn [obind]; eauto|].
      intros Hz. apply (Hapart s1 s2 [] Hs). lra.
    + rewrite solveReactions_unable; [eauto | exact Hno |].
      rewrite <- sortByPosition_length, Hs. discriminate.
Qed.

Lemma torsion_total beam :
  ~ G beam * J beam == 0 \/ noTorque beam ->
  exists twist maxAngle,
    torsion beam = Some (twist, maxAngle) /\ List.length twist = 501%nat.
Proof.
  intros H. unfold torsion.
  destruct (0 <? List.length (torqueLoadsOf beam))%nat eqn:Hlen.
  - destruct H as [HGJ|Hno];
      [|rewrite (noTorque_filter _ Hno) in Hlen; discriminate].
    change (points + 1)%nat with 501%nat.
    destruct (twist_loop (reactionTorque beam (torqueLoadsOf beam))
                (G beam * J beam) (stepLength beam) (torqueLoadsOf beam) HGJ 501)
      as [t [Hrun [Harr _]]].
    rewrite Hrun. cbn [obind]. eexists. eexists. split; [reflexivity|].
    rewrite Harr, length_map, length_seq. reflexivity.
  - eexists. eexists. split; [reflexivity | apply zeroSeries_length].
Qed.

Lemma deflectionOf_total beam bm :
  0 < length beam -> ~ E beam * I beam == 0 ->
  (forall s, In s (supports beam) ->
     0 <= sposition s /\ sposition s <= length beam) ->
  someFixed (supports beam) \/ lowestTwoApart (supports beam) ->
  exists d,
    deflectionOf beam bm = Some d /\
    List.length (slopeArr d) = 501%nat /\ List.length (deflArr d) = 501%nat.
Proof.
  intros HL HEI Hrange Hcfg. unfold deflectionOf.
  set (dx := stepLength beam). set (slopeEI := slopeIntegral bm dx).
  set (D := deflectionIntegral slopeEI dx).
  change (points + 1)%nat with 501%nat.
  destruct (find isFixed (supports beam)) as [fs|] eqn:Hfs.
  - pose proof (find_some _ _ Hfs) as [Hin _].
    destruct (Hrange fs Hin) as [H0 H1].
    destruct (fixedConstants_some beam fs slopeEI D HL H0 H1
                (runningIntegral_length _ _) (runningIntegral_length _ _))
      as [k [_ [_ [_ HC]]]].
    rewrite HC. cbn [obind]. rewrite (fill_loop slopeEI D _ _ _ dx HEI 501).
    eexists. split; [reflexivity|]. cbn [slopeArr deflArr].
    rewrite !length_map, !length_seq. split; reflexivity.
  - destruct Hcfg as [[s [Hs Hfx]]|Hapart].
    { apply (find_none _ _ Hfs) in Hs. congruence. }
    destruct (sortByPosition (supports beam)) as [|sA [|sB rest]] eqn:Hsort.
    + eexists. split; [reflexivity|]. cbn [slopeArr deflArr].
      rewrite zeroSeries_length. split; reflexivity.
    + eexists. split; [reflexivity|]. cbn [slopeArr deflArr].
      rewrite zeroSeries_length. split; reflexivity.
    + assert (HinA : In sA (supports beam)).
      { apply sortByPosition_In. rewrite Hsort. left. reflexivity. }
      assert (HinB : In sB (supports beam)).
      { apply sortByPosition_In. rewrite Hsort. right. left. reflexivity. }
      destruct (Hrange sA HinA) as [HA0 HA1].
      destruct (Hrange sB HinB) as [HB0 HB1].
      destruct (simpleConstants_some beam sA sB D HL HA0 HA1 HB0 HB1
                  (Hapart sA sB rest Hsort) (runningIntegral_length _ _))
        as [kA [kB [_ [_ [_ [_ HC]]]]]].
      rewrite HC. cbn [obind]. rewrite (fill_loop slopeEI D _ _ _ dx HEI 501).
      eexists. split; [reflexivity|]. cbn [slopeArr deflArr].
      rewrite !length_map, !length_seq. split; reflexivity.
Qed.

Lemma EI_nonzero (e i : Q) : ~ e * i == 0 -> ~ i == 0.
Proof. intros H Hi. apply H. rewrite Hi. ring. Qed.

(** On a well-formed beam (positive length, [E I] non-zero, [G J] non-zero
    or no torque load, supports inside the beam, and a fixed support or the
    two lowest supports apart) every field of the result of [solveBeam] is
    determined: no quotient is by zero and no array is read outside its
    bounds; each of the five series has 501 samples. *)
Theorem solveBeam_succeeds :
  forall toFixed toExponential numberToString (beam : BeamConfig),
    wellFormed beam ->
    let r := solveBeam toFixed toExponential numberToString beam in
    finiteResult r /\
    exists sf bm sl de tw,
      shearForce r = Some sf /\ bendingMoment r = Some bm /\
      slope r = Some sl /\ deflection r = Some de /\
      angleOfTwist r = Some tw /\
      List.length sf = 501%nat /\
      List.length bm = 501%nat /\
      List.length sl = 501%nat /\
      List.length de = 501%nat /\
      List.length tw = 501%nat.
Proof.
  intros toFixed toExponential numberToString beam
    [HL [HEI [HGJ [Hrange Hcfg]]]].
  set (steps01 := [setupStep toFixed toExponential numberToString beam;
                   loadsStep toFixed numberToString beam]).
  destruct (solveReactions_total toFixed beam steps01 Hcfg) as [reacs [st Hr]].
  destruct (torsion_total beam HGJ) as [twist [maxAngle [Ht Htl]]].
  set (f := internalForces beam (effectiveLoads beam reacs)).
  destruct (deflectionOf_total beam (momentArr f) HL HEI Hrange Hcfg)
    as [d [Hd [Hds Hdd]]].
  unfold solveBeam. fold steps01. rewrite Hr, Ht.
  cbn [option_map fst snd obind]. fold f.
  unfold bendingStress. rewrite (jsdiv_some _ _ (EI_nonzero _ _ HEI)), Hd.
  cbn [option_map obind]. cbv zeta. split.
  - unfold finiteResult.
    cbn [reactions shearForce bendingMoment slope deflection angleOfTwist
         maxShearForce maxBendingMoment maxDeflection maxStress
         maxAngleOfTwist steps sfInference bmInference deflectionInference].
    repeat split; discriminate.
  - exists (shearArr f), (momentArr f), (slopeArr d), (deflArr d), twist.
    cbn [shearForce bendingMoment slope deflection angleOfTwist].
    unfold f. rewrite internalForces_forcesTo.
    rewrite forcesTo_shearArr, forcesTo_momentArr, !length_map, !length_seq.
    repeat split; assumption || reflexivity.
Qed.

Lemma solveBeam_succeeds_witness :
  let beam := mkBeam 10 [mkSupport "s1" pin 0; mkSupport "s2" roller 10]
                [mkLoad "l1" point 5 10000 None None;
                 mkLoad "l2" torque 4 50 None None] in
  let r := solveBeam noText noExponential noNumber beam in
  finiteResult r /\
  exists sf bm sl de tw,
    shearForce r = Some sf /\ bendingMoment r = Some bm /\
    slope r = Some sl /\ deflection r = Some de /\
    angleOfTwist r = Some tw /\
    List.length sf = 501%nat /\
    List.length bm = 501%nat /\
    List.length sl = 501%nat /\
    List.length de = 501%nat /\
    List.length tw = 501%nat.
Proof.
  intros beam.
  apply (solveBeam_succeeds noText noExponential noNumber beam).
  split; [reflexivity|].
  split; [intros H; discriminate H|].
  split; [left; intros H; discriminate H|].
  split.
  - intros s [<-|[<-|[]]]; split; discriminate.
  - right. intros sA sB rest H.
    injection H as <- <- _. intros H. discriminate H.
Defined.

(** ** The reactions object and the log *)

Lemma setProp_two k1 v1 k2 v2 :
  setProp k2 v2 (setProp k1 v1 []) =
    if String.eqb k1 k2 then [(k1, v2)] else [(k1, v1); (k2, v2)].
Proof. reflexivity. Qed.

(** Every entry of the reactions returned by [solveReactions] is keyed by
    the id of a support of the beam; the keys are distinct and at most two;
    an entry carries a moment only when it belongs to a fixed support, and
    then it is the only entry. *)
Theorem reactions_name_supports :
  forall toFixed (beam : BeamConfig) (steps st : list SolverStep)
         (r : Reactions),
    solveReactions toFixed beam steps = Some (r, st) ->
    NoDup (map fst r) /\ (List.length r <= 2)%nat /\
    (forall k v, In (k, v) r ->
       exists s, In s (supports beam) /\ sid s = k /\
         (Mz v <> None -> isFixed s = true /\ List.length r = 1%nat) /\
         (Mz v = None -> noFixed (supports beam))).
Proof.
  intros toFixed beam steps st r Hrun.
  destruct (find isFixed (sortByPosition (supports beam))) as [f|] eqn:Hf.
  - rewrite (solveReactions_fixed _ _ _ _ Hf) in Hrun.
    apply some_inj in Hrun. injection Hrun as <- _.
    apply find_some in Hf. destruct Hf as [Hin Hfx].
    apply (proj1 (sortByPosition_In _ _)) in Hin.
    split; [repeat constructor; intros []|]. split; [cbn; lia|].
    intros k v [[= <- <-]|[]]. exists f. split; [exact Hin|].
    split; [reflexivity|]. split; [auto | discriminate].
  - assert (Hno : noFixed (supports beam)).
    { intros s Hs. apply find_none_noFixed in Hf.
      apply Hf, sortByPosition_In, Hs. }
    destruct (sortByPosition (supports beam)) as [|s1 [|s2 [|s3 rest]]] eqn:Hs;
      try (rewrite solveReactions_unable in Hrun;
           [ apply some_inj in Hrun; injection Hrun as <- _;
             split; [constructor|]; split; [cbn; lia|]; intros k v []
           | exact Hno
           | rewrite <- sortByPosition_length, Hs; discriminate ]).
    rewrite (solveReactions_two _ _ _ _ _ Hno Hs) in Hrun.
    destruct (jsdiv _ _) as [R|]; [|discriminate]. cbn [obind] in Hrun.
    apply some_inj in Hrun. rewrite setProp_two in Hrun.
    assert (Hin1 : In s1 (supports beam)).
    { apply sortByPosition_In. rewrite Hs. left. reflexivity. }
    assert (Hin2 : In s2 (supports beam)).
    { apply sortByPosition_In. rewrite Hs. right. left. reflexivity. }
    destruct (String.eqb (sid s1) (sid s2)) eqn:Hid; injection Hrun as <- _.
    + split; [repeat constructor; intros []|]. split; [cbn; lia|].
      intros k v [[= <- <-]|[]]. exists s1. cbn [Mz].
      repeat split; auto; congruence.
    + apply String.eqb_neq in Hid.
      split.
      { cbn. constructor; [intros [H|[]]; congruence|].
        repeat constructor. intros []. }
      split; [cbn; lia|].
      intros k v [[= <- <-]|[[= <- <-]|[]]]; [exists s1 | exists s2];
        cbn [Mz]; repeat split; auto; congruence.
Qed.

Lemma reactions_name_supports_witness :
  let beam := mkBeam 10 [mkSupport "s1" pin 0; mkSupport "s2" roller 10]
                [mkLoad "l1" point 5 10000 None None] in
  exists r st,
    solveReactions noText beam [] = Some (r, st) /\
    (NoDup (map fst r) /\ (List.length r <= 2)%nat /\
    (forall k v, In (k, v) r ->
       exists s, In s (supports beam) /\ sid s = k /\
         (Mz v <> None -> isFixed s = true /\ List.length r = 1%nat) /\
         (Mz v = None -> noFixed (supports beam)))).
Proof.
  intros beam. eexists. eexists. split; [vm_compute; reflexivity|].
  eapply (reactions_name_supports noText beam []).
  vm_compute. reflexivity.
Defined.

(** [solveReactions] only appends to the log it is given: one note, the
    diagnostic, when it returns no reactions, and otherwise the note of the
    load resultants followed by the note of the reactions. *)
Theorem solveReactions_log :
  forall toFixed (beam : BeamConfig) (steps st : list SolverStep)
         (r : Reactions),
    solveReactions toFixed beam steps = Some (r, st) ->
    exists notes,
      st = (steps ++ notes)%list /\
      (r = [] -> notes = [unableToSolveStep]) /\
      (r <> [] ->
         exists n1 n2, notes = [n1; n2] /\
           title n1 = "2a. Load Resultants"%string /\
           (title n2 = "2b. Reactions — Cantilever"%string \/
            title n2 = "2b. Reactions — Simply Supported"%string) /\
           equations n1 <> None).
Proof.
  intros toFixed beam steps st r Hrun.
  destruct (find isFixed (sortByPosition (supports beam))) as [f|] eqn:Hf.
  - rewrite (solveReactions_fixed _ _ _ _ Hf) in Hrun.
    apply some_inj in Hrun. injection Hrun as <- <-.
    eexists. split.
    + cbn [getTotalLoads snd]. unfold push. rewrite <- app_assoc. reflexivity.
    + split; [discriminate|]. intros _. eexists. eexists.
      split; [reflexivity|]. cbn. split; [reflexivity|].
      split; [left; reflexivity | discriminate].
  - assert (Hno : noFixed (supports beam)).
    { intros s Hs. apply find_none_noFixed in Hf.
      apply Hf, sortByPosition_In, Hs. }
    destruct (sortByPosition (supports beam)) as [|s1 [|s2 [|s3 rest]]] eqn:Hs;
      try (rewrite solveReactions_unable in Hrun;
           [ apply some_inj in Hrun; injection Hrun as <- <-;
             exists [unableToSolveStep]; split; [reflexivity|];
             split; [reflexivity | congruence]
           | exact Hno
           | rewrite <- sortByPosition_length, Hs; discriminate ]).
    rewrite (solveReactions_two _ _ _ _ _ Hno Hs) in Hrun.
    destruct (jsdiv _ _) as [R|]; [|discriminate]. cbn [obind] in Hrun.
    apply some_inj in Hrun. injection Hrun as Hr <-.
    eexists. split.
    + cbn [getTotalLoads snd]. unfold push. rewrite <- app_assoc. reflexivity.
    + split.
      * intros ->. exfalso. revert Hr.
        destruct (String.eqb (sid s1) (sid s2)); discriminate.
      * intros _. eexists. eexists. split; [reflexivity|]. cbn.
        split; [reflexivity|]. split; [right; reflexivity | discriminate].
Qed.

Lemma solveReactions_log_witness :
  let beam := mkBeam 10 [mkSupport "s1" pin 0; mkSupport "s2" roller 10]
                [mkLoad "l1" point 5 10000 None None] in
  exists r st,
    solveReactions noText beam [unableToSolveStep] = Some (r, st) /\
    (exists notes,
      st = ([unableToSolveStep] ++ notes)%list /\
      (r = [] -> notes = [unableToSolveStep]) /\
      (r <> [] ->
         exists n1 n2, notes = [n1; n2] /\
           title n1 = "2a. Load Resultants"%string /\
           (title n2 = "2b. Reactions — Cantilever"%string \/
            title n2 = "2b. Reactions — Simply Supported"%string) /\
           equations n1 <> None)).
Proof.
  intros beam. eexists. eexists. split; [vm_compute; reflexivity|].
  eapply (solveReactions_log noText beam [unableToSolveStep]).
  vm_compute. reflexivity.
Defined.

(** ** [classifyBeam] *)

Lemma find_isFixed_sorted ss :
  find isFixed ss = None <-> find isFixed (sortByPosition ss) = None.
Proof.
  rewrite !find_none_noFixed. unfold noFixed. split; intros H s Hs.
  - apply H, sortByPosition_In, Hs.
  - apply H, sortByPosition_In, Hs.
Qed.

(** The label of [classifyBeam] follows the branch of [solveReactions]: a
    beam is labelled unsupported or indeterminate exactly when the solver
    returns no reactions, a cantilever exactly when the single reaction
    carries a moment, and simply supported when there are exactly two
    supports and none is fixed. *)
Theorem classifyBeam_follows_the_solver :
  forall toFixed (beam : BeamConfig) (steps st : list SolverStep)
         (r : Reactions),
    solveReactions toFixed beam steps = Some (r, st) ->
    (classifyBeam beam = "Beam (unsupported / indeterminate)"%string
       <-> r = []) /\
    (classifyBeam beam = "Cantilever Beam"%string
       <-> exists k F M, r = [(k, {| Fy := F; Mz := Some M |})]) /\
    (classifyBeam beam = "Simply Supported Beam"%string
       <-> noFixed (supports beam) /\ List.length (supports beam) = 2%nat).
Proof.
  intros toFixed beam steps st r Hrun. unfold classifyBeam.
  destruct (find isFixed (supports beam)) as [f0|] eqn:Hf0.
  - destruct (find isFixed (sortByPosition (supports beam))) as [f|] eqn:Hf;
      [|apply find_isFixed_sorted in Hf; congruence].
    rewrite (solveReactions_fixed _ _ _ _ Hf) in Hrun.
    apply some_inj in Hrun. injection Hrun as <- _.
    split; [split; discriminate|]. split.
    + split; [intros _; eauto | reflexivity].
    + split; [discriminate|]. intros [Hno _].
      apply find_none_noFixed in Hno. congruence.
  - pose proof (proj1 (find_none_noFixed _) Hf0) as Hno.
    destruct (List.length (supports beam) =? 2)%nat eqn:Hlen.
    + apply Nat.eqb_eq in Hlen.
      pose proof Hlen as Hlen'. rewrite <- sortByPosition_length in Hlen'.
      destruct (sortByPosition (supports beam)) as [|s1 [|s2 [|s3 rest]]] eqn:Hs;
        try discriminate.
      rewrite (solveReactions_two _ _ _ _ _ Hno Hs) in Hrun.
      destruct (jsdiv _ _) as [R|]; [|discriminate]. cbn [obind] in Hrun.
      apply some_inj in Hrun. rewrite setProp_two in Hrun.
      split; [|split].
      * split; [discriminate|]. intros ->.
        destruct (String.eqb _ _); discriminate.
      * split; [discriminate|]. intros [k [F [M ->]]].
        destruct (String.eqb _ _); discriminate.
      * split; auto.
    + apply Nat.eqb_neq in Hlen.
      rewrite (solveReactions_unable _ _ _ Hno Hlen) in Hrun.
      apply some_inj in Hrun. injection Hrun as <- _.
      split; [split; reflexivity|]. split.
      * split; [discriminate|]. intros [k [F [M H]]]. discriminate.
      * split; [discriminate|]. intros [_ H]. contradiction.
Qed.

Lemma classifyBeam_follows_the_solver_witness :
  let beam := mkBeam 10 [mkSupport "s1" fixed 0]
                [mkLoad "l1" point 5 10000 None None] in
  exists r st,
    solveReactions noText beam [] = Some (r, st) /\
    ((classifyBeam beam = "Beam (unsupported / indeterminate)"%string
       <-> r = []) /\
    (classifyBeam beam = "Cantilever Beam"%string
       <-> exists k F M, r = [(k, {| Fy := F; Mz := Some M |})]) /\
    (classifyBeam beam = "Simply Supported Beam"%string
       <-> noFixed (supports beam) /\ List.length (supports beam) = 2%nat)).
Proof.
  intros beam. eexists. eexists. split; [vm_compute; reflexivity|].
  eapply (classifyBeam_follows_the_solver noText beam []).
  vm_compute. reflexivity.
Defined.

(** ** Recorded crossings *)

Lemma crossing_fraction (a b : Q) :
  crosses a b = true ->
  let frac := Math_abs a / (Math_abs a + Math_abs b) in
  0 < frac /\ frac <= 1 /\ a + frac * (b - a) == 0.
Proof.
  intros Hc. apply crosses_signChange in Hc. destruct Hc as [Ha Hb].
  unfold Math_abs. cbv zeta.
  destruct (Qlt_le_dec a 0) as [Hneg|Hpos].
  - assert (Hab : 0 <= b) by (destruct Hb as [Hb|[Hb|Hb]]; lra).
    assert (Ea : Qabs a == - a) by (rewrite Qabs_neg; [reflexivity | lra]).
    assert (Eb : Qabs b == b) by (apply Qabs_pos, Hab).
    rewrite Ea, Eb.
    assert (Hd : 0 < - a + b) by lra.
    split; [apply Qlt_shift_div_l; lra|].
    split; [apply Qle_shift_div_r; lra|]. field. lra.
  - assert (Hpos' : 0 < a).
    { destruct (Qlt_le_dec 0 a) as [H|H]; [exact H|]. exfalso. apply Ha. lra. }
    assert (Hab : b <= 0) by (destruct Hb as [Hb|[Hb|Hb]]; lra).
    assert (Ea : Qabs a == a) by (apply Qabs_pos; lra).
    assert (Eb : Qabs b == - b) by (rewrite Qabs_neg; [reflexivity | lra]).
    rewrite Ea, Eb.
    assert (Hd : 0 < a + - b) by lra.
    split; [apply Qlt_shift_div_l; lra|].
    split; [apply Qle_shift_div_r; lra|]. field. lra.
Qed.

(** Every recorded crossing comes from a pair of consecutive stations whose
    values change sign; it is the zero of the straight line through the two
    samples, and lies between their positions when the positions ascend. *)
Theorem crossings_are_interpolated_roots :
  forall toFixed (data : list Sample) label formatFn (c : Q),
    In c (zeroCrossings (computeChartInference toFixed data label formatFn)) ->
    exists i frac,
      (S i < List.length data)%nat /\
      let p := nth i data dummy in
      let d := nth (S i) data dummy in
      signChange (value p) (value d) /\
      0 < frac /\ frac <= 1 /\
      c = x p + frac * (x d - x p) /\
      value p + frac * (value d - value p) == 0 /\
      (x p <= x d -> x p <= c /\ c <= x d).
Proof.
  intros toFixed data label formatFn c Hin.
  unfold computeChartInference in Hin. cbn [zeroCrossings] in Hin.
  rewrite scan_scanTo, scanTo_crossings in Hin.
  apply in_flat_map in Hin. destruct Hin as [i [Hi Hc]].
  apply in_seq in Hi. unfold recordedAt in Hc.
  destruct (crosses _ _) eqn:Hx; [|contradiction].
  destruct Hc as [<-|[]].
  destruct (crossing_fraction _ _ Hx) as [H0 [H1 Hroot]].
  exists i. eexists. split; [lia|]. cbv zeta.
  split; [apply crosses_signChange, Hx|].
  split; [exact H0|]. split; [exact H1|].
  split; [reflexivity|]. split; [exact Hroot|].
  intros Hxs. unfold crossingAt. cbv zeta.
  set (frac := Math_abs _ / _) in *.
  set (xp := x (nth i data dummy)) in *.
  set (xd := x (nth (S i) data dummy)) in *.
  split; nra.
Qed.

Lemma crossings_are_interpolated_roots_witness :
  let data := [ {| x := 0; value := -1 |}; {| x := 2; value := 3 |} ] in
  exists i frac,
    (S i < List.length data)%nat /\
    let p := nth i data dummy in
    let d := nth (S i) data dummy in
    signChange (value p) (value d) /\
    0 < frac /\ frac <= 1 /\
    crossingAt (nth 0 data dummy) (nth 1 data dummy)
      = x p + frac * (x d - x p) /\
    value p + frac * (value d - value p) == 0 /\
    (x p <= x d ->
     x p <= crossingAt (nth 0 data dummy) (nth 1 data dummy) /\
     crossingAt (nth 0 data dummy) (nth 1 data dummy) <= x d).
Proof.
  intros data.
  apply (crossings_are_interpolated_roots noText data EmptyString
           (fun _ => EmptyString)).
  left. reflexivity.
Defined.

Lemma flat_map_length_le {A B : Type} (f : A -> list B) (l : list A) :
  (forall a, (List.length (f a) <= 1)%nat) ->
  (List.length (flat_map f l) <= List.length l)%nat.
Proof.
  intros Hf. induction l as [|a rest IH]; cbn [flat_map List.length]; [lia|].
  rewrite length_app. pose proof (Hf a). lia.
Qed.

(** An empty series is reported with the initial values of the scan
    ([-Infinity] and [Infinity] at position 0, no crossing); in general
    there is at most one crossing per pair of consecutive stations. *)
Theorem chart_inference_shape :
  forall toFixed (data : list Sample) label formatFn,
    let r := computeChartInference toFixed data label formatFn in
    (data = [] ->
       maxValue r = MinusInfinity /\ minValue r = PlusInfinity /\
       maxPosition r = 0 /\ minPosition r = 0 /\ zeroCrossings r = []) /\
    (List.length (zeroCrossings r) <= List.length data - 1)%nat.
Proof.
  intros toFixed data label formatFn r. subst r. split.
  - intros ->. repeat split; reflexivity.
  - unfold computeChartInference. cbn [zeroCrossings].
    rewrite scan_scanTo, scanTo_crossings.
    apply Nat.le_trans with (List.length (seq 0 (List.length data - 1))).
    + apply flat_map_length_le. intros i. unfold recordedAt.
      destruct (crosses _ _); cbn; lia.
    + rewrite length_seq. lia.
Qed.

(** ** Torque past the loads *)

Lemma torqueUpTo_all ls xs :
  (forall l, In l ls -> type l = torque -> position l <= xs) ->
  torqueUpTo ls xs == totalTorque ls.
Proof.
  induction ls as [|l rest IH]; intros Hall;
    cbn [torqueUpTo totalTorque fold_right]; [reflexivity|].
  fold (torqueUpTo rest xs). fold (totalTorque rest).
  assert (IH' : torqueUpTo rest xs == totalTorque rest).
  { apply IH. intros l' Hin. apply Hall. right. exact Hin. }
  destruct (isTorque l) eqn:Ht; cbn [andb]; [|exact IH'].
  assert (Hp : Qleb (position l) xs = true).
  { apply Qleb_le, Hall; [left; reflexivity|].
    unfold isTorque in Ht. destruct (type l); try discriminate. reflexivity. }
  rewrite Hp, IH'. reflexivity.
Qed.

Lemma torqueUpTo_none ls xs :
  (forall l, In l ls -> type l = torque -> xs < position l) ->
  torqueUpTo ls xs = 0.
Proof.
  induction ls as [|l rest IH]; intros Hall;
    cbn [torqueUpTo fold_right]; [reflexivity|].
  fold (torqueUpTo rest xs).
  assert (IH' : torqueUpTo rest xs = 0).
  { apply IH. intros l' Hin. apply Hall. right. exact Hin. }
  destruct (isTorque l) eqn:Ht; cbn [andb]; [|exact IH'].
  assert (Hp : Qleb (position l) xs = false).
  { apply Qleb_gt, Hall; [left; reflexivity|].
    unfold isTorque in Ht. destruct (type l); try discriminate. reflexivity. }
  rewrite Hp. exact IH'.
Qed.

(** With a fixed support at position 0 the internal torque is zero at every
    cut at or past all torque loads (the reaction torque balances them);
    before the first torque load it is the reaction torque alone. *)
Theorem torque_balances_past_the_loads :
  forall (beam : BeamConfig) (xs : Q),
    let T := internalTorque (reactionTorque beam (torqueLoadsOf beam))
               (torqueLoadsOf beam) xs in
    ((forall l, In l (loads beam) -> type l = torque -> xs < position l) ->
       T == reactionTorque beam (torqueLoadsOf beam)) /\
    (fixedAtOrigin beam ->
     (forall l, In l (loads beam) -> type l = torque -> position l <= xs) ->
       T == 0) /\
    (~ fixedAtOrigin beam ->
     (forall l, In l (loads beam) -> type l = torque -> position l <= xs) ->
       T == totalTorque (loads beam)).
Proof.
  intros beam xs T. subst T. rewrite internalTorque_torqueAt. unfold torqueAt.
  split; [|split].
  - intros H. rewrite (torqueUpTo_none _ _ H). ring.
  - intros Hfx H. rewrite (torqueUpTo_all _ _ H), (reactionTorque_fixed _ Hfx).
    ring.
  - intros Hfx H. rewrite (torqueUpTo_all _ _ H), (reactionTorque_free _ Hfx).
    ring.
Qed.

(** ** The deflection series of a successful run *)

(** Whenever [deflectionOf] returns, its two series have 501 samples at the
    stations [x = i dx] and [maxDef] is non-negative and bounds every
    [|y(x_i)|]. *)
Theorem deflection_series :
  forall (beam : BeamConfig) (bm : list Sample) (d : Defl),
    deflectionOf beam bm = Some d ->
    List.length (slopeArr d) = 501%nat /\
    List.length (deflArr d) = 501%nat /\
    0 <= maxDef d /\
    (forall i, (i < 501)%nat ->
       x (nth i (slopeArr d) dummy) = station (stepLength beam) i /\
       x (nth i (deflArr d) dummy) = station (stepLength beam) i /\
       Qabs (value (nth i (deflArr d) dummy)) <= maxDef d).
Proof.
  intros beam bm d Hrun. unfold deflectionOf in Hrun.
  set (dx := stepLength beam) in *. set (slopeEI := slopeIntegral bm dx) in *.
  set (D := deflectionIntegral slopeEI dx) in *.
  change (points + 1)%nat with 501%nat in Hrun.
  assert (Hfill : forall C1 C2,
            forM (fillStep slopeEI D C1 C2 (E beam * I beam) dx) (seq 0 501)
              defl0 = Some d ->
            List.length (slopeArr d) = 501%nat /\
            List.length (deflArr d) = 501%nat /\
            0 <= maxDef d /\
            (forall i, (i < 501)%nat ->
               x (nth i (slopeArr d) dummy) = station dx i /\
               x (nth i (deflArr d) dummy) = station dx i /\
               Qabs (value (nth i (deflArr d) dummy)) <= maxDef d)).
  { intros C1 C2 Hf.
    destruct (Qeq_dec (E beam * I beam) 0) as [Hz|Hnz].
    - rewrite (fill_loop_none slopeEI D C1 C2 _ dx 500 Hz) in Hf. discriminate.
    - rewrite (fill_loop slopeEI D C1 C2 _ dx Hnz 501) in Hf.
      apply some_inj in Hf. subst d. cbn [slopeArr deflArr maxDef].
      rewrite !length_map, !length_seq.
      destruct (maxDefTo_upper D C1 C2 (E beam * I beam) dx 501) as [Hm0 Hm].
      split; [reflexivity|]. split; [reflexivity|]. split; [exact Hm0|].
      intros i Hi.
      rewrite (nth_series (slopeValue slopeEI C1 (E beam * I beam)) dx i Hi).
      rewrite (nth_series (deflValue D C1 C2 (E beam * I beam) dx) dx i Hi).
      cbn [x value]. split; [reflexivity|]. split; [reflexivity|].
      apply Hm, Hi. }
  assert (Hzero :
            Some {| slopeArr := zeroSeries dx; deflArr := zeroSeries dx;
                    maxDef := 0 |} = Some d ->
            List.length (slopeArr d) = 501%nat /\
            List.length (deflArr d) = 501%nat /\
            0 <= maxDef d /\
            (forall i, (i < 501)%nat ->
               x (nth i (slopeArr d) dummy) = station dx i /\
               x (nth i (deflArr d) dummy) = station dx i /\
               Qabs (value (nth i (deflArr d) dummy)) <= maxDef d)).
  { intros Hz. apply some_inj in Hz. subst d. cbn [slopeArr deflArr maxDef].
    rewrite zeroSeries_length.
    split; [reflexivity|]. split; [reflexivity|]. split; [apply Qle_refl|].
    intros i Hi. rewrite (zeroSeries_nth dx i Hi). cbn [x value].
    split; [reflexivity|]. split; [reflexivity|]. apply Qle_refl. }
  destruct (find isFixed (supports beam)) as [fs|].
  - apply obind_some in Hrun. destruct Hrun as [[C1 C2] [_ Hf]].
    apply (Hfill C1 C2 Hf).
  - destruct (sortByPosition (supports beam)) as [|sA [|sB rest]].
    + apply Hzero, Hrun.
    + apply Hzero, Hrun.
    + apply obind_some in Hrun. destruct Hrun as [[C1 C2] [_ Hf]].
      apply (Hfill C1 C2 Hf).
Qed.

Lemma deflection_series_witness :
  let beam := mkBeam 10 [mkSupport "s1" pin 0; mkSupport "s2" roller 10]
                [mkLoad "l1" point 5 10000 None None] in
  let bm :=
    momentArr
      (internalForces beam
         (effectiveLoads beam
            [("s1"%string, {| Fy := 5000; Mz := None |});
             ("s2"%string, {| Fy := 5000; Mz := None |})])) in
  exists d,
    deflectionOf beam bm = Some d /\
    List.length (slopeArr d) = 501%nat /\
    List.length (deflArr d) = 501%nat /\
    0 <= maxDef d /\
    (forall i, (i < 501)%nat ->
       x (nth i (slopeArr d) dummy) = station (stepLength beam) i /\
       x (nth i (deflArr d) dummy) = station (stepLength beam) i /\
       Qabs (value (nth i (deflArr d) dummy)) <= maxDef d).
Proof.
  intros beam bm.
  assert (Hrun : exists d, deflectionOf beam bm = Some d).
  { destruct (deflectionOf_total beam bm) as [d [Hd _]].
    - reflexivity.
    - intros H. discriminate H.
    - intros s [<-|[<-|[]]]; split; discriminate.
    - right. intros sA sB rest H.
      injection H as <- <- _. intros H. discriminate H.
    - exists d. exact Hd. }
  destruct Hrun as [d Hd]. exists d. split; [exact Hd|].
  apply (deflection_series beam bm d Hd).
Defined.

(** ** A uniform load over the whole span of a simply supported beam *)

Lemma span_udl_cut (bl L w e : Q) (l ra rb : Load) (xs : Q) :
  type l = udl -> position l == 0 -> endPosition l = Some e -> e == L ->
  magnitude l == w ->
  type ra = point -> position ra == 0 -> magnitude ra == - (w * L / 2) ->
  type rb = point -> position rb == L -> magnitude rb == - (w * L / 2) ->
  0 <= xs -> xs <= L ->
  exists v m,
    fst (cutForces bl [l; ra; rb] xs) == w * v /\
    snd (cutForces bl [l; ra; rb] xs) == w * m /\
    - (L / 2) <= v /\ v <= L / 2 /\ 0 <= m /\ m <= L * L / 8 /\
    (xs < L -> v == L / 2 - xs) /\
    (xs == L / 2 -> m == L * L / 8).
Proof.
  intros Ht Hp He HeL Hm Hta Hpa Hma Htb Hpb Hmb H0 HL.
  unfold cutForces. cbn [fold_left]. unfold cutEffect.
  rewrite Ht, Hta, Htb, He. cbn [orElse]. unfold Math_min.
  (destruct (Qgeb xs (position l)) eqn:C1;
    [apply Qgeb_ge in C1 | apply Qgeb_lt in C1; exfalso; lra]);
  (destruct (Qleb xs e) eqn:C0;
    [apply Qleb_le in C0 | apply Qleb_gt in C0; exfalso; lra]);
  (destruct (Qgeb xs (position ra)) eqn:C2;
    [apply Qgeb_ge in C2 | apply Qgeb_lt in C2; exfalso; lra]);
  (destruct (Qgeb xs (position rb)) eqn:C3;
    [apply Qgeb_ge in C3 | apply Qgeb_lt in C3]);
  cbn [fst snd].
  - assert (Hx : xs == L) by lra.
    exists 0, 0. split; [|split].
    + rewrite Hm, Hma, Hmb, Hp, Hx. field.
    + rewrite Hm, Hma, Hmb, Hp, Hpa, Hpb, Hx. field.
    + assert (HLL : 0 <= L * L) by nra.
      split; [lraq|]. split; [lraq|]. split; [lra|].
      split; [unfold Qdiv; change (/ 8) with (1 # 8); lra|].
      split; [intros Hlt; exfalso; lra|].
      intros Hmid. assert (HL0 : L == 0) by lraq.
      rewrite HL0. reflexivity.
  - exists (L / 2 - xs), (xs * (L - xs) / 2). split; [|split].
    + rewrite Hm, Hma, Hp. field.
    + rewrite Hm, Hma, Hp, Hpa. field.
    + split; [lraq|]. split; [lraq|].
      assert (Hprod : 0 <= xs * (L - xs)) by (apply Qmult_le_0_compat; lra).
      assert (Hsq : 0 <= (L - 2 * xs) * (L - 2 * xs)).
      { destruct (Qlt_le_dec (L - 2 * xs) 0) as [Hn|Hn].
        - setoid_replace ((L - 2 * xs) * (L - 2 * xs))
            with ((2 * xs - L) * (2 * xs - L)) by ring.
          apply Qmult_le_0_compat; lra.
        - apply Qmult_le_0_compat; lra. }
      assert (Hexp : (L - 2 * xs) * (L - 2 * xs)
                     == L * L - 4 * (xs * (L - xs))) by ring.
      rewrite Hexp in Hsq. clear Hexp.
      set (p := xs * (L - xs)) in *. set (LL := L * L) in *.
      unfold Qdiv. change (/ 2) with (1 # 2). change (/ 8) with (1 # 8).
      split; [lra|]. split; [lra|]. split; [intros _; reflexivity|].
      intros Hmid. subst p LL. rewrite Hmid. ring.
Qed.

Section SpanUdl.

Variable toFixed : xnum -> nat -> string.
Variables (beam : BeamConfig) (a b : Support) (l : Load) (e : Q).
Hypothesis HL : 0 < length beam.
Hypothesis Hsup : supports beam = [a; b] \/ supports beam = [b; a].
Hypothesis Hpa : sposition a == 0.
Hypothesis Hpb : sposition b == length beam.
Hypothesis Hfa : isFixed a = false.
Hypothesis Hfb : isFixed b = false.
Hypothesis Hid : sid a <> sid b.
Hypothesis Hloads : loads beam = [l].
Hypothesis Ht : type l = udl.
Hypothesis Hp : position l == 0.
Hypothesis He : endPosition l = Some e.
Hypothesis HeL : e == length beam.

Lemma span_udl_totals steps :
  fst (getTotalLoads toFixed (loads beam) (sposition a) steps) =
    (0 + magnitude l * (e - position l),
     0 + magnitude l * (e - position l)
         * (position l + (e - position l) / 2 - sposition a)).
Proof.
  unfold getTotalLoads. rewrite Hloads. cbn [fold_left fst].
  unfold addLoad. rewrite Ht, He. reflexivity.
Qed.

Lemma span_udl_reactions steps :
  exists RA RB st,
    solveReactions toFixed beam steps =
      Some ([(sid a, {| Fy := RA; Mz := None |});
             (sid b, {| Fy := RB; Mz := None |})], st) /\
    RA == magnitude l * length beam / 2 /\
    RB == magnitude l * length beam / 2.
Proof.
  rewrite (solveReactions_two toFixed beam steps a b
             (midspan_noFixed beam a b Hsup Hfa Hfb)
             (midspan_sorted beam a b HL Hsup Hpa Hpb)).
  rewrite span_udl_totals. cbn [fst snd].
  rewrite jsdiv_some by lra. cbn [obind setProp].
  assert (H : String.eqb (sid a) (sid b) = false)
    by (apply String.eqb_neq; congruence).
  rewrite H.
  eexists. eexists. eexists. split; [reflexivity|].
  split; rewrite Hp, Hpa, Hpb, HeL; field; lra.
Qed.

Lemma span_udl_effective RA RB :
  RA == magnitude l * length beam / 2 ->
  RB == magnitude l * length beam / 2 ->
  tol_reaction < Qabs (magnitude l) * length beam / 2 ->
  exists la lb,
    effectiveLoads beam [(sid a, {| Fy := RA; Mz := None |});
                         (sid b, {| Fy := RB; Mz := None |})] = [l; la; lb] /\
    type la = point /\ position la == 0 /\
    magnitude la == - (magnitude l * length beam / 2) /\
    type lb = point /\ position lb == length beam /\
    magnitude lb == - (magnitude l * length beam / 2).
Proof.
  intros HRA HRB Hbig.
  assert (Habs : Qabs (magnitude l * length beam / 2)
                 == Qabs (magnitude l) * length beam / 2).
  { rewrite Qabs_half, Qabs_scaled by lra. reflexivity. }
  assert (HA : Qgtb (Math_abs RA) tol_reaction = true).
  { apply Qgtb_gt. unfold Math_abs. rewrite HRA, Habs. exact Hbig. }
  assert (HB : Qgtb (Math_abs RB) tol_reaction = true).
  { apply Qgtb_gt. unfold Math_abs. rewrite HRB, Habs. exact Hbig. }
  unfold effectiveLoads. rewrite Hloads. cbn [fold_left].
  unfold addReaction.
  rewrite (midspan_find_a beam a b Hsup Hid), (midspan_find_b beam a b Hsup Hid).
  cbn [Fy Mz]. rewrite HA, HB. unfold push. cbn [List.app].
  eexists. eexists. split; [reflexivity|].
  cbn [type position magnitude].
  repeat split; try assumption; rewrite ?HRA, ?HRB; reflexivity.
Qed.

End SpanUdl.

(** A beam of length [L > 0] on two simple supports at 0 and [L] carries one
    uniform load of intensity [w] from 0 to [L], with [|w| L / 2] above the
    threshold [1e-10]: both reactions are [w L / 2]; the largest sampled
    [|V|] is [|w| L / 2], attained at station 0; the largest sampled [|M|]
    is [|w| L^2 / 8], attained at station 250 ([x = L/2]). *)
Theorem full_span_udl :
  forall toFixed (beam : BeamConfig) (a b : Support) (l : Load) (e : Q)
         (steps : list SolverStep),
    0 < length beam ->
    supports beam = [a; b] \/ supports beam = [b; a] ->
    sposition a == 0 -> sposition b == length beam ->
    isFixed a = false -> isFixed b = false -> sid a <> sid b ->
    loads beam = [l] -> type l = udl ->
    position l == 0 -> endPosition l = Some e -> e == length beam ->
    tol_reaction < Qabs (magnitude l) * length beam / 2 ->
    exists RA RB st,
      let r := [(sid a, {| Fy := RA; Mz := None |});
                (sid b, {| Fy := RB; Mz := None |})] in
      let f := internalForces beam (effectiveLoads beam r) in
      solveReactions toFixed beam steps = Some (r, st) /\
      RA == magnitude l * length beam / 2 /\
      RB == magnitude l * length beam / 2 /\
      maxSF f == Qabs (magnitude l) * length beam / 2 /\
      Qabs (value (nth 0 (shearArr f) dummy)) == maxSF f /\
      maxBM f == Qabs (magnitude l) * (length beam * length beam) / 8 /\
      Qabs (value (nth 250 (momentArr f) dummy)) == maxBM f.
Proof.
  intros toFixed beam a b l e steps HL Hsup Hpa Hpb Hfa Hfb Hid Hloads Ht Hp He
    HeL Hbig.
  destruct (span_udl_reactions toFixed beam a b l e HL Hsup Hpa Hpb Hfa Hfb Hid
              Hloads Ht Hp He HeL steps) as [RA [RB [st [Hrun [HRA HRB]]]]].
  exists RA, RB, st. cbv zeta.
  split; [exact Hrun|]. split; [exact HRA|]. split; [exact HRB|].
  destruct (span_udl_effective beam a b l HL Hsup Hpa Hpb Hid Hloads RA RB
              HRA HRB Hbig)
    as [la [lb [Heff [Hta [Hla [Hma [Htb [Hlb Hmb]]]]]]]].
  rewrite Heff, internalForces_forcesTo.
  set (w := magnitude l) in *. set (L := length beam) in *.
  set (dx := stepLength beam). set (ls := [l; la; lb]).
  assert (Hcut : forall i, (i < 501)%nat ->
            exists v m,
              shearAt L dx ls i == w * v /\ momentAt L dx ls i == w * m /\
              - (L / 2) <= v /\ v <= L / 2 /\ 0 <= m /\ m <= L * L / 8 /\
              (i = 0%nat -> v == L / 2) /\
              (i = 250%nat -> m == L * L / 8)).
  { intros i Hi.
    destruct (station_range L i) as [Hx0 HxL]; [lra | lia |].
    destruct (span_udl_cut L L w e l la lb (station dx i) Ht Hp He HeL
                (Qeq_refl w) Hta Hla Hma Htb Hlb Hmb Hx0 HxL)
      as [v [m [HV [HM [Hv0 [Hv1 [Hm0 [Hm1 [Hv Hm]]]]]]]]].
    exists v, m. split; [exact HV|]. split; [exact HM|].
    split; [exact Hv0|]. split; [exact Hv1|].
    split; [exact Hm0|]. split; [exact Hm1|]. split.
    - intros ->.
      assert (Hs : station dx 0 == 0) by (unfold station; cbn; ring).
      rewrite Hv; [rewrite Hs; ring | rewrite Hs; exact HL].
    - intros ->. apply Hm. apply station_mid. }
  pose proof (Qabs_nonneg w) as Hw0.
  assert (HboundV : forall i, (i < 501)%nat ->
            Qabs (shearAt L dx ls i) <= Qabs w * L / 2).
  { intros i Hi. destruct (Hcut i Hi) as [v [m [HV [_ [Hv0 [Hv1 _]]]]]].
    rewrite HV, Qabs_Qmult.
    assert (Hv : Qabs v <= L / 2) by (apply Qabs_Qle_condition; split; lra).
    pose proof (Qabs_nonneg v) as Hv'.
    unfold Qdiv in *. change (/ 2) with (1 # 2) in *. nra. }
  assert (HboundM : forall i, (i < 501)%nat ->
            Qabs (momentAt L dx ls i) <= Qabs w * (L * L) / 8).
  { intros i Hi. destruct (Hcut i Hi) as [v [m [_ [HM [_ [_ [Hm0 [Hm1 _]]]]]]]].
    rewrite HM, (Qabs_scaled w m Hm0).
    unfold Qdiv in *. change (/ 8) with (1 # 8) in *. nra. }
  assert (HV0 : Qabs (shearAt L dx ls 0) == Qabs w * L / 2).
  { destruct (Hcut 0%nat) as [v [m [HV [_ [_ [_ [_ [_ [Hv _]]]]]]]]]; [lia|].
    rewrite HV, (Hv eq_refl), Qabs_scaled by lraq. field. }
  assert (HM250 : Qabs (momentAt L dx ls 250) == Qabs w * (L * L) / 8).
  { destruct (Hcut 250%nat) as [v [m [_ [HM [_ [_ [Hm0 [_ [_ Hm]]]]]]]]]; [lia|].
    rewrite HM, (Qabs_scaled w m Hm0), (Hm eq_refl). field. }
  destruct (maxSF_upper L dx ls 501) as [_ HupperV].
  destruct (maxBM_upper L dx ls 501) as [_ HupperM].
  assert (HmaxV : maxSF (forcesTo L dx ls 501) == Qabs w * L / 2).
  { apply Qle_antisym.
    - destruct (maxSF_attained L dx ls 501) as [H0|[i [Hi Hi']]].
      + rewrite H0. rewrite <- HV0. apply Qabs_nonneg.
      + rewrite Hi'. apply HboundV, Hi.
    - rewrite <- HV0. apply HupperV. lia. }
  assert (HmaxM : maxBM (forcesTo L dx ls 501) == Qabs w * (L * L) / 8).
  { apply Qle_antisym.
    - destruct (maxBM_attained L dx ls 501) as [H0|[i [Hi Hi']]].
      + rewrite H0. rewrite <- HM250. apply Qabs_nonneg.
      + rewrite Hi'. apply HboundM, Hi.
    - rewrite <- HM250. apply HupperM. lia. }
  split; [exact HmaxV|]. split.
  - rewrite forcesTo_shearArr.
    rewrite (nth_map_seq
               (fun i => {| x := station dx i; value := shearAt L dx ls i |}))
      by lia.
    cbn [value]. rewrite HV0, HmaxV. reflexivity.
  - split; [exact HmaxM|].
    rewrite forcesTo_momentArr.
    rewrite (nth_map_seq
               (fun i => {| x := station dx i; value := momentAt L dx ls i |}))
      by lia.
    cbn [value]. rewrite HM250, HmaxM. reflexivity.
Qed.

Lemma full_span_udl_witness :
  let a := mkSupport "s1" pin 0 in
  let b := mkSupport "s2" roller 10 in
  let l := mkLoad "l1" udl 0 2000 None (Some 10) in
  let beam := mkBeam 10 [a; b] [l] in
  exists RA RB st,
    let r := [(sid a, {| Fy := RA; Mz := None |});
              (sid b, {| Fy := RB; Mz := None |})] in
    let f := internalForces beam (effectiveLoads beam r) in
    solveReactions noText beam [] = Some (r, st) /\
    RA == magnitude l * length beam / 2 /\
    RB == magnitude l * length beam / 2 /\
    maxSF f == Qabs (magnitude l) * length beam / 2 /\
    Qabs (value (nth 0 (shearArr f) dummy)) == maxSF f /\
    maxBM f == Qabs (magnitude l) * (length beam * length beam) / 8 /\
    Qabs (value (nth 250 (momentArr f) dummy)) == maxBM f.
Proof.
  intros a b l beam.
  apply (full_span_udl noText beam a b l 10 []); try reflexivity.
  - left. reflexivity.
  - intros H. discriminate H.
Defined.

(** ** The running integrals in closed form *)

Lemma runningIntegral_integralTo f dx :
  runningIntegral f dx = integralTo f dx 500.
Proof.
  unfold runningIntegral, integralTo. change points with 500%nat. reflexivity.
Qed.

Lemma integralTo_length f dx n :
  List.length (integralTo f dx n) = S n.
Proof.
  unfold integralTo.
  rewrite (push_fold_length
             (fun arr i => nth i arr 0 + (f i + f (i + 1)%nat) / 2 * dx)).
  rewrite length_seq. reflexivity.
Qed.

Lemma integralTo_S f dx n :
  integralTo f dx (S n) =
    push (integralTo f dx n)
      (nth n (integralTo f dx n) 0 + ((f n + f (n + 1)%nat) / 2) * dx).
Proof. unfold integralTo. rewrite fold_left_seq_S. reflexivity. Qed.

Lemma integralTo_prefix f dx n m i :
  (i <= n)%nat -> (n <= m)%nat ->
  nth i (integralTo f dx m) 0 = nth i (integralTo f dx n) 0.
Proof.
  intros Hi Hnm. induction Hnm as [|m Hnm IH]; [reflexivity|].
  rewrite integralTo_S. unfold push.
  rewrite app_nth1 by (rewrite integralTo_length; lia). exact IH.
Qed.

Lemma integralTo_last f dx n :
  nth (S n) (integralTo f dx (S n)) 0 =
    nth n (integralTo f dx n) 0 + ((f n + f (n + 1)%nat) / 2) * dx.
Proof.
  rewrite integralTo_S. unfold push.
  rewrite app_nth2 by (rewrite integralTo_length; lia).
  rewrite integralTo_length, Nat.sub_diag. reflexivity.
Qed.

(** A sequence that starts at 0 and advances by the trapezoid of [f] is the
    running integral of [f]. *)
Lemma runningIntegral_closed f dx (F : nat -> Q) :
  F 0%nat == 0 ->
  (forall i, (i < 500)%nat ->
     F (S i) == F i + ((f i + f (i + 1)%nat) / 2) * dx) ->
  forall i, (i <= 500)%nat -> nth i (runningIntegral f dx) 0 == F i.
Proof.
  intros H0 HS i Hi. rewrite runningIntegral_integralTo.
  rewrite (integralTo_prefix f dx i 500 i (le_n i) Hi).
  induction i as [|i IH].
  - cbn. rewrite H0. reflexivity.
  - rewrite integralTo_last, IH, HS by lia. reflexivity.
Qed.

Lemma runningIntegral_head f dx : arrayAt (runningIntegral f dx) 0 = Some 0.
Proof.
  rewrite arrayAt_some by (rewrite runningIntegral_length; lia).
  change (Z.to_nat 0) with 0%nat. rewrite runningIntegral_integralTo.
  rewrite (integralTo_prefix f dx 0 500 0) by lia. reflexivity.
Qed.

Lemma station_S dx i : station dx (S i) == station dx i + dx.
Proof.
  unfold station. rewrite Nat2Z.inj_succ. unfold Z.succ.
  rewrite inject_Z_plus. change (inject_Z 1) with 1. ring.
Qed.

Lemma station_0 dx : station dx 0 == 0.
Proof. unfold station. cbn. ring. Qed.

Lemma station_end (L : Q) : station (L / Qpoints) 500 == L.
Proof.
  unfold station, Qpoints, points.
  change (inject_Z (Z.of_nat 500)) with 500. field.
Qed.

(** ** A cantilever loaded at its tip *)

Lemma tip_cut (bl L P : Q) (l ra rm : Load) (xs : Q) :
  type l = point -> position l == L -> magnitude l == P ->
  type ra = point -> position ra == 0 -> magnitude ra == - P ->
  type rm = moment -> position rm == 0 -> magnitude rm == - (P * L) ->
  0 <= xs -> xs <= L ->
  snd (cutForces bl [l; ra; rm] xs) == P * (xs + L) /\
  (xs < L -> fst (cutForces bl [l; ra; rm] xs) == P) /\
  (xs == L -> fst (cutForces bl [l; ra; rm] xs) == 0).
Proof.
  intros Ht Hp Hm Hta Hpa Hma Htm Hpm Hmm H0 HL.
  unfold cutForces. cbn [fold_left]. unfold cutEffect.
  rewrite Ht, Hta, Htm.
  (destruct (Qgeb xs (position l)) eqn:C1;
    [apply Qgeb_ge in C1 | apply Qgeb_lt in C1]);
  (destruct (Qgeb xs (position ra)) eqn:C2;
    [apply Qgeb_ge in C2 | apply Qgeb_lt in C2; exfalso; lra]);
  (destruct (Qgeb xs (position rm)) eqn:C3;
    [apply Qgeb_ge in C3 | apply Qgeb_lt in C3; exfalso; lra]);
  cbn [fst snd].
  - assert (Hx : xs == L) by lra. split; [|split].
    + rewrite Hm, Hma, Hmm, Hp, Hpa, Hx. ring.
    + intros Hlt. exfalso. lra.
    + intros _. rewrite Hm, Hma. ring.
  - split; [|split].
    + rewrite Hma, Hmm, Hpa. ring.
    + intros _. rewrite Hma. ring.
    + intros Hx. exfalso. lra.
Qed.

Section Tip.

Variable toFixed : xnum -> nat -> string.
Variables (beam : BeamConfig) (fs : Support) (l : Load).
Hypothesis HL : 0 < length beam.
Hypothesis Hsup : supports beam = [fs].
Hypothesis Hfix : isFixed fs = true.
Hypothesis Hpf : sposition fs == 0.
Hypothesis Hloads : loads beam = [l].
Hypothesis Ht : type l = point.
Hypothesis Hp : position l == length beam.

Lemma tip_reactions steps :
  exists RA MA st,
    solveReactions toFixed beam steps =
      Some ([(sid fs, {| Fy := RA; Mz := Some MA |})], st) /\
    RA == magnitude l /\ MA == magnitude l * length beam.
Proof.
  assert (Hf : find isFixed (sortByPosition (supports beam)) = Some fs).
  { rewrite Hsup. cbn. rewrite Hfix. reflexivity. }
  rewrite (solveReactions_fixed toFixed beam steps fs Hf).
  eexists. eexists. eexists. split; [reflexivity|].
  unfold getTotalLoads. rewrite Hloads. cbn [fold_left fst snd].
  unfold addLoad. rewrite Ht. cbn [sumFy sumM totals0].
  split; [ring|]. rewrite Hp, Hpf. ring.
Qed.

Lemma tip_effective RA MA :
  RA == magnitude l -> MA == magnitude l * length beam ->
  tol_reaction < Qabs (magnitude l) ->
  tol_reaction < Qabs (magnitude l) * length beam ->
  exists la lm,
    effectiveLoads beam [(sid fs, {| Fy := RA; Mz := Some MA |})]
      = [l; la; lm] /\
    type la = point /\ position la == 0 /\ magnitude la == - magnitude l /\
    type lm = moment /\ position lm == 0 /\
    magnitude lm == - (magnitude l * length beam).
Proof.
  intros HRA HMA Hbig1 Hbig2.
  assert (HA : Qgtb (Math_abs RA) tol_reaction = true).
  { apply Qgtb_gt. unfold Math_abs. rewrite HRA. exact Hbig1. }
  assert (HB : Qgtb (Math_abs MA) tol_reaction = true).
  { apply Qgtb_gt. unfold Math_abs. rewrite HMA, Qabs_scaled by lra.
    exact Hbig2. }
  unfold effectiveLoads. rewrite Hloads. cbn [fold_left].
  unfold addReaction. rewrite Hsup. cbn [find].
  rewrite String.eqb_refl. cbn [Fy Mz]. rewrite HA, HB.
  unfold push. cbn [List.app].
  eexists. eexists. split; [reflexivity|].
  cbn [type position magnitude].
  repeat split; try assumption; rewrite ?HRA, ?HMA; reflexivity.
Qed.

Lemma tip_stationIndex : stationIndex beam (sposition fs) = Some 0%Z.
Proof.
  unfold stationIndex. rewrite jsdiv_some by lra. cbn [obind].
  unfold Math_round. f_equal.
  assert (Hq : sposition fs / length beam * Qpoints + (1 # 2) == 1 # 2).
  { rewrite Hpf. unfold Qpoints, points.
    change (inject_Z (Z.of_nat 500)) with 500. field. lra. }
  rewrite Hq. reflexivity.
Qed.

End Tip.

(** A beam of length [L > 0] whose only support is fixed at 0 carries one
    point load [P] at [L], with [|P|] and [|P| L] above the threshold
    [1e-10], and [E I] is not zero.  The reactions are [R = P] and
    [M = P L].  The reaction moment enters the cut sums with the sign of
    [P L]: the sampled moment is [P (x_i + L)] at every station, the largest
    [|M|] is [2 |P| L], the shear is [P] before the tip and 0 at it.  The
    slope at the tip is [3 P L^2 / (2 E I)], and the deflection there is
    [P L^3 (2/3 + 1/3000000) / (E I)], the second term being the error of
    the trapezoid rule over 500 intervals. *)
Theorem tip_loaded_cantilever :
  forall toFixed (beam : BeamConfig) (fs : Support) (l : Load)
         (steps : list SolverStep),
    0 < length beam ->
    supports beam = [fs] -> isFixed fs = true -> sposition fs == 0 ->
    loads beam = [l] -> type l = point -> position l == length beam ->
    tol_reaction < Qabs (magnitude l) ->
    tol_reaction < Qabs (magnitude l) * length beam ->
    ~ E beam * I beam == 0 ->
    exists RA MA st d,
      let r := [(sid fs, {| Fy := RA; Mz := Some MA |})] in
      let f := internalForces beam (effectiveLoads beam r) in
      let P := magnitude l in
      let L := length beam in
      let EI := E beam * I beam in
      solveReactions toFixed beam steps = Some (r, st) /\
      RA == P /\ MA == P * L /\
      (forall i, (i < 501)%nat ->
         value (nth i (momentArr f) dummy)
           == P * (station (stepLength beam) i + L)) /\
      (forall i, (i < 500)%nat -> value (nth i (shearArr f) dummy) == P) /\
      value (nth 500 (shearArr f) dummy) == 0 /\
      maxBM f == 2 * Qabs P * L /\
      deflectionOf beam (momentArr f) = Some d /\
      value (nth 500 (slopeArr d) dummy) == 3 * P * (L * L) / (2 * EI) /\
      value (nth 500 (deflArr d) dummy)
        == P * (L * L * L) * ((2 # 3) + (1 # 3000000)) / EI.
Proof.
  intros toFixed beam fs l steps HL Hsup Hfix Hpf Hloads Ht Hp Hbig1 Hbig2 HEI.
  destruct (tip_reactions toFixed beam fs l Hsup Hfix Hpf Hloads Ht Hp steps)
    as [RA [MA [st [Hrun [HRA HMA]]]]].
  destruct (tip_effective beam fs l HL Hsup Hpf Hloads RA MA HRA HMA Hbig1 Hbig2)
    as [la [lm [Heff [Hta [Hla [Hma [Htm [Hlm Hmm]]]]]]]].
  set (P := magnitude l) in *. set (L := length beam) in *.
  set (dx := stepLength beam). set (ls := [l; la; lm]).
  assert (Hcut : forall i, (i < 501)%nat ->
            momentAt L dx ls i == P * (station dx i + L) /\
            ((i < 500)%nat -> shearAt L dx ls i == P) /\
            (i = 500%nat -> shearAt L dx ls i == 0)).
  { intros i Hi.
    destruct (station_range L i) as [Hx0 HxL]; [lra | lia |].
    destruct (tip_cut L L P l la lm (station dx i) Ht Hp (Qeq_refl P)
                Hta Hla Hma Htm Hlm Hmm Hx0 HxL) as [HM [HV1 HV2]].
    split; [exact HM|]. split.
    - intros Hlt. apply HV1.
      unfold dx, stepLength, station. fold L.
      assert (Hq : inject_Z (Z.of_nat i) <= 499).
      { change 499 with (inject_Z 499). rewrite <- Zle_Qle. lia. }
      set (q := inject_Z (Z.of_nat i)) in *.
      assert (E1 : q * (L / Qpoints) == q * L / 500).
      { unfold Qpoints, points. change (inject_Z (Z.of_nat 500)) with 500.
        field. }
      rewrite E1. apply Qlt_shift_div_r; [reflexivity|]. nra.
    - intros ->. apply HV2. apply station_end. }
  assert (HnthM : forall i, (i < 501)%nat ->
            nth i (momentArr (forcesTo L dx ls 501)) dummy =
              {| x := station dx i; value := momentAt L dx ls i |}).
  { intros i Hi. rewrite forcesTo_momentArr.
    apply (nth_map_seq
             (fun i => {| x := station dx i; value := momentAt L dx ls i |})).
    exact Hi. }
  assert (HnthV : forall i, (i < 501)%nat ->
            nth i (shearArr (forcesTo L dx ls 501)) dummy =
              {| x := station dx i; value := shearAt L dx ls i |}).
  { intros i Hi. rewrite forcesTo_shearArr.
    apply (nth_map_seq
             (fun i => {| x := station dx i; value := shearAt L dx ls i |})).
    exact Hi. }
  pose proof (Qabs_nonneg P) as HP0.
  assert (Hend : Qabs (momentAt L dx ls 500) == 2 * Qabs P * L).
  { destruct (Hcut 500%nat) as [HM _]; [lia|].
    rewrite HM. unfold dx, stepLength. fold L. rewrite station_end.
    rewrite Qabs_scaled by lra. ring. }
  assert (Hbound : forall i, (i < 501)%nat ->
            Qabs (momentAt L dx ls i) <= 2 * Qabs P * L).
  { intros i Hi. destruct (Hcut i Hi) as [HM _].
    destruct (station_range L i) as [Hx0 HxL]; [lra | lia |].
    change (L / Qpoints) with dx in Hx0, HxL.
    rewrite HM, Qabs_scaled by lra. nra. }
  assert (Hmax : maxBM (forcesTo L dx ls 501) == 2 * Qabs P * L).
  { destruct (maxBM_upper L dx ls 501) as [_ Hupper].
    apply Qle_antisym.
    - destruct (maxBM_attained L dx ls 501) as [H0|[i [Hi Hi']]].
      + rewrite H0. rewrite <- Hend. apply Qabs_nonneg.
      + rewrite Hi'. apply Hbound, Hi.
    - rewrite <- Hend. apply Hupper. lia. }
  (* the two running integrals *)
  set (bm := momentArr (forcesTo L dx ls 501)) in *.
  set (slopeEI := slopeIntegral bm dx).
  set (D := deflectionIntegral slopeEI dx).
  set (F1 := fun i : nat =>
               P * (station dx i * station dx i / 2 + L * station dx i)).
  set (F2 := fun i : nat =>
               P * (station dx i * station dx i * station dx i / 6
                    + station dx i * (dx * dx) / 12
                    + L * (station dx i * station dx i) / 2)).
  assert (HS : forall i, (i <= 500)%nat -> nth i slopeEI 0 == F1 i).
  { apply runningIntegral_closed.
    - unfold F1. rewrite station_0. field.
    - intros i Hi. rewrite (HnthM i) by lia.
      replace (i + 1)%nat with (S i) by lia.
      rewrite (HnthM (S i)) by lia. cbn [value].
      destruct (Hcut i) as [HMi _]; [lia|].
      destruct (Hcut (S i)) as [HMs _]; [lia|].
      rewrite HMi, HMs. unfold F1. rewrite !station_S. field. }
  assert (HD : forall i, (i <= 500)%nat -> nth i D 0 == F2 i).
  { apply runningIntegral_closed.
    - unfold F2. rewrite station_0. field.
    - intros i Hi. replace (i + 1)%nat with (S i) by lia.
      rewrite (HS i), (HS (S i)) by lia.
      unfold F1, F2. rewrite !station_S. field. }
  assert (Hdefl : deflectionOf beam bm =
            Some {| slopeArr :=
                      map (fun i => {| x := station dx i;
                                       value := slopeValue slopeEI (- 0)
                                                  (E beam * I beam) i |})
                        (seq 0 501);
                    deflArr :=
                      map (fun i => {| x := station dx i;
                                       value := deflValue D (- 0)
                                                  (- 0 - - 0 * sposition fs)
                                                  (E beam * I beam) dx i |})
                        (seq 0 501);
                    maxDef := maxDefTo D (- 0) (- 0 - - 0 * sposition fs)
                                (E beam * I beam) dx 501 |}).
  { unfold deflectionOf. rewrite Hsup. cbn [find]. rewrite Hfix.
    fold dx. fold slopeEI. fold D.
    unfold fixedConstants.
    rewrite (tip_stationIndex beam fs HL Hpf). cbn [obind].
    unfold slopeEI at 1, slopeIntegral. rewrite runningIntegral_head.
    cbn [obind].
    unfold D at 1, deflectionIntegral. rewrite runningIntegral_head.
    cbn [obind].
    change (points + 1)%nat with 501%nat.
    apply (fill_loop slopeEI D _ _ _ dx HEI 501). }
  eexists RA, MA, st, _. cbv zeta.
  rewrite Heff, internalForces_forcesTo. fold L dx ls bm.
  split; [exact Hrun|]. split; [exact HRA|]. split; [exact HMA|].
  split.
  { intros i Hi. rewrite (HnthM i Hi). cbn [value].
    apply (Hcut i Hi). }
  split.
  { intros i Hi. rewrite (HnthV i) by lia. cbn [value].
    apply (Hcut i); lia. }
  split.
  { rewrite (HnthV 500%nat) by lia. cbn [value]. apply (Hcut 500%nat); lia. }
  split; [exact Hmax|].
  split; [exact Hdefl|].
  cbn [slopeArr deflArr].
  rewrite (nth_series (slopeValue slopeEI _ _) dx 500) by lia.
  rewrite (nth_series (deflValue D _ _ _ dx) dx 500) by lia.
  cbn [value]. unfold slopeValue, deflValue.
  rewrite (HS 500%nat), (HD 500%nat) by lia. unfold F1, F2.
  assert (Hx : station dx 500 == L)
    by (unfold dx, stepLength; fold L; apply station_end).
  assert (Hdx : dx == L / 500).
  { unfold dx, stepLength, Qpoints, points. fold L.
    change (inject_Z (Z.of_nat 500)) with 500. reflexivity. }
  rewrite Hx, Hdx, Hpf.
  revert HEI. generalize (E beam * I beam). intros EI HEI.
  clearbody slopeEI D dx bm.
  split; field; exact HEI.
Qed.

Lemma tip_loaded_cantilever_witness :
  let fs := mkSupport "s1" fixed 0 in
  let l := mkLoad "l1" point 10 1000 None None in
  let beam := mkBeam 10 [fs] [l] in
  exists RA MA st d,
    let r := [(sid fs, {| Fy := RA; Mz := Some MA |})] in
    let f := internalForces beam (effectiveLoads beam r) in
    let P := magnitude l in
    let L := length beam in
    let EI := E beam * I beam in
    solveReactions noText beam [] = Some (r, st) /\
    RA == P /\ MA == P * L /\
    (forall i, (i < 501)%nat ->
       value (nth i (momentArr f) dummy)
         == P * (station (stepLength beam) i + L)) /\
    (forall i, (i < 500)%nat -> value (nth i (shearArr f) dummy) == P) /\
    value (nth 500 (shearArr f) dummy) == 0 /\
    maxBM f == 2 * Qabs P * L /\
    deflectionOf beam (momentArr f) = Some d /\
    value (nth 500 (slopeArr d) dummy) == 3 * P * (L * L) / (2 * EI) /\
    value (nth 500 (deflArr d) dummy)
      == P * (L * L * L) * ((2 # 3) + (1 # 3000000)) / EI.
Proof.
  intros fs l beam.
  apply (tip_loaded_cantilever noText beam fs l []); try reflexivity.
  intros H. discriminate H.
Defined.

Import BeamDesigner.

(** ** Display helpers *)

(** Each display helper ends with a space and the label that the unit table
    gives for its quantity in that system; the table entry of a system names
    that system; and the solver's own [displayStressRaw] agrees with
    [displayStress]. *)
Theorem display_suffix_matches_unit_table :
  forall toFixed (v : xnum) (s : UnitSystem),
    let u := UNIT_SYSTEMS s in
    UnitConfig.system u = s /\
    (exists n, displayForce toFixed v s
               = String.append n (String.append " " (UnitConfig.force u))) /\
    (exists n, displayMoment toFixed v s
               = String.append n (String.append " " (UnitConfig.moment u))) /\
    (exists n, displayDeflection toFixed v s
               = String.append n (String.append " " (UnitConfig.deflection u))) /\
    (exists n, displayStress toFixed v s
               = String.append n (String.append " " (UnitConfig.stress u))) /\
    (exists n, displayLength toFixed v s
               = String.append n (String.append " " (UnitConfig.length u))) /\
    displayStressRaw toFixed v s = displayStress toFixed v s.
Proof.
  intros toFixed v s. destruct s; cbv zeta;
    (split; [reflexivity|]);
    repeat (split; [eexists; reflexivity|]); reflexivity.
Qed.

(** ** Pixel and beam coordinates *)

Lemma Math_round_integer (q : Q) (k : Z) : q == inject_Z k -> Math_round q = k.
Proof.
  intros Hq. destruct (Math_round_near q) as [H1 H2].
  set (m := Math_round q) in *. rewrite Hq in H1, H2.
  apply Z.le_antisymm.
  - destruct (Z.le_gt_cases m k) as [H|H]; [exact H|].
    exfalso. assert (Hk : (k + 1 <= m)%Z) by lia.
    rewrite Zle_Qle, inject_Z_plus in Hk. change (inject_Z 1) with 1 in Hk. lra.
  - destruct (Z.le_gt_cases k m) as [H|H]; [exact H|].
    exfalso. assert (Hk : (m + 1 <= k)%Z) by lia.
    rewrite Zle_Qle, inject_Z_plus in Hk. change (inject_Z 1) with 1 in Hk. lra.
Qed.

Lemma clamp_range (len v : Q) :
  0 <= len ->
  0 <= Math_max 0 (Math_min len v) /\ Math_max 0 (Math_min len v) <= len /\
  (0 <= v -> v <= len -> Math_max 0 (Math_min len v) == v) /\
  (Math_max 0 (Math_min len v) == 0 \/ Math_max 0 (Math_min len v) == len \/
   Math_max 0 (Math_min len v) = v).
Proof.
  intros Hlen. unfold Math_max, Math_min.
  destruct (Qleb len v) eqn:C1;
    [apply Qleb_le in C1 | apply Qleb_gt in C1].
  - assert (C2 : Qleb 0 len = true) by (apply Qleb_le; exact Hlen).
    rewrite C2.
    repeat split; try lra; try (right; left; reflexivity).
  - destruct (Qleb 0 v) eqn:C2;
      [apply Qleb_le in C2 | apply Qleb_gt in C2].
    + repeat split; try lra; try (right; right; reflexivity).
    + repeat split; try lra; try (left; reflexivity).
Qed.

(** [xToPos] is defined whenever the drawing is wider than its padding
    and then yields a position inside the beam, on the snap grid unless it
    was clamped to an end. *)
Theorem xToPos_inside_beam :
  forall (xpix len W : Q),
    0 <= len -> ~ W - PAD_L - PAD_R == 0 ->
    exists p,
      xToPos xpix len W = Some p /\ 0 <= p /\ p <= len /\
      (p == 0 \/ p == len \/ exists k : Z, p = inject_Z k * SNAP).
Proof.
  intros xpix len W Hlen HW. unfold xToPos.
  rewrite (jsdiv_some _ _ HW). cbn [obind].
  eexists. split; [reflexivity|].
  destruct (clamp_range len
              (inject_Z (Math_round ((xpix - PAD_L) / (W - PAD_L - PAD_R) * len
                                     / SNAP)) * SNAP) Hlen)
    as [H0 [H1 [_ H3]]].
  split; [exact H0|]. split; [exact H1|].
  destruct H3 as [H|[H|H]]; [left; exact H | right; left; exact H |].
  right. right. eexists. exact H.
Qed.

Lemma xToPos_inside_beam_witness :
  exists p,
    xToPos 430 10 800 = Some p /\ 0 <= p /\ p <= 10 /\
    (p == 0 \/ p == 10 \/ exists k : Z, p = inject_Z k * SNAP).
Proof.
  apply (xToPos_inside_beam 430 10 800).
  - discriminate.
  - intros H. discriminate H.
Defined.

(** A position on the snap grid and inside the beam survives the round
    trip through pixel coordinates. *)
Theorem xToPos_posToX_round_trip :
  forall (pos len W : Q) (k : Z),
    0 < len -> ~ W - PAD_L - PAD_R == 0 ->
    pos == inject_Z k * SNAP -> 0 <= pos -> pos <= len ->
    exists xpix p,
      posToX pos len W = Some xpix /\ xToPos xpix len W = Some p /\ p == pos.
Proof.
  intros pos len W k Hlen HW Hgrid H0 H1.
  assert (Hl : ~ len == 0) by lra.
  unfold posToX. rewrite (jsdiv_some _ _ Hl). cbn [obind].
  eexists. eexists. split; [reflexivity|].
  unfold xToPos. rewrite (jsdiv_some _ _ HW). cbn [obind].
  split; [reflexivity|].
  assert (Hr : (PAD_L + pos / len * (W - PAD_L - PAD_R) - PAD_L)
                 / (W - PAD_L - PAD_R) * len / SNAP == inject_Z k).
  { rewrite Hgrid. unfold SNAP. field. split; assumption. }
  rewrite (Math_round_integer _ _ Hr).
  destruct (clamp_range len (inject_Z k * SNAP)) as [_ [_ [H _]]]; [lra|].
  rewrite H; lra.
Qed.

Lemma xToPos_posToX_round_trip_witness :
  exists xpix p,
    posToX (7 # 2) 10 800 = Some xpix /\ xToPos xpix 10 800 = Some p /\
    p == 7 # 2.
Proof.
  apply (xToPos_posToX_round_trip (7 # 2) 10 800 70).
  - reflexivity.
  - intros H. discriminate H.
  - reflexivity.
  - discriminate.
  - discriminate.
Defined.

(** ** Editor actions *)

Lemma applyAction_frame beam a :
  length (applyAction beam a) = length beam /\
  E (applyAction beam a) = E beam /\ I (applyAction beam a) = I beam /\
  G (applyAction beam a) = G beam /\ J (applyAction beam a) = J beam /\
  depth (applyAction beam a) = depth beam /\
  units (applyAction beam a) = units beam.
Proof.
  destruct a as [[i|i|i|i] pos|sel|t now|t now|supId v]; cbn;
    try (repeat split; reflexivity).
  unfold deleteSelected. destruct (existsb _ _); repeat split; reflexivity.
Qed.

Lemma Math_min_le_r (a b : Q) : Math_min a b <= b.
Proof. unfold Math_min. cmp_cases; lra. Qed.

Lemma Math_max_ge_r (a b : Q) : b <= Math_max a b.
Proof. unfold Math_max. cmp_cases; lra. Qed.

Lemma dragUpdate_load_cases drag beam pos l' :
  In l' (loads (dragUpdate drag beam pos)) ->
  exists l, In l (loads beam) /\
    id l' = id l /\ type l' = type l /\ magnitude l' = magnitude l /\
    endMagnitude l' = endMagnitude l /\
    (l' = l \/
     (id l = dragged drag /\
      ((position l' = pos /\
        ((endPosition l = None /\ endPosition l' = None) \/
         exists e, endPosition l = Some e /\
                   endPosition l' = Some (pos + (e - position l)))) \/
       (endPosition l' = endPosition l /\
        position l'
          = Math_min pos (orElse (endPosition l) (position l + 2) - (1 # 10))) \/
       (position l' = position l /\
        endPosition l' = Some (Math_max pos (position l + (1 # 10))))))).
Proof.
  destruct drag as [i|i|i|i]; cbn [dragUpdate loads withLoads withSupports dragged].
  - intros Hin. exists l'. repeat split; auto.
  - intros Hin. apply in_map_iff in Hin. destruct Hin as [l [<- Hl]].
    exists l. split; [exact Hl|].
    destruct (String.eqb (id l) i) eqn:Hid; cbn [negb];
      [|repeat split; auto].
    apply String.eqb_eq in Hid. cbn. repeat split; auto.
    right. split; [exact Hid|]. left. split; [reflexivity|].
    destruct (endPosition l) as [e|]; [right; exists e; auto | left; auto].
  - intros Hin. apply in_map_iff in Hin. destruct Hin as [l [<- Hl]].
    exists l. split; [exact Hl|].
    destruct (String.eqb (id l) i) eqn:Hid; cbn [negb];
      [|repeat split; auto].
    apply String.eqb_eq in Hid. cbn. repeat split; auto.
    right. split; [exact Hid|]. right. left. auto.
  - intros Hin. apply in_map_iff in Hin. destruct Hin as [l [<- Hl]].
    exists l. split; [exact Hl|].
    destruct (String.eqb (id l) i) eqn:Hid; cbn [negb];
      [|repeat split; auto].
    apply String.eqb_eq in Hid. cbn. repeat split; auto.
    right. split; [exact Hid|]. right. right. auto.
Qed.

(** Every drag update, keyboard delete, add button and inline commit of a
    support position leaves the beam length and the material and section
    constants alone; on a beam of positive length it
    keeps every span positive (an end position, once present, stays
    strictly past the start), and it never takes the end position away from
    a UDL or UVL. *)
Theorem editor_actions_keep_spans :
  forall (beam : BeamConfig) (a : EditorAction),
    0 < length beam ->
    spansPositive (loads beam) -> spansGiven (loads beam) ->
    length (applyAction beam a) = length beam /\
    E (applyAction beam a) = E beam /\ I (applyAction beam a) = I beam /\
    G (applyAction beam a) = G beam /\ J (applyAction beam a) = J beam /\
    spansPositive (loads (applyAction beam a)) /\
    spansGiven (loads (applyAction beam a)).
Proof.
  intros beam a HL Hpos Hgiven.
  destruct (applyAction_frame beam a) as [H1 [H2 [H3 [H4 [H5 _]]]]].
  split; [exact H1|]. split; [exact H2|]. split; [exact H3|].
  split; [exact H4|]. split; [exact H5|].
  destruct a as [drag pos|sel|t now|t now|supId v]; cbn [applyAction].
  - split.
    + intros l' e' Hin He'.
      destruct (dragUpdate_load_cases drag beam pos l' Hin)
        as [l [Hl [_ [_ [_ [_ Hc]]]]]].
      destruct Hc as [->|[_ [[Hp [[_ Hn]|[e [He Hn]]]]|[[He Hp]|[Hp He]]]]].
      * apply (Hpos l e' Hl He').
      * congruence.
      * rewrite Hn in He'. injection He' as <-. rewrite Hp.
        pose proof (Hpos l e Hl He). lra.
      * rewrite He in He'. rewrite Hp. rewrite He'. cbn [orElse].
        pose proof (Math_min_le_r pos (e' - (1 # 10))). lra.
      * rewrite He in He'. injection He' as <-. rewrite Hp.
        pose proof (Math_max_ge_r pos (position l + (1 # 10))). lra.
    + intros l' Hin Ht.
      destruct (dragUpdate_load_cases drag beam pos l' Hin)
        as [l [Hl [_ [Hty [_ [_ Hc]]]]]].
      rewrite Hty in Ht. pose proof (Hgiven l Hl Ht) as Hend.
      destruct Hc as [->|[_ [[Hp [[Hn _]|[e [He Hn]]]]|[[He Hp]|[Hp He]]]]];
        congruence.
  - unfold deleteSelected. destruct (existsb _ _);
      cbn [loads withLoads withSupports]; [split; assumption|].
    split.
    + intros l e Hin. apply filter_In in Hin. apply Hpos, Hin.
    + intros l Hin. apply filter_In in Hin. apply Hgiven, Hin.
  - cbn. split; assumption.
  - cbn [addLoad loads withLoads]. split.
    + intros l e Hin He. apply in_app_or in Hin. destruct Hin as [Hin|[<-|[]]];
        [apply (Hpos l e Hin He)|].
      cbn [position endPosition] in *.
      destruct t; try discriminate; injection He as <-;
        unfold Qdiv; change (/ 3) with (1 # 3); lra.
    + intros l Hin Ht. apply in_app_or in Hin. destruct Hin as [Hin|[<-|[]]];
        [apply (Hgiven l Hin Ht)|].
      cbn [type endPosition] in *. destruct Ht as [-> | ->]; discriminate.
  - cbn. split; assumption.
Qed.

Lemma editor_actions_keep_spans_witness :
  let beam := mkBeam 10 [mkSupport "s1" pin 0; mkSupport "s2" roller 10]
                [mkLoad "l1" udl 2 300 None (Some 6)] in
  let a := ActDrag (DragLoadResizeEnd "l1") 1 in
  length (applyAction beam a) = length beam /\
  E (applyAction beam a) = E beam /\ I (applyAction beam a) = I beam /\
  G (applyAction beam a) = G beam /\ J (applyAction beam a) = J beam /\
  spansPositive (loads (applyAction beam a)) /\
  spansGiven (loads (applyAction beam a)).
Proof.
  intros beam a.
  apply (editor_actions_keep_spans beam a).
  - reflexivity.
  - intros l e [<-|[]] [= <-]. reflexivity.
  - intros l [<-|[]] _. discriminate.
Defined.

(** A drag changes nothing but positions, and only of the elements that
    carry the dragged id: ids, kinds and magnitudes are kept in order, and
    every support and load with another id stays in place unchanged. *)
Theorem drag_touches_only_the_dragged :
  forall (drag : DragMode) (beam : BeamConfig) (pos : Q),
    let beam' := dragUpdate drag beam pos in
    map sid (supports beam') = map sid (supports beam) /\
    map stype (supports beam') = map stype (supports beam) /\
    map id (loads beam') = map id (loads beam) /\
    map type (loads beam') = map type (loads beam) /\
    map magnitude (loads beam') = map magnitude (loads beam) /\
    map endMagnitude (loads beam') = map endMagnitude (loads beam) /\
    (forall i s, nth_error (supports beam) i = Some s ->
       sid s <> dragged drag -> nth_error (supports beam') i = Some s) /\
    (forall i l, nth_error (loads beam) i = Some l ->
       id l <> dragged drag -> nth_error (loads beam') i = Some l).
Proof.
  intros drag beam pos beam'. subst beam'.
  assert (Hmap : forall (A B : Type) (p : A -> B) (f : A -> A) (l : list A),
            (forall a, p (f a) = p a) -> map p (map f l) = map p l).
  { intros A B p f l H. rewrite map_map. apply map_ext. exact H. }
  assert (Hnth : forall (A : Type) (f : A -> A) (l : list A) i a,
            nth_error l i = Some a -> f a = a ->
            nth_error (map f l) i = Some a).
  { intros A f l i a Hn Hf. rewrite nth_error_map, Hn. cbn. congruence. }
  assert (Hkeep : forall (f : Load -> Load) (d : string),
            (forall l, id l <> d -> f l = l) ->
            forall i l, nth_error (loads beam) i = Some l -> id l <> d ->
              nth_error (map f (loads beam)) i = Some l).
  { intros f d Hf i l Hn Hid. apply Hnth; [exact Hn | apply Hf, Hid]. }
  destruct drag as [d|d|d|d];
    cbn [dragUpdate supports loads withLoads withSupports dragged].
  - split; [apply Hmap; intros a; destruct (String.eqb _ d); reflexivity|].
    split; [apply Hmap; intros a; destruct (String.eqb _ d); reflexivity|].
    repeat (split; [reflexivity|]). split.
    + intros i s Hn Hid. apply Hnth; [exact Hn|].
      apply String.eqb_neq in Hid. rewrite Hid. reflexivity.
    + intros i l Hn _. exact Hn.
  - repeat (split; [reflexivity|]).
    repeat (split;
            [apply Hmap; intros a; destruct (String.eqb _ d); reflexivity|]).
    split; [intros i s Hn _; exact Hn|].
    apply Hkeep. intros l Hid. apply String.eqb_neq in Hid. rewrite Hid.
    reflexivity.
  - repeat (split; [reflexivity|]).
    repeat (split;
            [apply Hmap; intros a; destruct (String.eqb _ d); reflexivity|]).
    split; [intros i s Hn _; exact Hn|].
    apply Hkeep. intros l Hid. apply String.eqb_neq in Hid. rewrite Hid.
    reflexivity.
  - repeat (split; [reflexivity|]).
    repeat (split;
            [apply Hmap; intros a; destruct (String.eqb _ d); reflexivity|]).
    split; [intros i s Hn _; exact Hn|].
    apply Hkeep. intros l Hid. apply String.eqb_neq in Hid. rewrite Hid.
    reflexivity.
Qed.

(** After a resize drag the dragged load has an end at least [0.1] past its
    start (for a start drag, when it has an end at all), whatever the
    pointer position. *)
Theorem resize_keeps_a_tenth :
  forall (beam : BeamConfig) (dragId : string) (pos : Q) (l' : Load),
    id l' = dragId ->
    (In l' (loads (dragUpdate (DragLoadResizeStart dragId) beam pos)) ->
     spanOk l') /\
    (In l' (loads (dragUpdate (DragLoadResizeEnd dragId) beam pos)) ->
     exists e, endPosition l' = Some e /\ position l' + (1 # 10) <= e).
Proof.
  intros beam dragId pos l' Hid. split; intros Hin.
  - destruct (dragUpdate_load_cases _ beam pos l' Hin)
      as [l [Hl [Hi [_ [_ [_ Hc]]]]]].
    cbn [dragUpdate loads withLoads] in Hin.
    apply in_map_iff in Hin. destruct Hin as [l0 [Hl0 _]].
    assert (H0 : String.eqb (id l0) dragId = true).
    { destruct (String.eqb (id l0) dragId) eqn:Hq; [reflexivity|].
      cbn [negb] in Hl0. subst l0. apply String.eqb_neq in Hq. congruence. }
    rewrite H0 in Hl0. cbn [negb] in Hl0. subst l'.
    intros e He. cbn [position endPosition] in *. rewrite He. cbn [orElse].
    pose proof (Math_min_le_r pos (e - (1 # 10))). lra.
  - cbn [dragUpdate loads withLoads] in Hin.
    apply in_map_iff in Hin. destruct Hin as [l0 [Hl0 _]].
    assert (H0 : String.eqb (id l0) dragId = true).
    { destruct (String.eqb (id l0) dragId) eqn:Hq; [reflexivity|].
      cbn [negb] in Hl0. subst l0. apply String.eqb_neq in Hq. congruence. }
    rewrite H0 in Hl0. cbn [negb] in Hl0. subst l'.
    eexists. split; [reflexivity|]. cbn [position].
    apply Math_max_ge_r.
Qed.

Lemma resize_keeps_a_tenth_witness :
  let beam := mkBeam 10 [] [mkLoad "l1" udl 2 300 None (Some 6)] in
  let l' := mkLoad "l1" udl 2 300 None (Some (Math_max 1 (2 + (1 # 10)))) in
  (In l' (loads (dragUpdate (DragLoadResizeStart "l1") beam 1)) ->
   spanOk l') /\
  (In l' (loads (dragUpdate (DragLoadResizeEnd "l1") beam 1)) ->
   exists e, endPosition l' = Some e /\ position l' + (1 # 10) <= e).
Proof.
  intros beam l'.
  apply (resize_keeps_a_tenth beam "l1" 1 l').
  reflexivity.
Defined.

(** The Delete key removes every support carrying the selected id and leaves
    the loads alone; when no support carries it, it removes every load
    carrying it and leaves the supports alone.  Elements with another id are
    kept, in order. *)
Theorem deleteSelected_removes_the_selection :
  forall (beam : BeamConfig) (selected : string),
    let beam' := deleteSelected beam selected in
    ((exists s, In s (supports beam) /\ sid s = selected) ->
       loads beam' = loads beam /\
       supports beam' =
         filter (fun s => negb (String.eqb (sid s) selected)) (supports beam) /\
       (forall s, In s (supports beam') <->
                  In s (supports beam) /\ sid s <> selected)) /\
    ((forall s, In s (supports beam) -> sid s <> selected) ->
       supports beam' = supports beam /\
       loads beam' =
         filter (fun l => negb (String.eqb (id l) selected)) (loads beam) /\
       (forall l, In l (loads beam') <->
                  In l (loads beam) /\ id l <> selected)).
Proof.
  intros beam selected beam'. subst beam'. unfold deleteSelected. split.
  - intros [s [Hin Hid]].
    assert (Hex : existsb (fun s => String.eqb (sid s) selected) (supports beam)
                  = true).
    { apply existsb_exists. exists s. split; [exact Hin|].
      apply String.eqb_eq, Hid. }
    rewrite Hex. cbn [loads supports withSupports].
    split; [reflexivity|]. split; [reflexivity|].
    intros s'. rewrite filter_In, negb_true_iff, String.eqb_neq. reflexivity.
  - intros Hnone.
    assert (Hex : existsb (fun s => String.eqb (sid s) selected) (supports beam)
                  = false).
    { destruct (existsb _ _) eqn:Hq; [|reflexivity].
      apply existsb_exists in Hq. destruct Hq as [s [Hin Hid]].
      apply String.eqb_eq in Hid. exfalso. exact (Hnone s Hin Hid). }
    rewrite Hex. cbn [loads supports withLoads].
    split; [reflexivity|]. split; [reflexivity|].
    intros l. rewrite filter_In, negb_true_iff, String.eqb_neq. reflexivity.
Qed.

(** A support position committed from the inline editor is clamped into the
    beam: every support carrying the id ends up inside [0, L], at the typed
    value when that lies inside. *)
Theorem committed_support_is_inside :
  forall (beam : BeamConfig) (supId : string) (v : Q) (s' : Support),
    0 <= length beam ->
    In s' (supports (commitSupportPosition beam supId v)) ->
    sid s' = supId ->
    0 <= sposition s' /\ sposition s' <= length beam /\
    (0 <= v -> v <= length beam -> sposition s' == v).
Proof.
  intros beam supId v s' HL Hin Hid.
  cbn [commitSupportPosition supports withSupports] in Hin.
  apply in_map_iff in Hin. destruct Hin as [s [Hs _]].
  destruct (String.eqb (sid s) supId) eqn:Hq.
  - subst s'. cbn [sposition].
    destruct (clamp_range (length beam) v HL) as [H0 [H1 [H2 _]]]. auto.
  - subst s'. apply String.eqb_neq in Hq. congruence.
Qed.

Lemma committed_support_is_inside_witness :
  let beam := mkBeam 10 [mkSupport "s1" pin 0; mkSupport "s2" roller 10] [] in
  let s' := mkSupport "s2" roller (Math_max 0 (Math_min 10 12)) in
  0 <= sposition s' /\ sposition s' <= length beam /\
  (0 <= 12 -> 12 <= length beam -> sposition s' == 12).
Proof.
  intros beam s'.
  apply (committed_support_is_inside beam "s2" 12 s').
  - discriminate.
  - right. left. reflexivity.
  - reflexivity.
Defined.

(** Two supports added in a row to a beam without supports both sit at
    [L/2]: when neither is fixed the reaction solver divides by the zero
    span between them and returns no finite reactions. *)
Theorem two_added_supports_coincide :
  forall toFixed (beam : BeamConfig) (t1 t2 : SupportType) (n1 n2 : string)
         (steps : list SolverStep),
    supports beam = [] -> t1 <> fixed -> t2 <> fixed ->
    let beam' := addSupport (addSupport beam t1 n1) t2 n2 in
    map sposition (supports beam') = [length beam / 2; length beam / 2] /\
    solveReactions toFixed beam' steps = None.
Proof.
  intros toFixed beam t1 t2 n1 n2 steps Hs Ht1 Ht2 beam'.
  set (s1 := {| sid := String.append "s" n1; stype := t1;
                sposition := length beam / 2 |}).
  set (s2 := {| sid := String.append "s" n2; stype := t2;
                sposition := length beam / 2 |}).
  assert (Hsup : supports beam' = [s1; s2]).
  { subst beam'. cbn [addSupport supports withSupports length].
    rewrite Hs. reflexivity. }
  rewrite Hsup. split; [reflexivity|].
  assert (Hsort : sortByPosition (supports beam') = [s1; s2]).
  { rewrite Hsup. cbn [sortByPosition fold_right insertByPosition].
    assert (Hle : Qleb (sposition s1) (sposition s2) = true)
      by (apply Qleb_le, Qle_refl).
    rewrite Hle. reflexivity. }
  assert (Hno : noFixed (supports beam')).
  { rewrite Hsup. intros s [<-|[<-|[]]]; unfold isFixed; cbn [stype].
    - destruct t1; try reflexivity; congruence.
    - destruct t2; try reflexivity; congruence. }
  rewrite (solveReactions_two toFixed beam' steps s1 s2 Hno Hsort).
  rewrite jsdiv_none; [reflexivity|]. cbn [sposition s1 s2]. ring.
Qed.

Lemma two_added_supports_coincide_witness :
  let beam := mkBeam 10 [] [mkLoad "l1" point 5 10000 None None] in
  let beam' := addSupport (addSupport beam pin "1700000000000") roller
                 "1700000000500" in
  map sposition (supports beam') = [length beam / 2; length beam / 2] /\
  solveReactions noText beam' [] = None.
Proof.
  intros beam.
  apply (two_added_supports_coincide noText beam pin roller "1700000000000"
           "1700000000500" []).
  - reflexivity.
  - discriminate.
  - discriminate.
Defined.
